(** * KRONOS keystroke capture: the event-to-metrics pipeline

    A shallow embedding of [src/App.tsx] (the [App] component's state and
    handlers, the export of the log and what the page shows of the
    analysis), of the [KeyEntry] interface and of [analyzeKeystrokes]
    (the Gemini service, with its prompt), followed by the properties of
    the pipeline.

    Conventions of the embedding.
    - A JavaScript string is the sequence of its UTF-16 code units, so
      that [length] is the [.length] of the source and a regular
      expression without the [u] flag consumes one unit per character.
    - [Date.now()] yields a time value, an integral number of
      milliseconds.  The fields of an entry that hold integral numbers,
      [timestamp] and [interval], are kept in [Z], and so is the
      tracker.  The handler's [now - lastKeyTime.current] is the
      subtraction of two numbers: [minus] gives the exact difference
      rounded as binary64 rounds it, which is the exact difference as
      long as that is below [2 ^ 53] in magnitude (lemma [minus_exact])
      and is what the operator of binary64 yields on all time values
      (lemma [minus_num_sub]).
    - The statistics are computed in IEEE 754 binary64, the arithmetic
      of a JavaScript [number], through the Standard Library's
      [SpecFloat]: they read the integers as numbers ([of_int]) and add,
      subtract, divide and round them as the source does.
    - The component is driven by events; each handler runs to completion
      before the next event is taken, as in the browser's event loop.
      A click on the analysis button comes with the way the constructor
      of the client ends, which [analyzeKeystrokes] calls outside its
      [try]: by returning, or by throwing.
    - The built-in operations that the export and the prompt rely on
      ([padEnd], [join], the rendering of an integer in a template
      literal and [Date.prototype.toISOString]) are written out from
      their definitions in ECMAScript; an exception thrown by one of
      them is the value [None]. *)

From Stdlib Require Import QArith Qround.
From Stdlib Require Import ZArith NArith Lia Ascii String.
From Stdlib Require Import DecimalString DecimalZ DecimalPos.
From Stdlib Require Import Floats.SpecFloat.
From stdpp Require Import base strings list.

Local Open Scope Z_scope.

(** ** Strings *)

Definition code_unit := N.
Definition jsstring := list code_unit.

(** The code units of an ASCII literal. *)
Definition js (s : string) : jsstring :=
  N_of_ascii <$> list_ascii_of_string s.

(** ** Data model (the [KeyEntry] interface) *)

Inductive KeyType := alpha | numeric | special | command.

Record KeyEntry := {
  id : jsstring;
  key : jsstring;
  code : jsstring;
  timestamp : Z;
  interval : Z;
  type : KeyType
}.

(** The two fields of a DOM [KeyboardEvent] that the handler reads. *)
Module KeyboardEvent.

Record t := { key : jsstring; code : jsstring }.

End KeyboardEvent.

(** ** Event classifier (App.tsx, lines 46-48) *)

Definition in_range (lo hi : N) (c : code_unit) : bool :=
  ((lo <=? c) && (c <=? hi))%N.

(** The character classes [[a-zA-Z]] and [[0-9]]. *)
Definition class_a_zA_Z (c : code_unit) : bool :=
  in_range 97 122 c || in_range 65 90 c.

Definition class_0_9 (c : code_unit) : bool :=
  in_range 48 57 c.

(** [/^[cls]$/.test(s)]: the whole input is one unit of the class. *)
Definition test_one (cls : code_unit -> bool) (s : jsstring) : bool :=
  match s with
  | [c] => cls c
  | _ => false
  end.

Definition classify (k : jsstring) : KeyType :=
  if test_one class_a_zA_Z k then alpha
  else if test_one class_0_9 k then numeric
  else if (1 <? length k)%nat then command
  else special.

(** The reference definition of the classifier: four rules, each one
    applying only when the earlier ones do not. *)
Definition latin_letter (c : code_unit) : Prop :=
  c ∈ js "ABCDEFGHIJKLMNOPQRSTUVWXYZ" ∨
  c ∈ js "abcdefghijklmnopqrstuvwxyz".

Definition decimal_digit (c : code_unit) : Prop :=
  c ∈ js "0123456789".

Definition single (P : code_unit -> Prop) (k : jsstring) : Prop :=
  ∃ c, k = [c] ∧ P c.

Inductive classifies (k : jsstring) : KeyType -> Prop :=
  | rule_alpha :
      single latin_letter k -> classifies k alpha
  | rule_numeric :
      ¬ single latin_letter k -> single decimal_digit k ->
      classifies k numeric
  | rule_command :
      ¬ single latin_letter k -> ¬ single decimal_digit k ->
      (1 < length k)%nat -> classifies k command
  | rule_special :
      ¬ single latin_letter k -> ¬ single decimal_digit k ->
      ¬ (1 < length k)%nat -> classifies k special.

(** ** Feature extraction and the analysis service (geminiService) *)

(** The two values that [analyzeKeystrokes] derives from the log and
    embeds in the prompt (lines 8-9). *)
Record Payload := {
  sequence : jsstring;
  timings : list Z
}.

Definition extract (entries : list KeyEntry) : Payload :=
  {| sequence := concat (key <$> entries);
     timings := take 50 (interval <$> entries) |}.

(** How the promise returned by [ai.models.generateContent] settles:
    fulfilled with a response whose [text] may be undefined, or rejected
    with an error value. *)
Inductive Outcome :=
  | Fulfilled (text : option jsstring)
  | Rejected (error : jsstring).

Definition unable_message : jsstring := js "Unable to generate analysis.".
Definition failed_message : jsstring :=
  js "Analysis failed due to an API error.".

(** The [try]/[catch] around the call (lines 25-38);
    [response.text || "..."] falls back on an undefined or empty text. *)
Definition settle (o : Outcome) : jsstring :=
  match o with
  | Fulfilled (Some (c :: text)) => c :: text
  | Fulfilled _ => unable_message
  | Rejected _ => failed_message
  end.

(** [analyzeKeystrokes]: how its promise settles, [Some] string when it
    is fulfilled and [None] when it is rejected.  [GoogleGenAI] is the
    way [new GoogleGenAI(...)] ends (line 5, before the [try]): [None]
    when the constructor throws, which rejects the promise, else the
    client, with the remote model as a function of the payload placed in
    the prompt. *)
Definition analyzeKeystrokes (GoogleGenAI : option (Payload -> Outcome))
    (entries : list KeyEntry) : option jsstring :=
  generateContent ← GoogleGenAI;
  Some (settle (generateContent (extract entries))).

(** ** The component state and its handlers (App.tsx) *)

Record App := {
  entries : list KeyEntry;
  isRecording : bool;
  analysis : option jsstring;
  isAnalyzing : bool;
  lastKeyTime : Z
}.

(** The state after the first render at time [mounted]:
    [useRef(Date.now())] stores the time of the mount. *)
Definition mount (mounted : Z) : App :=
  {| entries := [];
     isRecording := true;
     analysis := None;
     isAnalyzing := false;
     lastKeyTime := mounted |}.

(** [roundTiesToEven] on integers: the integer nearest to [z] among the
    numbers, which have 53 significant bits, the one with the even last
    place of two equally near.  An integer below [2 ^ 53] in magnitude
    is a number. *)
Definition round_ties_even (z : Z) : Z :=
  let a := Z.abs z in
  if a <? 2 ^ 53 then z
  else
    let k := Z.log2 a - 52 in
    let q := a / 2 ^ k in
    let r := a mod 2 ^ k in
    let up := (2 ^ (k - 1) <? r) || ((r =? 2 ^ (k - 1)) && Z.odd q) in
    Z.sgn z * ((if up then q + 1 else q) * 2 ^ k).

(** The operator [-] on two integral numbers: the exact difference,
    rounded. *)
Definition minus (x y : Z) : Z := round_ties_even (x - y).

(** [handleKeyDown] (lines 33-52); [now] is the value of [Date.now()] and
    [rnd] the string drawn for the entry's id. *)
Definition handleKeyDown (e : KeyboardEvent.t) (now : Z) (rnd : jsstring)
    (s : App) : App :=
  if negb (isRecording s) then s
  else
    let interval := minus now (lastKeyTime s) in
    let newEntry :=
      {| id := rnd;
         key := KeyboardEvent.key e;
         code := KeyboardEvent.code e;
         timestamp := now;
         interval := interval;
         type := classify (KeyboardEvent.key e) |} in
    {| entries := entries s ++ [newEntry];
       isRecording := isRecording s;
       analysis := analysis s;
       isAnalyzing := isAnalyzing s;
       lastKeyTime := now |}.

(** The PAUSE/RESUME button: [setIsRecording(!isRecording)]. *)
Definition toggleRecording (s : App) : App :=
  {| entries := entries s;
     isRecording := negb (isRecording s);
     analysis := analysis s;
     isAnalyzing := isAnalyzing s;
     lastKeyTime := lastKeyTime s |}.

(** [clearLogs] (lines 59-62). *)
Definition clearLogs (s : App) : App :=
  {| entries := [];
     isRecording := isRecording s;
     analysis := None;
     isAnalyzing := isAnalyzing s;
     lastKeyTime := lastKeyTime s |}.

(** [runAnalysis] (lines 78-84) up to its [await]: the new state and the
    requests sent to the model (none or one).  [client] tells whether
    the constructor called by [analyzeKeystrokes] returns: when it
    throws, the flag has been set and no request is made. *)
Definition runAnalysis (client : bool) (s : App) : App * list Payload :=
  if (length (entries s) <? 5)%nat then (s, [])
  else
    ({| entries := entries s;
        isRecording := isRecording s;
        analysis := analysis s;
        isAnalyzing := true;
        lastKeyTime := lastKeyTime s |},
     if client then [extract (entries s)] else []).

(** [runAnalysis] after its [await], once the request has settled: the
    promise of [analyzeKeystrokes] is then fulfilled.  It is rejected
    when the constructor throws, and these two lines do not run. *)
Definition runAnalysis_resume (o : Outcome) (s : App) : App :=
  {| entries := entries s;
     isRecording := isRecording s;
     analysis := Some (settle o);
     isAnalyzing := false;
     lastKeyTime := lastKeyTime s |}.

(** What can happen to the mounted component. *)
Inductive Event :=
  | KeyDown (e : KeyboardEvent.t) (now : Z) (rnd : jsstring)
  | ToggleRecording
  | ClearLogs
  | RunAnalysis (client : bool)
  | AnalysisSettled (o : Outcome).

Definition step (s : App) (ev : Event) : App * list Payload :=
  match ev with
  | KeyDown e now rnd => (handleKeyDown e now rnd s, [])
  | ToggleRecording => (toggleRecording s, [])
  | ClearLogs => (clearLogs s, [])
  | RunAnalysis client => runAnalysis client s
  | AnalysisSettled o => (runAnalysis_resume o s, [])
  end.

(** The state reached from [s] by a sequence of events. *)
Definition run (s : App) (evs : list Event) : App :=
  foldl (λ s ev, fst (step s ev)) s evs.

(** The requests issued along the way, oldest first. *)
Fixpoint requests (s : App) (evs : list Event) : list Payload :=
  match evs with
  | [] => []
  | ev :: evs => snd (step s ev) ++ requests (fst (step s ev)) evs
  end.

(** The clock values stored by the key events of a trace that were
    recorded, oldest first; [rec] tells whether capture is armed. *)
Fixpoint recorded (rec : bool) (evs : list Event) : list Z :=
  match evs with
  | [] => []
  | KeyDown _ now _ :: evs =>
      if rec then now :: recorded rec evs else recorded rec evs
  | ToggleRecording :: evs => recorded (negb rec) evs
  | _ :: evs => recorded rec evs
  end.

(** The clock value of every key event of a trace, oldest first. *)
Definition clock_readings (evs : list Event) : list Z :=
  omap (λ ev, match ev with KeyDown _ now _ => Some now | _ => None end) evs.

(** A clock that never runs backwards from [t]. *)
Fixpoint monotonic_from (t : Z) (ts : list Z) : Prop :=
  match ts with
  | [] => True
  | t' :: ts => t <= t' ∧ monotonic_from t' ts
  end.

(** Clock readings that are time values less than [2 ^ 53] ms apart
    from one another: they lie in [[lo, hi)]. *)
Definition window (lo hi : Z) : Prop :=
  - 2 ^ 53 < lo ∧ hi <= 2 ^ 53 ∧ hi - lo <= 2 ^ 53.

(** The intervals of a log are those that the handler computes from
    successive time stamps, the first one counted from [t]. *)
Fixpoint measured_from (t : Z) (es : list KeyEntry) : Prop :=
  match es with
  | [] => True
  | e :: es =>
      interval e = minus (timestamp e) t ∧ measured_from (timestamp e) es
  end.

(** The intervals of a log are the differences of successive time
    stamps, the first one counted from [t]. *)
Fixpoint intervals_from (t : Z) (es : list KeyEntry) : Prop :=
  match es with
  | [] => True
  | e :: es => interval e = timestamp e - t ∧ intervals_from (timestamp e) es
  end.

(** [tracker_ok base s]: the log of [s] has its intervals counted from
    [base], and the tracker holds the time stamp of the newest entry, or
    [base] while the log is empty. *)
Definition tracker_ok (base : Z) (s : App) : Prop :=
  measured_from base (entries s) ∧
  lastKeyTime s = default base (timestamp <$> last (entries s)).

(** Two states with the same log, tracker and recording flag; they may
    differ in the analysis fields. *)
Definition same_session (s1 s2 : App) : Prop :=
  entries s1 = entries s2 ∧ isRecording s1 = isRecording s2 ∧
  lastKeyTime s1 = lastKeyTime s2.

(** ** Numbers (IEEE 754 binary64) *)

Definition prec : Z := 53.
Definition emax : Z := 1024.

Definition number := spec_float.

Definition zero : number := S754_zero false.

(** The number nearest to an integer; exact up to [2 ^ 53]. *)
Definition of_int (z : Z) : number := binary_normalize prec emax z 0 false.

(** The operators [+], [-] and [/] and the comparison [<=]. *)
Definition num_add (x y : number) : number := SFadd prec emax x y.
Definition num_sub (x y : number) : number := SFsub prec emax x y.
Definition num_div (x y : number) : number := SFdiv prec emax x y.
Definition num_le (x y : number) : bool := SFleb x y.

(** [Math.round]: a number that is not finite or that is integral is
    returned as it is; otherwise the result is the integer nearest to it,
    the larger one of two equally near, with the sign of the argument
    when that integer is zero. *)
Definition Math_round (x : number) : number :=
  match x with
  | S754_finite s m e =>
      if 0 <=? e then x
      else
        let n := cond_Zopp s (Zpos m) in
        let r := (2 * n + 2 ^ (- e)) / 2 ^ (1 - e) in
        if r =? 0 then S754_zero s else of_int r
  | _ => x
  end.

(** The integer that a number denotes, when it denotes one. *)
Definition to_int (x : number) : option Z :=
  match x with
  | S754_zero _ => Some 0
  | S754_finite s m e =>
      if 0 <=? e then Some (cond_Zopp s (Zpos m * 2 ^ e))
      else if Zpos m mod 2 ^ (- e) =? 0
           then Some (cond_Zopp s (Zpos m / 2 ^ (- e)))
           else None
  | _ => None
  end.

(** ** Session statistics (App.tsx, lines 86-96) *)

Definition totalKeys (entries : list KeyEntry) : nat := length entries.

(** [calculateWPM].  The two array reads cannot fail once the log is
    known not to be empty; the model maps such a failure to NaN. *)
Definition calculateWPM (entries : list KeyEntry) : number :=
  if (length entries =? 0)%nat then zero
  else
    match entries !! (length entries - 1)%nat, entries !! 0%nat with
    | Some newest, Some oldest =>
        let timeInMinutes :=
          num_div (num_sub (of_int (timestamp newest))
                           (of_int (timestamp oldest)))
                  (of_int 60000) in
        if num_le timeInMinutes zero then zero
        else
          let words := num_div (of_int (Z.of_nat (length entries)))
                               (of_int 5) in
          Math_round (num_div words timeInMinutes)
    | _, _ => S754_nan
    end.

(** [avgInterval]. *)
Definition avgInterval (entries : list KeyEntry) : number :=
  if (0 <? length entries)%nat
  then Math_round
         (num_div
            (foldl (λ acc curr, num_add acc (of_int (interval curr)))
                   zero entries)
            (of_int (Z.of_nat (length entries))))
  else zero.

(** Logs for examples: one entry per time stamp. *)
Definition entry_at (t : Z) : KeyEntry :=
  {| id := []; key := js "a"; code := js "KeyA"; timestamp := t;
     interval := 0; type := alpha |}.

Definition log_at (ts : list Z) : list KeyEntry := entry_at <$> ts.

(** ** Reference definitions of the statistics, in exact arithmetic *)

(** The integer nearest to a rational, the larger one of two equally
    near. *)
Definition round_half_up (x : Q) : Z := Qfloor (x + (1 # 2))%Q.

Definition interval_sum (entries : list KeyEntry) : Z :=
  foldr (λ e acc, interval e + acc) 0 entries.

(** The arithmetic mean of the stored intervals. *)
Definition mean_interval (entries : list KeyEntry) : Q :=
  (inject_Z (interval_sum entries) /
   inject_Z (Z.of_nat (length entries)))%Q.

(** [(n / 5) / m] for [n] entries spanning [d] milliseconds, that is
    [m = d / 60000] minutes. *)
Definition exact_wpm (n d : Z) : Q :=
  ((inject_Z n / 5) / (inject_Z d / 60000))%Q.

(** ** Auxiliary definitions for the analysis of binary64 division *)

(** The normalised mantissa and exponent of a positive integer below
    [2 ^ 53]. *)
Definition mant (p : positive) : positive :=
  Z.to_pos (Zpos p * 2 ^ (53 - Zpos (digits2_pos p))).

Definition expo (p : positive) : Z := Zpos (digits2_pos p) - 53.

(** The last step of rounding: a mantissa that was rounded up to
    [2 ^ 53] is renormalised. *)
Definition finish (s : bool) (m1 e : Z) : number :=
  if m1 =? 2 ^ 53 then S754_finite s (2 ^ 52)%positive (e + 1)
  else S754_finite s (Z.to_pos m1) e.

(** The position of [r / b] in the unit interval. *)
Definition location_of (b r : Z) : location :=
  if r =? 0 then loc_Exact else loc_Inexact (2 * r ?= b).

(** ** Tactics *)

(** Products of non-negative factors. *)
Ltac nonneg := repeat apply Z.mul_nonneg_nonneg; lia.

(** The two facts about the quotient and remainder of [a] by [b > 0]. *)
Ltac div_mod_facts a b Hdm Hr :=
  pose proof (Z.div_mod a b ltac:(lia)) as Hdm;
  pose proof (Z.mod_pos_bound a b ltac:(lia)) as Hr.

(** ** Sample inputs *)

Definition press (k c : string) : KeyboardEvent.t :=
  {| KeyboardEvent.key := js k; KeyboardEvent.code := js c |}.

Definition entry_of (k : string) (t dt : Z) : KeyEntry :=
  {| id := []; key := js k; code := []; timestamp := t; interval := dt;
     type := classify (js k) |}.

(** ** What the page shows (App.tsx, the JSX of lines 98-283) *)

(** The [disabled] attributes of the export button (line 128) and of the
    analysis button (line 182). *)
Definition export_disabled (s : App) : bool :=
  (length (entries s) =? 0)%nat.

Definition analysis_disabled (s : App) : bool :=
  (length (entries s) <? 5)%nat || isAnalyzing s.

(** The analysis panel (lines 190-201): a spinner while a request is
    outstanding, else the analysis when it is a non-empty string, else
    the invitation to capture five keys. *)
Inductive Panel :=
  | Decoding
  | Report (text : jsstring)
  | Placeholder.

Definition panel (s : App) : Panel :=
  if isAnalyzing s then Decoding
  else
    match analysis s with
    | Some (c :: text) => Report (c :: text)
    | _ => Placeholder
    end.

(** The key events of a list of key presses, each with its clock reading
    and the string drawn for its id. *)
Definition keydowns (ks : list (KeyboardEvent.t * Z * jsstring)) :
    list Event :=
  (λ k, KeyDown k.1.1 k.1.2 k.2) <$> ks.

(** The requests sent and not yet settled after a trace, [pending] of
    them being outstanding at its start. *)
Fixpoint in_flight (pending : nat) (s : App) (evs : list Event) : nat :=
  match evs with
  | [] => pending
  | ev :: evs =>
      in_flight
        (match ev with
         | AnalysisSettled _ => pending - 1
         | _ => pending + length (snd (step s ev))
         end)%nat
        (fst (step s ev)) evs
  end.

(** The traces that the page allows: the analysis handler runs only on a
    click on its button, which must be enabled, and a request settles
    only if one is outstanding. *)
Fixpoint ui_trace (pending : nat) (s : App) (evs : list Event) : Prop :=
  match evs with
  | [] => True
  | ev :: evs =>
      match ev with
      | RunAnalysis _ => analysis_disabled s = false
      | AnalysisSettled _ => (0 < pending)%nat
      | _ => True
      end ∧
      ui_trace (in_flight pending s [ev]) (fst (step s ev)) evs
  end.

(** ** Strings: the built-in operations used by the export and the prompt *)

Definition LF : code_unit := 10%N.
Definition SP : code_unit := 32%N.

(** [Array.prototype.join] on an array of strings. *)
Fixpoint join (sep : jsstring) (l : list jsstring) : jsstring :=
  match l with
  | [] => []
  | [x] => x
  | x :: l => x ++ sep ++ join sep l
  end.

(** The number of line feeds in a string: one less than the number of
    its lines. *)
Definition line_feeds (s : list code_unit) : nat :=
  length (filter (λ c, c = LF) s).

(** [String.prototype.padEnd] with the default filler, a space: a string
    that has the length is returned as it is. *)
Definition padEnd (maxLength : nat) (s : jsstring) : jsstring :=
  s ++ replicate (maxLength - length s) SP.

(** The decimal numeral of an integer, as a template literal renders a
    number that is an integer below [10 ^ 21] in magnitude. *)
Definition number_to_string (z : Z) : jsstring :=
  js (NilZero.string_of_int (Z.to_int z)).

(** ** Dates: the time value of a [Date] and its ISO rendering *)

Definition msPerDay : Z := 86400000.

Definition Day (t : Z) : Z := t / msPerDay.
Definition TimeWithinDay (t : Z) : Z := t mod msPerDay.

Definition DaysInYear (y : Z) : Z :=
  if negb (y mod 4 =? 0) then 365
  else if negb (y mod 100 =? 0) then 366
  else if negb (y mod 400 =? 0) then 365
  else 366.

Definition DayFromYear (y : Z) : Z :=
  365 * (y - 1970) + (y - 1969) / 4 - (y - 1901) / 100 + (y - 1601) / 400.

Definition TimeFromYear (y : Z) : Z := msPerDay * DayFromYear y.

(** The largest year that starts at or before [t]: an estimate from the
    mean length of a year, corrected by at most one. *)
Definition YearFromTime (t : Z) : Z :=
  let y := 1970 + Day t * 400 / 146097 in
  if DayFromYear (y + 1) <=? Day t then y + 1
  else if DayFromYear y <=? Day t then y
  else y - 1.

Definition InLeapYear (t : Z) : Z :=
  if DaysInYear (YearFromTime t) =? 365 then 0 else 1.

Definition DayWithinYear (t : Z) : Z := Day t - DayFromYear (YearFromTime t).

Definition MonthFromTime (t : Z) : Z :=
  let d := DayWithinYear t in
  let leap := InLeapYear t in
  if d <? 31 then 0
  else if d <? 59 + leap then 1
  else if d <? 90 + leap then 2
  else if d <? 120 + leap then 3
  else if d <? 151 + leap then 4
  else if d <? 181 + leap then 5
  else if d <? 212 + leap then 6
  else if d <? 243 + leap then 7
  else if d <? 273 + leap then 8
  else if d <? 304 + leap then 9
  else if d <? 334 + leap then 10
  else 11.

Definition DateFromTime (t : Z) : Z :=
  let d := DayWithinYear t in
  let leap := InLeapYear t in
  match MonthFromTime t with
  | 0 => d + 1
  | 1 => d - 30
  | 2 => d - 58 - leap
  | 3 => d - 89 - leap
  | 4 => d - 119 - leap
  | 5 => d - 150 - leap
  | 6 => d - 180 - leap
  | 7 => d - 211 - leap
  | 8 => d - 242 - leap
  | 9 => d - 272 - leap
  | 10 => d - 303 - leap
  | _ => d - 333 - leap
  end.

Definition HourFromTime (t : Z) : Z := (t / 3600000) mod 24.
Definition MinFromTime (t : Z) : Z := (t / 60000) mod 60.
Definition SecFromTime (t : Z) : Z := (t / 1000) mod 60.
Definition msFromTime (t : Z) : Z := t mod 1000.

(** The decimal digits of a natural number, in a field of [w] digits. *)
Definition digit (n : Z) : code_unit := (48 + Z.to_N n)%N.

Fixpoint digits (w : nat) (n : Z) : jsstring :=
  match w with
  | O => []
  | S w => digits w (n / 10) ++ [digit (n mod 10)]
  end.

(** The year of an ISO date: four digits from 0 to 9999, else a sign
    and six digits. *)
Definition iso_year (y : Z) : jsstring :=
  if (0 <=? y) && (y <=? 9999) then digits 4 y
  else (if y <? 0 then js "-" else js "+") ++ digits 6 (Z.abs y).

(** [new Date(tv).toISOString()] for an integral [tv]: a time value
    beyond 8.64e15 ms from the epoch makes an invalid date, on which
    [toISOString] throws a [RangeError]. *)
Definition toISOString (tv : Z) : option jsstring :=
  if 8640000000000000 <? Z.abs tv then None
  else
    Some (iso_year (YearFromTime tv) ++
          js "-" ++ digits 2 (MonthFromTime tv + 1) ++
          js "-" ++ digits 2 (DateFromTime tv) ++
          js "T" ++ digits 2 (HourFromTime tv) ++
          js ":" ++ digits 2 (MinFromTime tv) ++
          js ":" ++ digits 2 (SecFromTime tv) ++
          js "." ++ digits 3 (msFromTime tv) ++ js "Z").

(** ** The export (App.tsx, lines 64-76) *)

(** One line of the export (line 66); it is not produced when the
    rendering of the date throws. *)
Definition export_line (e : KeyEntry) : option jsstring :=
  iso ← toISOString (timestamp e);
  Some (js "[" ++ iso ++ js "] KEY: " ++ padEnd 10 (key e) ++
        js " CODE: " ++ padEnd 10 (code e) ++
        js " DELTA: " ++ number_to_string (interval e) ++ js "ms").

(** The file offered for download: the text of the blob and the name
    given to the anchor. *)
Record Download := {
  content : jsstring;
  download : jsstring
}.

(** [downloadLogs] at clock reading [now]. *)
Definition downloadLogs (now : Z) (s : App) : option Download :=
  lines ← mapM export_line (entries s);
  Some {| content := join [LF] lines;
          download := js "KRONOS_LOG_" ++ number_to_string now ++
                      js ".txt" |}.

(** ** The prompt (geminiService, lines 8-23) *)

Definition QUOTE : code_unit := 34%N.

(** The template literal, with the two values of the payload in their
    places. *)
Definition prompt (p : Payload) : jsstring :=
  join [LF]
    [ [];
      js "    Analyze the following keyboard activity captured by the KRONOS system.";
      js "    ";
      js "    Sequence: " ++ [QUOTE] ++ sequence p ++ [QUOTE];
      js "    Timings (ms between keys): [" ++
        join (js ", ") (number_to_string <$> timings p) ++ js "]";
      js "    ";
      js "    Tasks:";
      js "    1. Identify any typing patterns or habits.";
      js "    2. Detect if the sequence looks like natural language, code, or random input.";
      js "    3. Provide a brief summary of the user's focus.";
      js "    ";
      js "    Note: This is a diagnostic keyboard capture.";
      js "  " ].

(** ** Classifier: proofs *)

Lemma in_range_spec lo hi c :
  in_range lo hi c = true ↔ (lo <= c <= hi)%N.
Proof.
  unfold in_range. rewrite andb_true_iff, !N.leb_le. tauto.
Qed.

Lemma elem_of_js_range (lo : N) (n : nat) (c : code_unit) :
  c ∈ (λ i : nat, (lo + N.of_nat i)%N) <$> seq 0 n ↔
  (lo <= c < lo + N.of_nat n)%N.
Proof.
  rewrite list_elem_of_fmap. split.
  - intros (i & -> & Hi). apply elem_of_seq in Hi. lia.
  - intros Hc. exists (N.to_nat (c - lo)). split; [lia|].
    apply elem_of_seq. lia.
Qed.

Lemma class_a_zA_Z_spec c : class_a_zA_Z c = true ↔ latin_letter c.
Proof.
  unfold class_a_zA_Z, latin_letter.
  rewrite orb_true_iff, !in_range_spec.
  change (js "ABCDEFGHIJKLMNOPQRSTUVWXYZ")
    with ((λ i : nat, (65 + N.of_nat i)%N) <$> seq 0 26).
  change (js "abcdefghijklmnopqrstuvwxyz")
    with ((λ i : nat, (97 + N.of_nat i)%N) <$> seq 0 26).
  rewrite !elem_of_js_range. lia.
Qed.

Lemma class_0_9_spec c : class_0_9 c = true ↔ decimal_digit c.
Proof.
  unfold class_0_9, decimal_digit. rewrite in_range_spec.
  change (js "0123456789")
    with ((λ i : nat, (48 + N.of_nat i)%N) <$> seq 0 10).
  rewrite elem_of_js_range. lia.
Qed.

Lemma test_one_spec cls (P : code_unit -> Prop) k :
  (∀ c, cls c = true ↔ P c) ->
  test_one cls k = true ↔ single P k.
Proof.
  intros Hcls. unfold single. destruct k as [|c [|c' k]]; simpl.
  - split; [done|]. by intros (? & ? & _).
  - rewrite Hcls. split; [by exists c|]. by intros (? & [= <-] & ?).
  - split; [done|]. by intros (? & ? & _).
Qed.

Lemma classify_classifies k : classifies k (classify k).
Proof.
  unfold classify.
  pose proof (test_one_spec _ _ k class_a_zA_Z_spec) as Ha.
  pose proof (test_one_spec _ _ k class_0_9_spec) as Hd.
  destruct (test_one class_a_zA_Z k).
  { apply rule_alpha. by apply Ha. }
  assert (¬ single latin_letter k) as Hna by (rewrite <- Ha; done).
  destruct (test_one class_0_9 k).
  { apply rule_numeric; [done|]. by apply Hd. }
  assert (¬ single decimal_digit k) as Hnd by (rewrite <- Hd; done).
  destruct (Nat.ltb_spec 1 (length k)).
  - by apply rule_command.
  - apply rule_special; [done..|lia].
Qed.

Lemma classifies_functional k t1 t2 :
  classifies k t1 -> classifies k t2 -> t1 = t2.
Proof. destruct 1; destruct 1; done. Qed.

Lemma letter_not_digit c : latin_letter c -> decimal_digit c -> False.
Proof.
  rewrite <- class_a_zA_Z_spec, <- class_0_9_spec.
  unfold class_a_zA_Z, class_0_9.
  rewrite orb_true_iff, !in_range_spec. lia.
Qed.

Lemma single_length P k : single P k -> length k = 1%nat.
Proof. by intros (c & -> & _). Qed.

(** C2.  The classifier is total and agrees with the four-rule,
    first-match-wins reference definition: [classify k] is the one and
    only category that the rules assign to [k], for every symbol [k].
    The four cases exclude one another as they stand: a symbol is [alpha]
    exactly when it is a single Latin letter, [numeric] exactly when it
    is a single decimal digit, [command] exactly when it is longer than
    one unit, and [special] otherwise.  "Q", "7", "Enter" and "$" are
    classified [alpha], [numeric], [command] and [special]. *)
Theorem classify_total_exclusive :
  (∀ k t, classifies k t ↔ classify k = t) ∧
  (∀ k, ∃ t, classifies k t ∧ ∀ t', classifies k t' -> t' = t) ∧
  (∀ k,
     (classify k = alpha ↔ single latin_letter k) ∧
     (classify k = numeric ↔ single decimal_digit k) ∧
     (classify k = command ↔ (1 < length k)%nat) ∧
     (classify k = special ↔
        (length k <= 1)%nat ∧ ¬ single latin_letter k ∧
        ¬ single decimal_digit k)) ∧
  classify (js "Q") = alpha ∧
  classify (js "7") = numeric ∧
  classify (js "Enter") = command ∧
  classify (js "$") = special.
Proof.
  assert (∀ k t, classifies k t ↔ classify k = t) as Hiff.
  { intros k t. split.
    - intros H. exact (classifies_functional _ _ _ (classify_classifies k) H).
    - intros <-. apply classify_classifies. }
  assert (∀ k, single latin_letter k -> single decimal_digit k -> False)
    as Hdisj.
  { intros k (c & -> & Hc) (c' & [= <-] & Hc'). by eapply letter_not_digit. }
  split; [exact Hiff|]. split; [|split; [|done]].
  - intros k. exists (classify k). split; [apply classify_classifies|].
    intros t' H. by apply Hiff in H.
  - intros k. rewrite <- !Hiff. split; [|split; [|split]].
    + split; [by inversion 1|by apply rule_alpha].
    + split; [by inversion 1|].
      intros H. apply rule_numeric; [|done]. intros H'. by eapply Hdisj.
    + split; [by inversion 1|].
      intros H. apply rule_command; [| |done]; intros H';
        apply single_length in H'; lia.
    + split.
      * inversion 1. split; [lia|done].
      * intros (Hlen & Ha & Hd). apply rule_special; [done..|lia].
Qed.

(** ** The subtraction of two integral numbers *)

Lemma round_ties_even_small z : Z.abs z < 2 ^ 53 -> round_ties_even z = z.
Proof.
  intros H. unfold round_ties_even.
  by destruct (Z.ltb_spec (Z.abs z) (2 ^ 53)); [|lia].
Qed.

(** Rounding keeps the sign. *)
Lemma round_ties_even_nonneg z : 0 <= z -> 0 <= round_ties_even z.
Proof.
  intros Hz. unfold round_ties_even.
  destruct (Z.ltb_spec (Z.abs z) (2 ^ 53)) as [|Hbig]; [done|].
  cbv zeta.
  assert (0 < z) as Hpos
    by (change (2 ^ 53) with 9007199254740992 in Hbig; lia).
  rewrite (Z.sgn_pos z Hpos), Z.mul_1_l.
  set (k := Z.log2 (Z.abs z) - 52).
  assert (0 <= k).
  { unfold k. assert (53 <= Z.log2 (Z.abs z)); [|lia].
    apply Z.log2_le_pow2; lia. }
  assert (0 < 2 ^ k) by (apply Z.pow_pos_nonneg; lia).
  assert (0 <= Z.abs z / 2 ^ k) by (apply Z.div_pos; lia).
  destruct (_ || _); nonneg.
Qed.

(** A difference below [2 ^ 53] in magnitude is computed exactly. *)
Lemma minus_exact x y : Z.abs (x - y) < 2 ^ 53 -> minus x y = x - y.
Proof. apply round_ties_even_small. Qed.

Lemma minus_nonneg x y : y <= x -> 0 <= minus x y.
Proof. intros H. apply round_ties_even_nonneg. lia. Qed.

Lemma minus_window lo hi x y :
  window lo hi -> lo <= x < hi -> lo <= y < hi -> minus x y = x - y.
Proof. intros (Hlo & Hhi & Hw) Hx Hy. apply minus_exact. lia. Qed.

(** ** The interval tracker along a run *)

Lemma measured_from_snoc base es e :
  measured_from base es ->
  interval e = minus (timestamp e) (default base (timestamp <$> last es)) ->
  measured_from base (es ++ [e]).
Proof.
  revert base. induction es as [|e1 es IH]; intros base Hes He.
  - simpl in *. by rewrite He.
  - destruct Hes as [H1 Hes]. split; [done|]. apply IH; [done|].
    rewrite He. destruct es as [|e2 es]; [done|].
    rewrite last_cons_cons, (last_cons e2 es). by destruct (last es).
Qed.

Lemma measured_from_lookup base es :
  measured_from base es ->
  (∀ e0, es !! 0%nat = Some e0 -> interval e0 = minus (timestamp e0) base) ∧
  (∀ i e e', es !! i = Some e -> es !! S i = Some e' ->
     interval e' = minus (timestamp e') (timestamp e)).
Proof.
  revert base. induction es as [|e1 es IH]; intros base Hes; [done|].
  destruct Hes as [H1 Hes]. split.
  - by intros e0 [= <-].
  - destruct (IH _ Hes) as [IH0 IHS].
    intros [|i] e e' He He'; simpl in *.
    + injection He as <-. by apply IH0.
    + by apply (IHS i).
Qed.

Lemma intervals_from_lookup base es :
  intervals_from base es ->
  (∀ e0, es !! 0%nat = Some e0 -> interval e0 = timestamp e0 - base) ∧
  (∀ i e e', es !! i = Some e -> es !! S i = Some e' ->
     interval e' = timestamp e' - timestamp e).
Proof.
  revert base. induction es as [|e1 es IH]; intros base Hes; [done|].
  destruct Hes as [H1 Hes]. split.
  - by intros e0 [= <-].
  - destruct (IH _ Hes) as [IH0 IHS].
    intros [|i] e e' He He'; simpl in *.
    + injection He as <-. by apply IH0.
    + by apply (IHS i).
Qed.

(** Within a window the intervals that the handler computes are the
    differences of the time stamps. *)
Lemma measured_from_exact lo hi base es :
  window lo hi -> lo <= base < hi ->
  Forall (λ e, lo <= timestamp e < hi) es ->
  measured_from base es -> intervals_from base es.
Proof.
  intros Hw Hbase Hts. revert base Hbase.
  induction Hts as [|e es He Hes IH]; intros base Hbase Hm; [done|].
  destruct Hm as [H1 Hm]. split.
  - by rewrite H1, (minus_window lo hi).
  - by apply IH.
Qed.

Lemma handleKeyDown_recording e now rnd s :
  isRecording s = true ->
  entries (handleKeyDown e now rnd s) =
    entries s ++
    [ {| id := rnd; key := KeyboardEvent.key e; code := KeyboardEvent.code e;
         timestamp := now; interval := minus now (lastKeyTime s);
         type := classify (KeyboardEvent.key e) |} ] ∧
  lastKeyTime (handleKeyDown e now rnd s) = now ∧
  isRecording (handleKeyDown e now rnd s) = true.
Proof. intros H. unfold handleKeyDown. by rewrite H. Qed.

Lemma handleKeyDown_paused e now rnd s :
  isRecording s = false -> handleKeyDown e now rnd s = s.
Proof. intros H. unfold handleKeyDown. by rewrite H. Qed.

Lemma step_tracker_ok base s ev :
  ev ≠ ClearLogs -> tracker_ok base s -> tracker_ok base (fst (step s ev)).
Proof.
  intros Hev [Hint Hlast]. destruct ev as [e now rnd| | |c|o];
    cbn [step fst]; try done.
  - destruct (isRecording s) eqn:Hrec.
    + unfold tracker_ok.
      destruct (handleKeyDown_recording e now rnd s Hrec) as (-> & -> & _).
      split.
      * apply measured_from_snoc; [done|]. simpl. by rewrite Hlast.
      * by rewrite last_snoc.
    + by rewrite handleKeyDown_paused.
  - unfold runAnalysis. by destruct (_ <? _)%nat.
Qed.

Lemma run_snoc s evs ev :
  run s (evs ++ [ev]) = fst (step (run s evs) ev).
Proof. unfold run. by rewrite foldl_snoc. Qed.

Lemma run_app s evs1 evs2 :
  run s (evs1 ++ evs2) = run (run s evs1) evs2.
Proof. unfold run. by rewrite foldl_app. Qed.

Lemma run_tracker_ok base s evs :
  ClearLogs ∉ evs -> tracker_ok base s -> tracker_ok base (run s evs).
Proof.
  induction evs as [|ev evs IH] using rev_ind; [done|].
  rewrite not_elem_of_app, list_elem_of_singleton. intros [Hevs Hev] Hs.
  rewrite run_snoc. apply step_tracker_ok; [congruence|]. by apply IH.
Qed.

Lemma clearLogs_tracker_ok s : tracker_ok (lastKeyTime s) (clearLogs s).
Proof. done. Qed.

Lemma mount_tracker_ok t0 : tracker_ok t0 (mount t0).
Proof. done. Qed.

(** Whatever happened before, the log's intervals are counted from some
    base. *)
Lemma run_tracker_ok_ex t0 evs :
  ∃ base, tracker_ok base (run (mount t0) evs).
Proof.
  induction evs as [|ev evs [base IH]] using rev_ind.
  - exists t0. apply mount_tracker_ok.
  - rewrite run_snoc.
    destruct ev; try (exists base; by apply step_tracker_ok).
    eexists. apply clearLogs_tracker_ok.
Qed.

(** The tracker holds the clock value of the newest recorded key event. *)
Lemma run_lastKeyTime s evs :
  lastKeyTime (run s evs) =
  default (lastKeyTime s) (last (recorded (isRecording s) evs)).
Proof.
  revert s. induction evs as [|ev evs IH]; intros s; [done|].
  change (run s (ev :: evs)) with (run (fst (step s ev)) evs).
  rewrite IH. destruct ev as [e now rnd| | |c|o]; cbn [step fst recorded];
    try done.
  - destruct (isRecording s) eqn:Hrec.
    + destruct (handleKeyDown_recording e now rnd s Hrec) as (_ & -> & ->).
      destruct (recorded true evs) as [|t ts] eqn:Hts; [done|].
      rewrite last_cons_cons, (last_cons t ts). by destruct (last ts).
    + by rewrite handleKeyDown_paused, Hrec.
  - unfold runAnalysis. by destruct (_ <? _)%nat.
Qed.

(** While the clock stays within a range, so do the tracker, the base
    of the log and the time stamps of its entries. *)
Lemma run_tracker_bounded lo hi t0 evs :
  lo <= t0 < hi ->
  Forall (λ t, lo <= t < hi) (clock_readings evs) ->
  ∃ base, tracker_ok base (run (mount t0) evs) ∧ lo <= base < hi ∧
          lo <= lastKeyTime (run (mount t0) evs) < hi ∧
          Forall (λ e, lo <= timestamp e < hi) (entries (run (mount t0) evs)).
Proof.
  intros Ht0. induction evs as [|ev evs IH] using rev_ind; intros Hclock.
  { exists t0. split; [apply mount_tracker_ok|].
    split; [done|]. split; [done|]. constructor. }
  unfold clock_readings in Hclock. rewrite omap_app in Hclock.
  apply Forall_app in Hclock as [Hevs Hev].
  destruct (IH Hevs) as (base & Hok & Hbase & Hlast & Hts).
  rewrite run_snoc.
  destruct ev as [e now rnd| | |c|o]; cbn [step fst].
  - exists base.
    split; [by apply (step_tracker_ok base _ (KeyDown e now rnd))|].
    split; [done|].
    assert (lo <= now < hi) as Hnow by (by inversion Hev).
    destruct (isRecording (run (mount t0) evs)) eqn:Hrec.
    + destruct (handleKeyDown_recording e now rnd _ Hrec) as (-> & -> & _).
      split; [done|]. apply Forall_app. split; [done|].
      by apply Forall_singleton.
    + by rewrite handleKeyDown_paused.
  - exists base.
    split; [by apply (step_tracker_ok base _ ToggleRecording)|done].
  - exists (lastKeyTime (run (mount t0) evs)).
    split; [apply clearLogs_tracker_ok|].
    split; [done|]. split; [done|]. constructor.
  - exists base. split; [by apply (step_tracker_ok base _ (RunAnalysis c))|].
    unfold runAnalysis.
    by destruct (length (entries (run (mount t0) evs)) <? 5)%nat.
  - exists base.
    split; [by apply (step_tracker_ok base _ (AnalysisSettled o))|done].
Qed.

(** While the clock stays within a window, the intervals of the log are
    the differences of its time stamps, counted from some base in the
    window, which is the mount time when the log was never cleared. *)
Lemma run_intervals_from lo hi t0 evs :
  window lo hi -> lo <= t0 < hi ->
  Forall (λ t, lo <= t < hi) (clock_readings evs) ->
  (∃ base, lo <= base < hi ∧
           intervals_from base (entries (run (mount t0) evs))) ∧
  (ClearLogs ∉ evs -> intervals_from t0 (entries (run (mount t0) evs))).
Proof.
  intros Hw Ht0 Hclock.
  destruct (run_tracker_bounded lo hi t0 evs Ht0 Hclock)
    as (base & [Hint _] & Hbase & _ & Hts).
  split.
  - exists base. split; [done|]. by apply (measured_from_exact lo hi).
  - intros Hclear.
    destruct (run_tracker_ok t0 (mount t0) evs Hclear (mount_tracker_ok t0))
      as [Hint0 _].
    by apply (measured_from_exact lo hi).
Qed.

(** ** Intervals of the session log *)

(** C1, as stated, fails in two ways.  After a clear the first interval
    is not counted from the start of the capture: mount at 1000 ms, a
    key at 1300 ms, a clear, a key at 1900 ms give a log of one entry,
    stamped 1900, whose interval is 600 (counted from the key at 1300)
    and not 1900 - 1000.  And the difference is the one of two numbers,
    which is rounded when the readings are [2 ^ 53] ms or more apart:
    mounted at the earliest time value, -8640000000000000, a key at
    8639999999999999 is stored with the interval 17280000000000000, one
    more than the difference of the two, and so is a key that follows
    one at the earliest time value. *)
Lemma first_interval_after_clear :
  let s := run (mount 1000)
    [KeyDown (press "a" "KeyA") 1300 []; ClearLogs;
     KeyDown (press "b" "KeyB") 1900 []] in
  (timestamp <$> entries s = [1900] ∧
   interval <$> entries s = [600] ∧
   ¬ (∀ e0, entries s !! 0%nat = Some e0 ->
            interval e0 = timestamp e0 - 1000)) ∧
  let far := run (mount (-8640000000000000))
    [KeyDown (press "a" "KeyA") 8639999999999999 []] in
  (timestamp <$> entries far = [8639999999999999] ∧
   interval <$> entries far = [17280000000000000] ∧
   ¬ (∀ e0, entries far !! 0%nat = Some e0 ->
            interval e0 = timestamp e0 - -8640000000000000)) ∧
  let apart := run (mount (-8640000000000000))
    [KeyDown (press "a" "KeyA") (-8640000000000000) [];
     KeyDown (press "b" "KeyB") 8639999999999999 []] in
  timestamp <$> entries apart = [-8640000000000000; 8639999999999999] ∧
  interval <$> entries apart = [0; 17280000000000000] ∧
  ¬ (∀ i e e', entries apart !! i = Some e ->
               entries apart !! S i = Some e' ->
               interval e' = timestamp e' - timestamp e).
Proof.
  split; [|split].
  - split; [done|]. split; [done|].
    intros H. specialize (H _ eq_refl). done.
  - split; [done|]. split; [done|].
    intros H. specialize (H _ eq_refl). done.
  - split; [done|]. split; [done|].
    intros H. specialize (H 0%nat _ _ eq_refl eq_refl). done.
Qed.

(** C1, amended.  In every log that the pipeline produces, the interval
    of each entry after the first is its time stamp minus the time stamp
    of the entry before it, as the subtraction of numbers gives it; and
    as long as the log has never been cleared, the interval of entry 0
    is in the same way its time stamp minus the time at which the
    component was mounted.  These are the exact differences whenever the
    clock readings, the one of the mount included, are time values less
    than [2 ^ 53] ms apart from one another. *)
Theorem intervals_are_deltas (t0 : Z) (evs : list Event) :
  let log := entries (run (mount t0) evs) in
  ((∀ i e e', log !! i = Some e -> log !! S i = Some e' ->
      interval e' = minus (timestamp e') (timestamp e)) ∧
   (ClearLogs ∉ evs ->
    ∀ e0, log !! 0%nat = Some e0 -> interval e0 = minus (timestamp e0) t0)) ∧
  (∀ lo hi,
     window lo hi -> lo <= t0 < hi ->
     Forall (λ t, lo <= t < hi) (clock_readings evs) ->
     (∀ i e e', log !! i = Some e -> log !! S i = Some e' ->
        interval e' = timestamp e' - timestamp e) ∧
     (ClearLogs ∉ evs ->
      ∀ e0, log !! 0%nat = Some e0 -> interval e0 = timestamp e0 - t0)).
Proof.
  split; [split|].
  - destruct (run_tracker_ok_ex t0 evs) as [base [Hint _]].
    by apply (measured_from_lookup base).
  - intros Hclear.
    destruct (run_tracker_ok t0 (mount t0) evs Hclear (mount_tracker_ok t0))
      as [Hint _].
    by apply (measured_from_lookup t0).
  - intros lo hi Hw Ht0 Hclock.
    destruct (run_intervals_from lo hi t0 evs Hw Ht0 Hclock)
      as [(base & _ & Hint) Hfirst].
    split.
    + by apply (intervals_from_lookup base).
    + intros Hclear. by apply (intervals_from_lookup t0), Hfirst.
Qed.

Lemma intervals_are_deltas_witness :
  let evs := [KeyDown (press "a" "KeyA") 1000 []; ToggleRecording;
              KeyDown (press "x" "KeyX") 1100 []; ToggleRecording;
              KeyDown (press "b" "KeyB") 1300 []; RunAnalysis true;
              KeyDown (press "c" "KeyC") 1900 []] in
  let log := entries (run (mount 1000) evs) in
  interval <$> log = [0; 300; 600] ∧
  (∀ i e e', log !! i = Some e -> log !! S i = Some e' ->
     interval e' = timestamp e' - timestamp e) ∧
  (∀ e0, log !! 0%nat = Some e0 -> interval e0 = timestamp e0 - 1000).
Proof.
  intros evs log. split; [done|].
  destruct (proj2 (intervals_are_deltas 1000 evs) 0 (2 ^ 53))
    as [Hsucc Hfirst].
  - unfold window. lia.
  - lia.
  - unfold evs. simpl. repeat constructor; lia.
  - split; [exact Hsucc|]. apply Hfirst.
    unfold evs. rewrite !not_elem_of_cons. repeat split; try done.
    apply not_elem_of_nil.
Defined.

(** C10.  [clearLogs] changes the entries and the held analysis result
    and nothing else: the tracker, the recording flag and the in-flight
    flag are kept.  Hence the first entry of the log after a clear has
    its interval counted from the newest key event recorded before the
    clear, or from the mount when there is none: it is the time stamp of
    the entry minus that reading, as the subtraction of numbers gives
    it, which is their exact difference while the clock readings are
    time values less than [2 ^ 53] ms apart. *)
Theorem clearLogs_keeps_tracker :
  (∀ s, entries (clearLogs s) = [] ∧ analysis (clearLogs s) = None ∧
        lastKeyTime (clearLogs s) = lastKeyTime s ∧
        isRecording (clearLogs s) = isRecording s ∧
        isAnalyzing (clearLogs s) = isAnalyzing s) ∧
  (∀ t0 pre post e0,
     ClearLogs ∉ post ->
     entries (run (mount t0) (pre ++ ClearLogs :: post)) !! 0%nat = Some e0 ->
     interval e0 =
       minus (timestamp e0) (default t0 (last (recorded true pre)))) ∧
  (∀ lo hi t0 pre post e0,
     window lo hi -> lo <= t0 < hi ->
     Forall (λ t, lo <= t < hi) (clock_readings (pre ++ ClearLogs :: post)) ->
     ClearLogs ∉ post ->
     entries (run (mount t0) (pre ++ ClearLogs :: post)) !! 0%nat = Some e0 ->
     interval e0 = timestamp e0 - default t0 (last (recorded true pre))).
Proof.
  assert (∀ t0 pre post e0,
     ClearLogs ∉ post ->
     entries (run (mount t0) (pre ++ ClearLogs :: post)) !! 0%nat = Some e0 ->
     interval e0 =
       minus (timestamp e0) (default t0 (last (recorded true pre))))
    as Hmeasured.
  { intros t0 pre post e0 Hpost He0.
    rewrite run_app in He0.
    change (run (run (mount t0) pre) (ClearLogs :: post))
      with (run (clearLogs (run (mount t0) pre)) post) in He0.
    destruct (run_tracker_ok _ _ post Hpost
                (clearLogs_tracker_ok (run (mount t0) pre))) as [Hint _].
    rewrite (proj1 (measured_from_lookup _ _ Hint) e0 He0).
    by rewrite (run_lastKeyTime (mount t0) pre). }
  split; [done|]. split; [exact Hmeasured|].
  intros lo hi t0 pre post e0 Hw Ht0 Hclock Hpost He0.
  rewrite (Hmeasured t0 pre post e0 Hpost He0).
  apply (minus_window lo hi); [done| |].
  - destruct (run_tracker_bounded lo hi t0 _ Ht0 Hclock)
      as (_ & _ & _ & _ & Hts).
    rewrite Forall_forall in Hts. apply Hts.
    by apply (list_elem_of_lookup_2 _ 0%nat).
  - unfold clock_readings in Hclock. rewrite omap_app in Hclock.
    apply Forall_app in Hclock as [Hpre _].
    destruct (run_tracker_bounded lo hi t0 pre Ht0 Hpre)
      as (_ & _ & _ & Hlast & _).
    by rewrite (run_lastKeyTime (mount t0) pre) in Hlast.
Qed.

Lemma clearLogs_keeps_tracker_witness :
  let pre := [KeyDown (press "a" "KeyA") 1300 []] in
  let post := [ToggleRecording; KeyDown (press "x" "KeyX") 1500 [];
               ToggleRecording; KeyDown (press "b" "KeyB") 1900 []] in
  let e0 := {| id := []; key := js "b"; code := js "KeyB"; timestamp := 1900;
               interval := 600; type := alpha |} in
  entries (run (mount 1000) (pre ++ ClearLogs :: post)) = [e0] ∧
  interval e0 = timestamp e0 - 1300.
Proof.
  intros pre post e0. split; [done|].
  apply (proj2 (proj2 clearLogs_keeps_tracker) 0 (2 ^ 53) 1000 pre post e0).
  - unfold window. lia.
  - lia.
  - simpl. repeat constructor; lia.
  - unfold post. rewrite !not_elem_of_cons. repeat split; try done.
    apply not_elem_of_nil.
  - done.
Defined.

(** ** Sign of the stored intervals *)

(** C4, as stated, fails: the handler stores [now - lastKeyTime] as it
    is.  Mounted at 1000 ms, a key event for which the clock reads 900 ms
    is stored with the interval -100. *)
Lemma negative_interval_stored :
  let s := run (mount 1000) [KeyDown (press "a" "KeyA") 900 []] in
  interval <$> entries s = [-100] ∧
  ¬ (∀ e, e ∈ entries s -> 0 <= interval e).
Proof.
  split; [done|]. intros H.
  pose proof (H _ (list_elem_of_here _ [])) as Hneg. simpl in Hneg.
  vm_compute in Hneg. by apply Hneg.
Qed.

Lemma run_intervals_nonneg s t evs :
  Forall (λ e, 0 <= interval e) (entries s) ->
  lastKeyTime s <= t ->
  monotonic_from t (clock_readings evs) ->
  Forall (λ e, 0 <= interval e) (entries (run s evs)).
Proof.
  revert s t. induction evs as [|ev evs IH]; intros s t Hs Hlast Hmono;
    [done|].
  change (run s (ev :: evs)) with (run (fst (step s ev)) evs).
  destruct ev as [e now rnd| | |c|o]; cbn [step fst].
  - destruct Hmono as [Hnow Hmono].
    apply (IH _ now); [| |done].
    + destruct (isRecording s) eqn:Hrec.
      * destruct (handleKeyDown_recording e now rnd s Hrec) as (-> & _).
        apply Forall_app. split; [done|].
        apply Forall_singleton. simpl. apply minus_nonneg. lia.
      * by rewrite handleKeyDown_paused.
    + destruct (isRecording s) eqn:Hrec.
      * by destruct (handleKeyDown_recording e now rnd s Hrec) as (_ & -> & _).
      * rewrite handleKeyDown_paused; [lia|done].
  - by apply (IH _ t).
  - apply (IH _ t); [by apply Forall_nil|done..].
  - apply (IH _ t); unfold runAnalysis;
      by destruct (length (entries s) <? 5)%nat.
  - by apply (IH _ t).
Qed.

(** C4, amended.  The handler neither clamps nor flags: the stored
    interval is the raw difference of two clock readings.  It is
    non-negative in every stored entry provided the clock never runs
    backwards, that is, provided the readings taken at the key events
    are non-decreasing from the mount time on. *)
Theorem intervals_nonneg_monotonic_clock (t0 : Z) (evs : list Event) :
  monotonic_from t0 (clock_readings evs) ->
  ∀ e, e ∈ entries (run (mount t0) evs) -> 0 <= interval e.
Proof.
  intros Hmono. apply Forall_forall.
  apply (run_intervals_nonneg (mount t0) t0); [apply Forall_nil| |]; done.
Qed.

Lemma intervals_nonneg_monotonic_clock_witness :
  let evs := [KeyDown (press "a" "KeyA") 1000 []; ClearLogs;
              KeyDown (press "b" "KeyB") 1300 []; ToggleRecording;
              KeyDown (press "x" "KeyX") 1300 []; ToggleRecording;
              KeyDown (press "c" "KeyC") 1900 []] in
  interval <$> entries (run (mount 1000) evs) = [300; 600] ∧
  ∀ e, e ∈ entries (run (mount 1000) evs) -> 0 <= interval e.
Proof.
  intros evs. split; [done|].
  apply (intervals_nonneg_monotonic_clock 1000 evs).
  simpl. lia.
Defined.

(** ** The analysis trigger *)

Lemma length_timings es :
  length (timings (extract es)) = (length es `min` 50)%nat.
Proof. simpl. rewrite length_take, length_fmap. lia. Qed.

(** C6.  With fewer than five entries in the log, [runAnalysis] returns
    at once: it sends no request and the state is the one it was called
    in.  Consequently every request ever sent was built from a log of at
    least five entries. *)
Theorem runAnalysis_needs_five :
  (∀ client s,
     (length (entries s) < 5)%nat -> runAnalysis client s = (s, [])) ∧
  (∀ s evs p, p ∈ requests s evs -> (5 <= length (timings p))%nat).
Proof.
  split.
  - intros client s Hlen. unfold runAnalysis.
    destruct (Nat.ltb_spec (length (entries s)) 5); [done|lia].
  - intros s evs. revert s. induction evs as [|ev evs IH]; intros s p Hp.
    + by apply elem_of_nil in Hp.
    + simpl in Hp. apply elem_of_app in Hp as [Hp|Hp]; [|by eapply IH].
      destruct ev; simpl in Hp; try by apply elem_of_nil in Hp.
      unfold runAnalysis in Hp.
      destruct (Nat.ltb_spec (length (entries s)) 5) as [Hlt|Hge];
        simpl in Hp; [by apply elem_of_nil in Hp|].
      destruct client; [|by apply elem_of_nil in Hp].
      apply list_elem_of_singleton in Hp as ->.
      rewrite length_timings. lia.
Qed.

Lemma runAnalysis_needs_five_witness :
  let s := run (mount 1000)
    [KeyDown (press "a" "KeyA") 1100 []; KeyDown (press "b" "KeyB") 1200 [];
     KeyDown (press "c" "KeyC") 1300 []; KeyDown (press "d" "KeyD") 1400 []] in
  length (entries s) = 4%nat ∧
  runAnalysis true s = (s, []) ∧ runAnalysis false s = (s, []).
Proof.
  intros s. split; [done|].
  split; apply (proj1 runAnalysis_needs_five _ s); simpl; lia.
Defined.

(** ** The analysis payload *)

Lemma length_sequence es :
  length (sequence (extract es)) = sum_list (length ∘ key <$> es).
Proof.
  change (length (concat (key <$> es)) = sum_list (length ∘ key <$> es)).
  induction es as [|e es IH]; [done|].
  rewrite !fmap_cons. cbn [concat sum_list sum_list_with].
  by rewrite length_app, IH.
Qed.

(** C3, as stated, fails in its last part: a key event whose symbol is a
    named key contributes the whole name to the sequence.  After the
    single key "Enter" the log has one entry and the sequence has
    length five. *)
Lemma sequence_longer_than_log :
  let log := entries (run (mount 1000)
                        [KeyDown (press "Enter" "Enter") 1100 []]) in
  sequence (extract log) = js "Enter" ∧
  length (sequence (extract log)) = 5%nat ∧
  length log = 1%nat ∧
  length (sequence (extract log)) ≠ length log.
Proof. done. Qed.

(** C3, amended.  For every log, the timings of the payload are the
    intervals of the first 50 entries, in order, hence at most 50 values;
    the sequence is the concatenation of every entry's key in order, with
    nothing between the keys and nothing cut off.  Its length is the sum
    of the lengths of the keys; it is the number of entries when every
    key is a single unit. *)
Theorem extract_payload (es : list KeyEntry) :
  (length (timings (extract es)) <= 50)%nat ∧
  timings (extract es) = interval <$> take 50 es ∧
  sequence (extract es) = foldr (λ e acc, key e ++ acc) [] es ∧
  length (sequence (extract es)) = sum_list (length ∘ key <$> es) ∧
  (Forall (λ e, length (key e) = 1%nat) es ->
   length (sequence (extract es)) = length es).
Proof.
  split; [rewrite length_timings; lia|].
  split; [simpl; by rewrite fmap_take|].
  split.
  { change (concat (key <$> es) = foldr (λ e acc, key e ++ acc) [] es).
    induction es as [|e es IH]; [done|].
    rewrite fmap_cons. cbn [concat foldr]. by rewrite IH. }
  split; [apply length_sequence|].
  intros Hone. rewrite length_sequence.
  induction Hone as [|e es He _ IH]; [done|].
  rewrite fmap_cons. cbn [sum_list sum_list_with length compose].
  by rewrite He, IH.
Qed.

Lemma extract_payload_witness :
  let es := (λ i, entry_of "k" (1000 + i) 1) <$> seqZ 0 60 in
  length es = 60%nat ∧
  length (timings (extract es)) = 50%nat ∧
  length (sequence (extract es)) = length es.
Proof.
  intros es. split; [done|]. split; [done|].
  apply (extract_payload es).
  unfold es. apply Forall_fmap, Forall_forall. done.
Defined.

(** ** Binary64 arithmetic on integers *)

(** *** Digits, shifts and the two rounding steps *)

(** A positive number of [d] binary digits lies in [[2 ^ (d - 1), 2 ^ d)]. *)
Lemma digits2_pos_bounds p :
  2 ^ (Zpos (digits2_pos p) - 1) <= Zpos p < 2 ^ Zpos (digits2_pos p).
Proof.
  induction p as [p IH|p IH|]; cbn [digits2_pos]; [| |simpl; lia];
    set (d := Zpos (digits2_pos p)) in *;
    rewrite Pos2Z.inj_succ; fold d;
    replace (Z.succ d - 1) with (Z.succ (d - 1)) by lia;
    rewrite !Z.pow_succ_r by lia; lia.
Qed.

Lemma digits2_pos_unique p d :
  2 ^ (d - 1) <= Zpos p < 2 ^ d -> Zpos (digits2_pos p) = d.
Proof.
  intros [Hlo Hhi]. pose proof (digits2_pos_bounds p) as [Hlo' Hhi'].
  assert (0 < d) as Hd.
  { destruct (Z.lt_ge_cases 0 d); [done|].
    rewrite Z.pow_neg_r in Hlo by lia.
    destruct (Z.eq_dec d 0) as [->|]; [simpl in Hhi; lia|].
    rewrite Z.pow_neg_r in Hhi by lia. lia. }
  set (d' := Zpos (digits2_pos p)) in *.
  destruct (Z.lt_trichotomy d' d) as [Hlt|[Heq|Hgt]]; [|done|].
  - assert (2 ^ d' <= 2 ^ (d - 1)) by (apply Z.pow_le_mono_r; lia). lia.
  - assert (2 ^ d <= 2 ^ (d' - 1)) by (apply Z.pow_le_mono_r; lia). lia.
Qed.

Lemma pos_iter_xO p d : Zpos (Pos.iter xO p d) = Zpos p * 2 ^ Zpos d.
Proof.
  induction d as [|d IH] using Pos.peano_ind.
  - simpl. lia.
  - rewrite Pos.iter_succ, Pos2Z.inj_xO, IH, Pos2Z.inj_succ.
    rewrite Z.pow_succ_r by lia. lia.
Qed.

(** The exponent of the last place, away from the subnormal range. *)
Lemma fexp_normal e : -1074 <= e - 53 -> fexp prec emax e = e - 53.
Proof. unfold fexp, emin, prec, emax. lia. Qed.

Lemma shr_fexp_53 p e l :
  2 ^ 52 <= Zpos p < 2 ^ 53 -> -1074 <= e ->
  shr_fexp prec emax (Zpos p) e l = (shr_record_of_loc (Zpos p) l, e).
Proof.
  intros Hp He. unfold shr_fexp. cbn [Zdigits2].
  rewrite (digits2_pos_unique p 53) by done.
  rewrite fexp_normal by lia.
  replace (53 + e - 53 - e) with 0 by lia. done.
Qed.

Lemma shr_fexp_54 p e l :
  2 ^ 53 <= Zpos p < 2 ^ 54 -> -1074 <= e ->
  shr_fexp prec emax (Zpos p) e l =
  (shr_1 (shr_record_of_loc (Zpos p) l), e + 1).
Proof.
  intros Hp He. unfold shr_fexp. cbn [Zdigits2].
  rewrite (digits2_pos_unique p 54) by done.
  rewrite fexp_normal by lia.
  replace (54 + e - 53 - e) with 1 by lia. done.
Qed.

(** The second step of [binary_round_aux], on a rounded mantissa. *)
Lemma round_finish s m1 e :
  2 ^ 52 <= m1 <= 2 ^ 53 -> -1074 <= e <= 969 ->
  (let '(mrs, e') := shr_fexp prec emax m1 e loc_Exact in
   match shr_m mrs with
   | Z0 => S754_zero s
   | Zpos m =>
       if e' <=? emax - prec then S754_finite s m e' else S754_infinity s
   | Zneg _ => S754_nan
   end) = finish s m1 e.
Proof.
  intros Hm He. unfold finish.
  destruct (Z.eqb_spec m1 (2 ^ 53)) as [->|Hne].
  - change (2 ^ 53) with (Zpos (2 ^ 53)%positive).
    rewrite shr_fexp_54 by lia.
    cbn [shr_record_of_loc shr_1 shr_m].
    destruct (Z.leb_spec (e + 1) (emax - prec)) as [_|H]; [done|].
    unfold emax, prec in H. lia.
  - destruct m1 as [|p|p]; try lia.
    rewrite shr_fexp_53 by lia.
    cbn [shr_record_of_loc shr_m].
    destruct (Z.leb_spec e (emax - prec)) as [_|H]; [done|].
    unfold emax, prec in H. lia.
Qed.

Lemma loc_of_shr_record_of_loc m l :
  loc_of_shr_record (shr_record_of_loc m l) = l.
Proof. by destruct l as [|[]]. Qed.

Lemma round_nearest_even_bounds m l :
  m <= round_nearest_even m l <= m + 1.
Proof.
  destruct l as [|[]]; cbn [round_nearest_even]; try lia.
  destruct (Z.even m); lia.
Qed.

(** [binary_round_aux] on a mantissa of 53 digits, and of 54 digits. *)
Lemma binary_round_aux_53 s p e l :
  2 ^ 52 <= Zpos p < 2 ^ 53 -> -1074 <= e <= 969 ->
  binary_round_aux prec emax s (Zpos p) e l =
  finish s (round_nearest_even (Zpos p) l) e.
Proof.
  intros Hp He. unfold binary_round_aux.
  rewrite shr_fexp_53 by lia.
  cbn [shr_m]. rewrite loc_of_shr_record_of_loc.
  replace (shr_m (shr_record_of_loc (Zpos p) l)) with (Zpos p)
    by (by destruct l as [|[]]).
  apply round_finish; [|done].
  pose proof (round_nearest_even_bounds (Zpos p) l). lia.
Qed.

Lemma shr_m_shr_1 m l : 0 <= m ->
  shr_m (shr_1 (shr_record_of_loc m l)) = m / 2.
Proof.
  intros Hm.
  assert (shr_m (shr_1 (shr_record_of_loc m l)) = Z.div2 m) as ->.
  { destruct l as [|[]]; destruct m as [|[p|p|]|p]; done. }
  apply Z.div2_div.
Qed.

Lemma binary_round_aux_54 s p e l :
  2 ^ 53 <= Zpos p < 2 ^ 54 -> -1074 <= e <= 968 ->
  binary_round_aux prec emax s (Zpos p) e l =
  let mrs := shr_1 (shr_record_of_loc (Zpos p) l) in
  finish s (round_nearest_even (shr_m mrs) (loc_of_shr_record mrs)) (e + 1).
Proof.
  intros Hp He. unfold binary_round_aux.
  rewrite shr_fexp_54 by lia.
  apply round_finish; [|lia].
  set (mrs := shr_1 (shr_record_of_loc (Zpos p) l)).
  pose proof (round_nearest_even_bounds (shr_m mrs) (loc_of_shr_record mrs))
    as H.
  subst mrs. rewrite shr_m_shr_1 in * by lia.
  assert (2 ^ 52 <= Zpos p / 2) by (apply Z.div_le_lower_bound; lia).
  assert (Zpos p / 2 < 2 ^ 53) by (apply Z.div_lt_upper_bound; lia).
  lia.
Qed.

(** The location computed by the division is that of the remainder. *)
Lemma new_location_spec b r :
  0 < b -> 0 <= r -> new_location b r = location_of b r.
Proof.
  intros Hb Hr.
  unfold new_location, new_location_even, new_location_odd, location_of.
  destruct (Z.even b) eqn:Heven; [done|].
  destruct (Z.eqb_spec r 0); [done|]. f_equal.
  assert (Z.odd b = true) as Hodd by (by rewrite <- Z.negb_even, Heven).
  apply Z.odd_spec in Hodd as [k ->].
  destruct (Z.compare_spec (2 * r + 1) (2 * k + 1));
    destruct (Z.compare_spec (2 * r) (2 * k + 1)); lia || done.
Qed.

(** Rounding a quotient [q + r / b] that has 53 digits. *)
Lemma round_quotient_53 q b r :
  0 < b -> 0 <= r < b ->
  let m1 := round_nearest_even q (location_of b r) in
  (2 * m1 - 1) * b <= 2 * (q * b + r) <= (2 * m1 + 1) * b.
Proof.
  intros Hb Hr. unfold location_of.
  destruct (Z.eqb_spec r 0) as [->|Hr0]; cbn [round_nearest_even]; [lia|].
  destruct (Z.compare_spec (2 * r) b); cbn [round_nearest_even]; [|nia..].
  destruct (Z.even q); nia.
Qed.

(** Rounding a quotient [q + r / b] that has 54 digits: one bit is
    shifted out first. *)
Lemma round_quotient_54 q b r :
  0 < q -> 0 < b -> 0 <= r < b ->
  let mrs := shr_1 (shr_record_of_loc q (location_of b r)) in
  let m1 := round_nearest_even (shr_m mrs) (loc_of_shr_record mrs) in
  (2 * m1 - 1) * b <= q * b + r <= (2 * m1 + 1) * b.
Proof.
  intros Hq Hb Hr. unfold location_of.
  destruct q as [|p|p]; [lia| |lia].
  destruct (Z.eqb_spec r 0) as [->|Hr0].
  - destruct p as [p|p|]; cbn; [|nia|nia].
    destruct p as [p|p|]; cbn; nia.
  - destruct (Z.compare_spec (2 * r) b);
      destruct p as [p|p|]; cbn; nia.
Qed.

(** *** Integers as numbers *)

Lemma mant_spec p :
  Zpos p < 2 ^ 53 ->
  Zpos (mant p) = Zpos p * 2 ^ (53 - Zpos (digits2_pos p)) ∧
  2 ^ 52 <= Zpos (mant p) < 2 ^ 53 ∧ -52 <= expo p <= 0.
Proof.
  intros Hp. pose proof (digits2_pos_bounds p) as [Hlo Hhi].
  set (d := Zpos (digits2_pos p)) in *.
  assert (0 < d) as Hd0 by done.
  assert (d <= 53) as Hd.
  { destruct (Z.le_gt_cases d 53); [done|].
    assert (2 ^ 53 <= 2 ^ (d - 1)) by (apply Z.pow_le_mono_r; lia). lia. }
  assert (0 < 2 ^ (53 - d)) as Hpow by (apply Z.pow_pos_nonneg; lia).
  unfold mant, expo. fold d. rewrite Z2Pos.id by lia.
  split; [done|]. split; [|lia]. split.
  - replace (2 ^ 52) with (2 ^ (d - 1) * 2 ^ (53 - d)).
    + apply Z.mul_le_mono_nonneg_r; lia.
    + rewrite <- Z.pow_add_r by lia. f_equal. lia.
  - replace (2 ^ 53) with (2 ^ d * 2 ^ (53 - d)).
    + apply Z.mul_lt_mono_pos_r; lia.
    + rewrite <- Z.pow_add_r by lia. f_equal. lia.
Qed.

(** An integer below [2 ^ 53] is represented exactly. *)
Lemma binary_round_small s p :
  Zpos p < 2 ^ 53 ->
  binary_round prec emax s p 0 = S754_finite s (mant p) (expo p).
Proof.
  intros Hp. destruct (mant_spec p Hp) as (Hm & Hmb & He).
  unfold binary_round.
  assert (shl_align p 0 (fexp prec emax (Z.pos (digits2_pos p) + 0)) =
          (mant p, expo p)) as ->.
  { rewrite fexp_normal by (unfold expo in He; lia).
    unfold shl_align. fold (expo p).
    replace (Z.pos (digits2_pos p) + 0 - 53 - 0) with (expo p)
      by (unfold expo; lia).
    destruct (expo p) as [|e|e] eqn:Hexpo; [|lia|].
    - f_equal. apply Pos2Z.inj. rewrite Hm.
      unfold expo in Hexpo.
      replace (53 - Z.pos (digits2_pos p)) with 0 by lia. lia.
    - unfold expo in Hexpo. f_equal; [|lia].
      apply Pos2Z.inj. rewrite Hm, pos_iter_xO. f_equal. f_equal. lia. }
  rewrite binary_round_aux_53 by lia.
  cbn [round_nearest_even]. unfold finish.
  destruct (Z.eqb_spec (Zpos (mant p)) (2 ^ 53)); [lia|done].
Qed.

Lemma of_int_pos p :
  Zpos p < 2 ^ 53 -> of_int (Zpos p) = S754_finite false (mant p) (expo p).
Proof. apply binary_round_small. Qed.

Lemma of_int_neg p :
  Zpos p < 2 ^ 53 -> of_int (Zneg p) = S754_finite true (mant p) (expo p).
Proof. apply binary_round_small. Qed.

(** *** Sums and differences of integers *)

Lemma shr_1_double m :
  0 < m ->
  shr_1 {| shr_m := 2 * m; shr_r := false; shr_s := false |} =
  {| shr_m := m; shr_r := false; shr_s := false |}.
Proof. intros Hm. by destruct m. Qed.

(** Shifting out [n] zero bits is exact. *)
Lemma iter_shr_1_exact n m :
  0 < m ->
  SpecFloat.iter_pos shr_1 n
    {| shr_m := m * 2 ^ Zpos n; shr_r := false; shr_s := false |} =
  {| shr_m := m; shr_r := false; shr_s := false |}.
Proof.
  revert m.
  induction n as [n IH|n IH|]; intros m Hm; cbn [SpecFloat.iter_pos].
  - rewrite (Pos2Z.inj_xI n).
    replace (m * 2 ^ (2 * Zpos n + 1))
      with (2 * (m * 2 ^ Zpos n * 2 ^ Zpos n)).
    2:{ rewrite Z.pow_add_r, Z.pow_1_r by lia.
        replace (2 * Zpos n) with (Zpos n + Zpos n) by lia.
        rewrite Z.pow_add_r by lia. ring. }
    assert (0 < 2 ^ Zpos n) by (apply Z.pow_pos_nonneg; lia).
    rewrite shr_1_double by nia. rewrite IH by nia. by apply IH.
  - rewrite (Pos2Z.inj_xO n).
    replace (m * 2 ^ (2 * Zpos n)) with (m * 2 ^ Zpos n * 2 ^ Zpos n).
    2:{ replace (2 * Zpos n) with (Zpos n + Zpos n) by lia.
        rewrite Z.pow_add_r by lia. ring. }
    assert (0 < 2 ^ Zpos n) by (apply Z.pow_pos_nonneg; lia).
    rewrite IH by nia. by apply IH.
  - rewrite Z.pow_1_r, (Z.mul_comm m 2). by apply shr_1_double.
Qed.

(** Rounding [q * 2 ^ (- e)] at exponent [e] gives back the integer [q],
    whatever the representation. *)
Lemma binary_round_exact s p e q :
  -1000 <= e <= 0 -> Zpos q < 2 ^ 53 -> Zpos p = Zpos q * 2 ^ (- e) ->
  binary_round prec emax s p e = S754_finite s (mant q) (expo q).
Proof.
  intros He Hq Hp. destruct (mant_spec q Hq) as (Hm & Hmb & Hexpo).
  pose proof (digits2_pos_bounds q) as [Hlo Hhi].
  set (D := Zpos (digits2_pos q)) in *.
  assert (0 < 2 ^ (- e)) as Hpow by (apply Z.pow_pos_nonneg; lia).
  assert (Zpos (digits2_pos p) = D - e) as Hdp.
  { apply digits2_pos_unique. rewrite Hp. split.
    - replace (D - e - 1) with ((D - 1) + (- e)) by lia.
      rewrite Z.pow_add_r by lia. nia.
    - replace (D - e) with (D + (- e)) by lia.
      rewrite Z.pow_add_r by lia. nia. }
  unfold binary_round. rewrite Hdp.
  replace (D - e + e) with D by lia.
  unfold expo in *. fold D in Hexpo, Hm |- *.
  rewrite fexp_normal by lia.
  unfold shl_align.
  destruct (D - 53 - e) as [|n|n] eqn:Hn.
  - (* the mantissa already has 53 digits *)
    assert (p = mant q) as ->.
    { apply Pos2Z.inj. rewrite Hp, Hm. f_equal. f_equal. lia. }
    rewrite binary_round_aux_53 by lia.
    cbn [round_nearest_even]. unfold finish.
    destruct (Z.eqb_spec (Zpos (mant q)) (2 ^ 53)); [lia|].
    f_equal. lia.
  - (* more than 53 digits: the low bits are zero and are shifted out *)
    assert (Zpos p = Zpos (mant q) * 2 ^ Zpos n) as Hpn.
    { rewrite Hp, Hm, <- Z.mul_assoc, <- Z.pow_add_r by lia.
      f_equal. f_equal. lia. }
    unfold binary_round_aux, shr_fexp. cbn [Zdigits2].
    rewrite Hdp. replace (D - e + e) with D by lia.
    rewrite fexp_normal by lia. rewrite Hn.
    cbn [shr shr_record_of_loc].
    rewrite Hpn, iter_shr_1_exact by lia.
    cbn [shr_m loc_of_shr_record round_nearest_even].
    transitivity (finish s (Zpos (mant q)) (e + Zpos n));
      [apply (round_finish s (Zpos (mant q)) (e + Zpos n)); lia|].
    unfold finish.
    destruct (Z.eqb_spec (Zpos (mant q)) (2 ^ 53)); [lia|].
    f_equal. lia.
  - (* fewer than 53 digits: the mantissa is shifted left *)
    assert (Pos.iter xO p n = mant q) as ->.
    { apply Pos2Z.inj. rewrite pos_iter_xO, Hp, Hm.
      rewrite <- Z.mul_assoc, <- Z.pow_add_r by lia.
      f_equal. f_equal. lia. }
    rewrite binary_round_aux_53 by lia.
    cbn [round_nearest_even]. unfold finish.
    destruct (Z.eqb_spec (Zpos (mant q)) (2 ^ 53)); [lia|done].
Qed.

Lemma shl_align_fst m ex ez :
  ez <= ex -> Zpos (fst (shl_align m ex ez)) = Zpos m * 2 ^ (ex - ez).
Proof.
  intros He. unfold shl_align.
  destruct (ez - ex) as [|d|d] eqn:Hd; cbn [fst]; try lia.
  - replace (ex - ez) with 0 by lia. lia.
  - rewrite pos_iter_xO. f_equal. f_equal. lia.
Qed.

(** An integer scaled to exponent [e] normalises to the integer. *)
Lemma binary_normalize_scaled z e :
  -1000 <= e <= 0 -> Z.abs z < 2 ^ 53 ->
  binary_normalize prec emax (z * 2 ^ (- e)) e false = of_int z.
Proof.
  intros He Hz.
  assert (0 < 2 ^ (- e)) as Hpow by (apply Z.pow_pos_nonneg; lia).
  destruct z as [|q|q].
  - done.
  - rewrite of_int_pos by lia.
    destruct (Zpos q * 2 ^ (- e)) as [|p|p] eqn:Hp; try lia.
    by apply binary_round_exact.
  - rewrite of_int_neg by lia.
    destruct (Zneg q * 2 ^ (- e)) as [|p|p] eqn:Hp; try lia.
    apply binary_round_exact; [done|lia|lia].
Qed.

(** The value of the number made from an integer, at a lower exponent. *)
Lemma of_int_aligned s p ez :
  Zpos p < 2 ^ 53 -> ez <= expo p ->
  cond_Zopp s (Zpos (fst (shl_align (mant p) (expo p) ez))) =
  cond_Zopp s (Zpos p) * 2 ^ (- ez).
Proof.
  intros Hp Hez. destruct (mant_spec p Hp) as (Hm & _ & He).
  rewrite shl_align_fst by done. rewrite Hm.
  unfold expo in *.
  assert (0 <= - ez) by lia.
  replace (2 ^ (- ez))
    with (2 ^ (53 - Zpos (digits2_pos p)) *
          2 ^ (Zpos (digits2_pos p) - 53 - ez)).
  2:{ rewrite <- Z.pow_add_r by lia. f_equal. lia. }
  destruct s; cbn [cond_Zopp]; ring.
Qed.

Lemma num_add_finite sx px sy py :
  Zpos px < 2 ^ 53 -> Zpos py < 2 ^ 53 ->
  Z.abs (cond_Zopp sx (Zpos px) + cond_Zopp sy (Zpos py)) < 2 ^ 53 ->
  num_add (S754_finite sx (mant px) (expo px))
          (S754_finite sy (mant py) (expo py)) =
  of_int (cond_Zopp sx (Zpos px) + cond_Zopp sy (Zpos py)).
Proof.
  intros Hx Hy Hz.
  destruct (mant_spec px Hx) as (_ & _ & Hex).
  destruct (mant_spec py Hy) as (_ & _ & Hey).
  unfold num_add, SFadd.
  set (ez := Z.min (expo px) (expo py)).
  rewrite !of_int_aligned by (unfold ez; lia).
  rewrite <- Z.mul_add_distr_r.
  apply binary_normalize_scaled; [unfold ez; lia|done].
Qed.

Lemma num_sub_finite sx px sy py :
  Zpos px < 2 ^ 53 -> Zpos py < 2 ^ 53 ->
  Z.abs (cond_Zopp sx (Zpos px) - cond_Zopp sy (Zpos py)) < 2 ^ 53 ->
  num_sub (S754_finite sx (mant px) (expo px))
          (S754_finite sy (mant py) (expo py)) =
  of_int (cond_Zopp sx (Zpos px) - cond_Zopp sy (Zpos py)).
Proof.
  intros Hx Hy Hz.
  destruct (mant_spec px Hx) as (_ & _ & Hex).
  destruct (mant_spec py Hy) as (_ & _ & Hey).
  unfold num_sub, SFsub.
  set (ez := Z.min (expo px) (expo py)).
  rewrite !of_int_aligned by (unfold ez; lia).
  rewrite <- Z.mul_sub_distr_r.
  apply binary_normalize_scaled; [unfold ez; lia|done].
Qed.

Lemma of_int_cases z :
  Z.abs z < 2 ^ 53 ->
  (z = 0 ∧ of_int z = S754_zero false) ∨
  (∃ s p, z = cond_Zopp s (Zpos p) ∧ Zpos p < 2 ^ 53 ∧
          of_int z = S754_finite s (mant p) (expo p)).
Proof.
  intros Hz. destruct z as [|p|p].
  - by left.
  - right. exists false, p. split; [done|]. split; [lia|].
    apply of_int_pos. lia.
  - right. exists true, p. split; [done|]. split; [lia|].
    apply of_int_neg. lia.
Qed.

(** On integers below [2 ^ 53] in magnitude, the operators [+] and [-]
    of binary64 are those of [Z]. *)
Lemma num_add_of_int x y :
  Z.abs x < 2 ^ 53 -> Z.abs y < 2 ^ 53 -> Z.abs (x + y) < 2 ^ 53 ->
  num_add (of_int x) (of_int y) = of_int (x + y).
Proof.
  intros Hx Hy Hz.
  destruct (of_int_cases x Hx) as [[-> Hx0]|(sx & px & -> & Hpx & Hx1)];
    destruct (of_int_cases y Hy) as [[-> Hy0]|(sy & py & -> & Hpy & Hy1)].
  - done.
  - rewrite Z.add_0_l, Hx0, Hy1. done.
  - rewrite Z.add_0_r, Hx1, Hy0. done.
  - rewrite Hx1, Hy1. by apply num_add_finite.
Qed.

Lemma num_sub_of_int x y :
  Z.abs x < 2 ^ 53 -> Z.abs y < 2 ^ 53 -> Z.abs (x - y) < 2 ^ 53 ->
  num_sub (of_int x) (of_int y) = of_int (x - y).
Proof.
  intros Hx Hy Hz.
  destruct (of_int_cases x Hx) as [[-> Hx0]|(sx & px & -> & Hpx & Hx1)];
    destruct (of_int_cases y Hy) as [[-> Hy0]|(sy & py & -> & Hpy & Hy1)].
  - done.
  - rewrite Hx0, Hy1. cbn [num_sub SFsub].
    destruct sy; cbn [cond_Zopp negb Z.sub Z.add Z.opp].
    + symmetry. by apply of_int_pos.
    + symmetry. by apply of_int_neg.
  - rewrite Z.sub_0_r, Hx1, Hy0. done.
  - rewrite Hx1, Hy1. by apply num_sub_finite.
Qed.

(** *** Quotients *)

(** The division of two full mantissas: a 53-bit shift, a Euclidean
    division and a rounding. *)
Lemma SFdiv_normal sx mx ex sy my ey :
  2 ^ 52 <= Zpos mx < 2 ^ 53 -> 2 ^ 52 <= Zpos my < 2 ^ 53 ->
  -1074 <= ex - ey - 53 ->
  num_div (S754_finite sx mx ex) (S754_finite sy my ey) =
  binary_round_aux prec emax (xorb sx sy)
    (Zpos mx * 2 ^ 53 / Zpos my) (ex - ey - 53)
    (location_of (Zpos my) (Zpos mx * 2 ^ 53 mod Zpos my)).
Proof.
  intros Hx Hy He. unfold num_div, SFdiv, SFdiv_core_binary.
  cbn [Zdigits2].
  rewrite (digits2_pos_unique mx 53), (digits2_pos_unique my 53) by done.
  replace (53 + ex - (53 + ey)) with (ex - ey) by lia.
  rewrite fexp_normal by lia.
  rewrite Z.min_l by lia.
  replace (ex - ey - (ex - ey - 53)) with 53 by lia.
  rewrite Z.shiftl_mul_pow2 by lia.
  unfold Z.div, Z.modulo.
  destruct (Z.div_eucl (Z.pos mx * 2 ^ 53) (Z.pos my)) as [q r] eqn:Hqr.
  rewrite new_location_spec; [done|lia|].
  pose proof (Z_div_mod (Z.pos mx * 2 ^ 53) (Z.pos my)) as H.
  rewrite Hqr in H. lia.
Qed.

Lemma finish_cases s m1 e :
  2 ^ 52 <= m1 <= 2 ^ 53 ->
  ∃ m e', finish s m1 e = S754_finite s m e' ∧ 2 ^ 52 <= Zpos m < 2 ^ 53 ∧
    ((e' = e ∧ Zpos m = m1) ∨
     (e' = e + 1 ∧ m1 = 2 ^ 53 ∧ Zpos m = 2 ^ 52)).
Proof.
  intros Hm. unfold finish. destruct (Z.eqb_spec m1 (2 ^ 53)) as [->|Hne].
  - eexists _, _. split; [done|]. split; [done|]. right. done.
  - exists (Z.to_pos m1), e. rewrite Z2Pos.id by lia.
    split; [done|]. split; [lia|]. by left.
Qed.

(** Division of two finite numbers with full mantissas: the result is
    finite, its mantissa is full, and it lies within half a unit in the
    last place of the exact quotient. *)
Lemma num_div_normal sx mx ex sy my ey :
  2 ^ 52 <= Zpos mx < 2 ^ 53 -> 2 ^ 52 <= Zpos my < 2 ^ 53 ->
  -1021 <= ex - ey <= 1019 ->
  ∃ m e,
    num_div (S754_finite sx mx ex) (S754_finite sy my ey) =
      S754_finite (xorb sx sy) m e ∧
    2 ^ 52 <= Zpos m < 2 ^ 53 ∧
    0 <= e - (ex - ey - 53) <= 2 ∧
    (2 * Zpos m - 1) * (Zpos my * 2 ^ (e - (ex - ey - 53)))
      <= 2 * (Zpos mx * 2 ^ 53)
      <= (2 * Zpos m + 1) * (Zpos my * 2 ^ (e - (ex - ey - 53))).
Proof.
  intros HA HB He.
  rewrite SFdiv_normal by lia.
  set (A := Zpos mx) in *. set (B := Zpos my) in *.
  set (e0 := ex - ey - 53).
  set (X := A * 2 ^ 53) in *.
  div_mod_facts X B Hdm Hr.
  set (q := X / B) in *. set (r := X mod B) in *.
  assert (2 ^ 52 <= q) as Hq1.
  { apply Z.div_le_lower_bound; [lia|]. unfold X. nia. }
  assert (q < 2 ^ 54) as Hq2.
  { apply Z.div_lt_upper_bound; [lia|]. unfold X. nia. }
  destruct q as [|pq|pq] eqn:Hqe; try lia.
  destruct (Z.lt_ge_cases (Zpos pq) (2 ^ 53)) as [Hq|Hq].
  - rewrite binary_round_aux_53 by (unfold e0; lia).
    pose proof (round_quotient_53 (Zpos pq) B r ltac:(lia) Hr) as Hnear.
    pose proof (round_nearest_even_bounds (Zpos pq) (location_of B r)) as Hm1.
    cbv zeta in Hnear.
    set (m1 := round_nearest_even (Zpos pq) (location_of B r)) in *.
    destruct (finish_cases (xorb sx sy) m1 e0 ltac:(lia))
      as (m & e & -> & Hmb & Hcase).
    exists m, e. split; [done|]. split; [done|].
    replace (Zpos pq * B + r) with X in Hnear by lia.
    destruct Hcase as [[-> Hm]|(-> & Hm1e & Hm)].
    + replace (e0 - e0) with 0 by lia. change (2 ^ 0) with 1. lia.
    + replace (e0 + 1 - e0) with 1 by lia. change (2 ^ 1) with 2. lia.
  - rewrite binary_round_aux_54 by (unfold e0; lia). cbv zeta.
    pose proof (round_quotient_54 (Zpos pq) B r ltac:(lia) ltac:(lia) Hr)
      as Hnear.
    cbv zeta in Hnear.
    set (mrs := shr_1 (shr_record_of_loc (Zpos pq) (location_of B r))) in *.
    pose proof (round_nearest_even_bounds (shr_m mrs) (loc_of_shr_record mrs))
      as Hm1.
    assert (shr_m mrs = Zpos pq / 2) as Hshr by (apply shr_m_shr_1; lia).
    assert (2 ^ 52 <= Zpos pq / 2) as Hh1
      by (apply Z.div_le_lower_bound; lia).
    assert (Zpos pq / 2 < 2 ^ 53) as Hh2
      by (apply Z.div_lt_upper_bound; lia).
    set (m1 := round_nearest_even (shr_m mrs) (loc_of_shr_record mrs)) in *.
    destruct (finish_cases (xorb sx sy) m1 (e0 + 1) ltac:(lia))
      as (m & e & -> & Hmb & Hcase).
    exists m, e. split; [done|]. split; [done|].
    replace (Zpos pq * B + r) with X in Hnear by lia.
    destruct Hcase as [[-> Hm]|(-> & Hm1e & Hm)].
    + replace (e0 + 1 - e0) with 1 by lia. change (2 ^ 1) with 2. lia.
    + replace (e0 + 1 + 1 - e0) with 2 by lia. change (2 ^ 2) with 4. lia.
Qed.

Lemma div_ints s pa pb :
  Zpos pa < 2 ^ 53 -> Zpos pb < 2 ^ 53 ->
  ∃ m e,
    num_div (S754_finite s (mant pa) (expo pa))
            (S754_finite false (mant pb) (expo pb)) = S754_finite s m e ∧
    2 ^ 52 <= Zpos m < 2 ^ 53 ∧ -105 <= e <= 1 ∧
    (2 * Zpos m - 1) * Zpos pb <= Zpos pa * 2 ^ (1 - e)
      <= (2 * Zpos m + 1) * Zpos pb.
Proof.
  intros Ha Hb.
  destruct (mant_spec pa Ha) as (HA & HAb & Hea).
  destruct (mant_spec pb Hb) as (HB & HBb & Heb).
  destruct (num_div_normal s (mant pa) (expo pa) false (mant pb) (expo pb)
              HAb HBb ltac:(lia)) as (m & e & Hdiv & Hm & Hj & Hnear).
  rewrite xorb_false_r in Hdiv.
  exists m, e. split; [done|]. split; [done|].
  unfold expo in *.
  set (a := Zpos pa) in *. set (b := Zpos pb) in *.
  set (da := Zpos (digits2_pos pa)) in *.
  set (db := Zpos (digits2_pos pb)) in *.
  set (j := e - (da - 53 - (db - 53) - 53)) in *.
  split; [lia|].
  set (P := 2 ^ (53 - db)) in *.
  set (J := 2 ^ j) in *.
  assert (0 < P) as HP by (apply Z.pow_pos_nonneg; lia).
  assert (0 < J) as HJ by (apply Z.pow_pos_nonneg; lia).
  assert (2 ^ (53 - da) * 2 ^ 53 * 2 = 2 ^ (1 - e) * (P * J)) as Hpow.
  { unfold P, J. rewrite <- (Z.pow_1_r 2) at 3.
    rewrite <- !Z.pow_add_r by lia. f_equal. lia. }
  rewrite HA, HB in Hnear.
  assert (0 < P * J) as HPJ by lia.
  split; apply (Z.mul_le_mono_pos_r _ _ (P * J) HPJ); nia.
Qed.

(** Division of two integers below [2 ^ 53] in magnitude. *)
Lemma num_div_of_int z b :
  z ≠ 0 -> Z.abs z < 2 ^ 53 -> 0 < b < 2 ^ 53 ->
  ∃ m e,
    num_div (of_int z) (of_int b) = S754_finite (z <? 0) m e ∧
    2 ^ 52 <= Zpos m < 2 ^ 53 ∧ -105 <= e <= 1 ∧
    (2 * Zpos m - 1) * b <= Z.abs z * 2 ^ (1 - e) <= (2 * Zpos m + 1) * b.
Proof.
  intros Hz Hzb Hb. destruct b as [|pb|pb]; try lia.
  rewrite (of_int_pos pb) by lia.
  destruct z as [|pa|pa]; [done| |].
  - rewrite of_int_pos by lia. apply div_ints; lia.
  - rewrite of_int_neg by lia. apply div_ints; lia.
Qed.

Lemma num_div_zero b :
  0 < b < 2 ^ 53 -> num_div (of_int 0) (of_int b) = zero.
Proof.
  intros Hb. destruct b as [|pb|pb]; try lia.
  by rewrite (of_int_pos pb) by lia.
Qed.

(** The test [z / b <= 0] decides the sign of the integer [z]. *)
Lemma num_le_div_zero z b :
  Z.abs z < 2 ^ 53 -> 0 < b < 2 ^ 53 ->
  num_le (num_div (of_int z) (of_int b)) zero = (z <=? 0).
Proof.
  intros Hz Hb. destruct (Z.eq_dec z 0) as [->|Hz0].
  - by rewrite num_div_zero.
  - destruct (num_div_of_int z b Hz0 Hz Hb) as (m & e & -> & _).
    by destruct z.
Qed.

(** The integer arithmetic behind [Math.round] of a rounded quotient:
    [n] units of [1 / (2 * E)] are within half a unit of [z / b]. *)
Lemma round_core z b n E :
  0 < b -> 0 < E -> b < 2 * E ->
  (2 * n - 1) * b <= z * (4 * E) <= (2 * n + 1) * b ->
  (2 * n + 2 * E) / (4 * E) = (2 * z + b) / (2 * b).
Proof.
  intros Hb HE HbE [Hlo Hhi].
  set (k := (2 * z + b) / (2 * b)).
  div_mod_facts (2 * z + b) (2 * b) Hdm Hr.
  fold k in Hdm.
  assert (2 * b * k <= 2 * z + b < 2 * b * k + 2 * b) as [Hk1 Hk2] by lia.
  symmetry. apply (Z.div_unique _ _ _ (2 * n + 2 * E - 4 * E * k)); [|lia].
  left. split.
  - destruct (Z.le_gt_cases (4 * E * k) (2 * n + 2 * E)) as [|Hc];
      [lia|exfalso].
    assert (n + E + 1 <= 2 * (E * k)) as Hc' by lia.
    pose proof (Z.mul_le_mono_nonneg_l _ _ b ltac:(lia) Hc') as H1.
    pose proof (Z.mul_le_mono_nonneg_l _ _ E ltac:(lia) Hk1) as H2.
    nia.
  - destruct (Z.lt_ge_cases (2 * n + 2 * E) (4 * E * k + 4 * E)) as [|Hc];
      [lia|exfalso].
    assert (2 * (E * k) + E <= n) as Hc' by lia.
    pose proof (Z.mul_le_mono_nonneg_l _ _ b ltac:(lia) Hc') as H1.
    assert (2 * z + 1 <= 2 * b * k + b) as Hk2' by lia.
    pose proof (Z.mul_le_mono_nonneg_l _ _ E ltac:(lia) Hk2') as H2.
    nia.
Qed.

Lemma to_int_of_int r : Z.abs r < 2 ^ 53 -> to_int (of_int r) = Some r.
Proof.
  intros Hr.
  assert (∀ s p, Zpos p < 2 ^ 53 ->
            to_int (S754_finite s (mant p) (expo p)) =
            Some (cond_Zopp s (Zpos p))) as Hfin.
  { intros s p Hp. destruct (mant_spec p Hp) as (Hm & Hmb & He).
    unfold to_int. unfold expo in *.
    set (d := Zpos (digits2_pos p)) in *.
    assert (0 < 2 ^ (53 - d)) as Hpow by (apply Z.pow_pos_nonneg; lia).
    destruct (Z.leb_spec 0 (d - 53)) as [H0|H0].
    - assert (d = 53) as Hd by lia. rewrite Hm, Hd. do 2 f_equal. lia.
    - replace (- (d - 53)) with (53 - d) by lia. rewrite Hm.
      rewrite Z.mod_mul, Z.div_mul by lia. done. }
  destruct r as [|p|p]; [done| |].
  - rewrite of_int_pos by lia. by rewrite Hfin by lia.
  - rewrite of_int_neg by lia. by rewrite Hfin by lia.
Qed.

(** *** The subtraction of two time values *)

(** The rounding of an integer of 54 digits. *)
Lemma round_ties_even_54 z :
  2 ^ 53 <= Z.abs z < 2 ^ 54 ->
  round_ties_even z =
  Z.sgn z *
  (2 * round_nearest_even (Z.abs z / 2)
         (if Z.even (Z.abs z) then loc_Exact else loc_Inexact Eq)).
Proof.
  intros [Hlo Hhi]. unfold round_ties_even.
  destruct (Z.ltb_spec (Z.abs z) (2 ^ 53)) as [|_]; [lia|].
  cbv zeta.
  assert (Z.log2 (Z.abs z) = 53) as ->.
  { apply Z.log2_unique; [lia|]. split; [done|]. done. }
  change (53 - 52) with 1. change (1 - 1) with 0.
  rewrite Z.pow_1_r, Z.pow_0_r. f_equal.
  set (a := Z.abs z) in *.
  assert (a mod 2 = 0 ∨ a mod 2 = 1) as Hr by (Z.div_mod_to_equations; lia).
  destruct (Z.even a) eqn:Hev.
  - apply Z.even_spec in Hev as [h Hh].
    assert (a mod 2 = 0) as -> by (rewrite Hh, Z.mul_comm; apply Z.mod_mul; lia).
    cbn [round_nearest_even]. simpl. lia.
  - assert (a mod 2 = 1) as ->.
    { destruct Hr as [Hr|Hr]; [|done].
      apply Z.mod_divide in Hr; [|lia]. destruct Hr as [h Hh].
      assert (Z.even a = true) by (apply Z.even_spec; exists h; lia).
      congruence. }
    cbn [round_nearest_even]. simpl.
    rewrite <- Z.negb_even. destruct (Z.even (a / 2)); simpl; lia.
Qed.

Lemma iter_pos_comm {A} (f : A -> A) n x :
  SpecFloat.iter_pos f n (f x) = f (SpecFloat.iter_pos f n x).
Proof.
  revert x. induction n as [n IH|n IH|]; intros x; cbn [SpecFloat.iter_pos];
    by rewrite ?IH.
Qed.

Lemma iter_pos_succ {A} (f : A -> A) n x :
  SpecFloat.iter_pos f (Pos.succ n) x = f (SpecFloat.iter_pos f n x).
Proof.
  revert x. induction n as [n IH|n IH|]; intros x.
  - change (SpecFloat.iter_pos f (Pos.succ n)
              (SpecFloat.iter_pos f (Pos.succ n) x) =
            f (SpecFloat.iter_pos f n (SpecFloat.iter_pos f n (f x)))).
    by rewrite !IH, !iter_pos_comm.
  - change (SpecFloat.iter_pos f n (SpecFloat.iter_pos f n (f x)) =
            f (SpecFloat.iter_pos f n (SpecFloat.iter_pos f n x))).
    by rewrite !iter_pos_comm.
  - done.
Qed.

(** Shifting one bit out of an exact mantissa. *)
Lemma shr_1_exact a :
  0 < a ->
  shr_1 {| shr_m := a; shr_r := false; shr_s := false |} =
  {| shr_m := a / 2; shr_r := negb (Z.even a); shr_s := false |}.
Proof.
  intros Ha. destruct a as [|p|p]; [lia| |lia].
  destruct p as [p|p|]; cbn [shr_1 orb].
  - f_equal. rewrite (Pos2Z.inj_xI p). Z.div_mod_to_equations. lia.
  - f_equal. rewrite (Pos2Z.inj_xO p). Z.div_mod_to_equations. lia.
  - done.
Qed.

(** Rounding [a * 2 ^ (- e)] at exponent [e], for an integer [a] of 54
    digits: its last bit is rounded away. *)
Lemma binary_round_54 s P e a :
  -1000 <= e <= 0 -> 2 ^ 53 <= a < 2 ^ 54 -> Zpos P = a * 2 ^ (- e) ->
  binary_round prec emax s P e =
  finish s
    (round_nearest_even (a / 2)
       (if Z.even a then loc_Exact else loc_Inexact Eq)) 1.
Proof.
  intros He Ha HP.
  assert (0 < 2 ^ (- e)) as Hpow by (apply Z.pow_pos_nonneg; lia).
  assert (Zpos (digits2_pos P) = 54 - e) as Hd.
  { apply digits2_pos_unique. rewrite HP. split.
    - replace (54 - e - 1) with (53 + (- e)) by lia.
      rewrite Z.pow_add_r by lia. apply Z.mul_le_mono_nonneg_r; lia.
    - replace (54 - e) with (54 + (- e)) by lia.
      rewrite Z.pow_add_r by lia. apply Z.mul_lt_mono_pos_r; lia. }
  unfold binary_round. rewrite Hd.
  replace (54 - e + e) with 54 by lia.
  change (fexp prec emax 54) with 1.
  unfold shl_align.
  destruct (1 - e) as [|n|n] eqn:Hn; try lia.
  unfold binary_round_aux, shr_fexp. cbn [Zdigits2]. rewrite Hd.
  replace (54 - e + e) with 54 by lia.
  change (fexp prec emax 54) with 1. rewrite Hn.
  cbn [shr shr_record_of_loc].
  assert (SpecFloat.iter_pos shr_1 n
            {| shr_m := Zpos P; shr_r := false; shr_s := false |} =
          {| shr_m := a / 2; shr_r := negb (Z.even a); shr_s := false |})
    as ->.
  { destruct (Z.eq_dec e 0) as [->|He0].
    - assert (n = 1%positive) as -> by lia.
      cbn [SpecFloat.iter_pos]. rewrite HP. change (2 ^ (- 0)) with 1.
      rewrite Z.mul_1_r. apply shr_1_exact. lia.
    - destruct (- e) as [|m|m] eqn:Hm; try lia.
      assert (n = Pos.succ m) as -> by lia.
      rewrite iter_pos_succ, HP, iter_shr_1_exact by lia.
      apply shr_1_exact. lia. }
  cbn [shr_m].
  replace (loc_of_shr_record
             {| shr_m := a / 2; shr_r := negb (Z.even a); shr_s := false |})
    with (if Z.even a then loc_Exact else loc_Inexact Eq)
    by (by destruct (Z.even a)).
  replace (e + Zpos n) with 1 by lia.
  apply round_finish; [|lia].
  pose proof (round_nearest_even_bounds (a / 2)
                (if Z.even a then loc_Exact else loc_Inexact Eq)).
  assert (2 ^ 52 <= a / 2 < 2 ^ 53) by (Z.div_mod_to_equations; lia).
  lia.
Qed.

(** The integer that a rounded mantissa denotes. *)
Lemma to_int_finish s m1 e :
  2 ^ 52 <= m1 <= 2 ^ 53 -> 0 <= e ->
  to_int (finish s m1 e) = Some (cond_Zopp s (m1 * 2 ^ e)).
Proof.
  intros Hm He. unfold finish.
  destruct (Z.eqb_spec m1 (2 ^ 53)) as [->|Hne]; cbn [to_int].
  - destruct (Z.leb_spec 0 (e + 1)); [|lia].
    do 2 f_equal. rewrite Z.pow_add_r by lia. lia.
  - destruct (Z.leb_spec 0 e); [|lia].
    by rewrite Z2Pos.id by lia.
Qed.

(** The difference of two integers below [2 ^ 53] in magnitude, in
    binary64: the integer [minus] gives. *)
Lemma num_sub_54 sx px sy py :
  Zpos px < 2 ^ 53 -> Zpos py < 2 ^ 53 ->
  2 ^ 53 <= Z.abs (cond_Zopp sx (Zpos px) - cond_Zopp sy (Zpos py)) ->
  to_int (num_sub (S754_finite sx (mant px) (expo px))
                  (S754_finite sy (mant py) (expo py))) =
  Some (minus (cond_Zopp sx (Zpos px)) (cond_Zopp sy (Zpos py))).
Proof.
  intros Hx Hy Hd.
  destruct (mant_spec px Hx) as (_ & _ & Hex).
  destruct (mant_spec py Hy) as (_ & _ & Hey).
  set (d := cond_Zopp sx (Zpos px) - cond_Zopp sy (Zpos py)) in *.
  assert (Z.abs d < 2 ^ 54) as Hd54.
  { subst d. destruct sx, sy; cbn [cond_Zopp]; lia. }
  unfold minus. fold d. rewrite round_ties_even_54 by lia.
  unfold num_sub, SFsub.
  set (ez := Z.min (expo px) (expo py)).
  rewrite !of_int_aligned by (unfold ez; lia).
  rewrite <- Z.mul_sub_distr_r. fold d.
  assert (0 < 2 ^ (- ez)) as Hpow by (apply Z.pow_pos_nonneg; unfold ez; lia).
  unfold binary_normalize.
  destruct (d * 2 ^ (- ez)) as [|P|P] eqn:HP.
  - exfalso. apply Z.mul_eq_0 in HP. lia.
  - assert (0 < d) as Hpos by (destruct d; lia).
    rewrite (binary_round_54 false P ez (Z.abs d));
      [|unfold ez; lia|lia|rewrite Z.abs_eq by lia; lia].
    rewrite to_int_finish; [|
      pose proof (round_nearest_even_bounds (Z.abs d / 2)
        (if Z.even (Z.abs d) then loc_Exact else loc_Inexact Eq));
      assert (2 ^ 52 <= Z.abs d / 2 < 2 ^ 53)
        by (Z.div_mod_to_equations; lia); lia|lia].
    rewrite Z.sgn_pos by done. cbn [cond_Zopp]. f_equal. lia.
  - assert (d < 0) as Hneg by (destruct d; lia).
    rewrite (binary_round_54 true P ez (Z.abs d));
      [|unfold ez; lia|lia|rewrite Z.abs_neq by lia; lia].
    rewrite to_int_finish; [|
      pose proof (round_nearest_even_bounds (Z.abs d / 2)
        (if Z.even (Z.abs d) then loc_Exact else loc_Inexact Eq));
      assert (2 ^ 52 <= Z.abs d / 2 < 2 ^ 53)
        by (Z.div_mod_to_equations; lia); lia|lia].
    rewrite Z.sgn_neg by done. cbn [cond_Zopp]. f_equal. lia.
Qed.

(** [minus] is the subtraction of binary64 on the integers that a time
    value can be: for operands below [2 ^ 53] in magnitude, the number
    [x - y] is the integer [minus x y]. *)
Lemma minus_num_sub x y :
  Z.abs x < 2 ^ 53 -> Z.abs y < 2 ^ 53 ->
  to_int (num_sub (of_int x) (of_int y)) = Some (minus x y).
Proof.
  intros Hx Hy.
  destruct (Z.lt_ge_cases (Z.abs (x - y)) (2 ^ 53)) as [Hd|Hd].
  - rewrite num_sub_of_int, to_int_of_int, minus_exact by done. done.
  - destruct (of_int_cases x Hx) as [[-> Hx0]|(sx & px & -> & Hpx & Hx1)];
      destruct (of_int_cases y Hy) as [[-> Hy0]|(sy & py & -> & Hpy & Hy1)];
      try lia.
    rewrite Hx1, Hy1. by apply num_sub_54.
Qed.

(** [Math.round] of the quotient of two integers is the integer nearest
    to the exact quotient, the larger one of two equally near. *)
Lemma Math_round_div z b :
  Z.abs z < 2 ^ 52 -> 0 < b < 2 ^ 53 ->
  to_int (Math_round (num_div (of_int z) (of_int b))) =
  Some ((2 * z + b) / (2 * b)).
Proof.
  intros Hz Hb. destruct (Z.eq_dec z 0) as [->|Hz0].
  { rewrite num_div_zero by done. simpl.
    by rewrite Z.div_small by lia. }
  destruct (num_div_of_int z b Hz0 ltac:(lia) Hb)
    as (m & e & -> & Hm & He & Hlo & Hhi).
  assert (0 < 2 ^ (1 - e)) as Hpow by (apply Z.pow_pos_nonneg; lia).
  assert ((2 ^ 53 - 1) * b <= (2 * Z.pos m - 1) * b) as Hmb by nia.
  assert (e <= -1) as He'.
  { destruct (Z.le_gt_cases e (-1)); [done|exfalso].
    assert (e = 0 ∨ e = 1) as [->| ->] by lia.
    - change (2 ^ (1 - 0)) with 2 in *. nia.
    - change (2 ^ (1 - 1)) with 1 in *. nia. }
  set (E := 2 ^ (- e - 1)).
  assert (0 < E) as HE by (apply Z.pow_pos_nonneg; lia).
  assert (2 ^ (- e) = 2 * E) as HE1.
  { unfold E. rewrite <- Z.pow_succ_r by lia. f_equal. lia. }
  assert (2 ^ (1 - e) = 4 * E) as HE2.
  { replace (1 - e) with (Z.succ (- e)) by lia.
    rewrite Z.pow_succ_r by lia. lia. }
  rewrite HE2 in *.
  assert (b < 2 * E) as HbE by nia.
  unfold Math_round.
  destruct (Z.leb_spec 0 e) as [|_]; [lia|].
  rewrite HE1, HE2.
  set (n := cond_Zopp (z <? 0) (Zpos m)).
  assert ((2 * n - 1) * b <= z * (4 * E) <= (2 * n + 1) * b) as Hn.
  { unfold n. destruct z as [|pz|pz]; [done| |];
      cbn [Z.ltb Z.compare cond_Zopp].
    - change (Z.abs (Zpos pz)) with (Zpos pz) in *. lia.
    - change (Z.abs (Zneg pz)) with (Zpos pz) in *.
      replace (Z.neg pz) with (- Zpos pz) by done. lia. }
  rewrite (round_core z b n E ltac:(lia) HE HbE Hn).
  set (k := (2 * z + b) / (2 * b)).
  assert (Z.abs k < 2 ^ 53) as Hk.
  { div_mod_facts (2 * z + b) (2 * b) Hdm Hr.
    fold k in Hdm. nia. }
  destruct (Z.eqb_spec k 0) as [->|Hk0]; [done|].
  by apply to_int_of_int.
Qed.

(** [Math.round] of a positive finite number, as an integer. *)
Lemma Math_round_pos_spec m e :
  2 ^ 52 <= Zpos m < 2 ^ 53 ->
  ∃ k, to_int (Math_round (S754_finite false m e)) = Some k ∧ 0 <= k ∧
       (e < 0 -> 2 ^ (- e) * (2 * k - 1) <= 2 * Zpos m
                   < 2 ^ (- e) * (2 * k + 1)) ∧
       (0 <= e -> k = Zpos m * 2 ^ e).
Proof.
  intros Hm. unfold Math_round.
  destruct (Z.leb_spec 0 e) as [He|He].
  - unfold to_int. destruct (Z.leb_spec 0 e) as [_|]; [|lia].
    eexists. split; [done|]. cbn [cond_Zopp]. split; [|split; [lia|done]].
    apply Z.mul_nonneg_nonneg; [lia|]. by apply Z.pow_nonneg.
  - cbn [cond_Zopp].
    set (E := 2 ^ (- e - 1)).
    assert (0 < E) as HE by (apply Z.pow_pos_nonneg; lia).
    assert (2 ^ (- e) = 2 * E) as ->.
    { unfold E. rewrite <- Z.pow_succ_r by lia. f_equal. lia. }
    assert (2 ^ (1 - e) = 4 * E) as ->.
    { unfold E. replace (1 - e) with (Z.succ (Z.succ (- e - 1))) by lia.
      rewrite !Z.pow_succ_r by lia. lia. }
    set (r := (2 * Zpos m + 2 * E) / (4 * E)).
    div_mod_facts (2 * Zpos m + 2 * E) (4 * E) Hdm Hr.
    fold r in Hdm.
    assert (0 <= r) as Hr0 by (apply Z.div_pos; lia).
    assert (r < 2 ^ 53) as Hr1 by nia.
    exists r. split; [|split; [done|split; [lia|lia]]].
    destruct (Z.eqb_spec r 0) as [->|_]; [done|].
    apply to_int_of_int. lia.
Qed.

(** Rounding an exact quotient half up, in integer arithmetic. *)
Lemma round_half_up_div a b :
  0 < b -> round_half_up (inject_Z a / inject_Z b) = (2 * a + b) / (2 * b).
Proof.
  intros Hb. destruct b as [|pb|pb]; try lia.
  unfold round_half_up.
  rewrite (Qfloor_comp _ ((2 * a + Zpos pb) # (2 * pb))).
  - done.
  - unfold Qeq, Qplus, Qdiv, Qmult, Qinv, inject_Z. simpl. lia.
Qed.

(** ** Accuracy of the words-per-minute computation *)

(** The error of three nested roundings, in integer arithmetic.  [mw],
    [mt] and [m] are the mantissas of [n / 5], [d / 60000] and their
    quotient, [k] is the latter rounded to an integer, and [U] bounds
    the mantissas from below. *)
Lemma wpm_core n d mw mt m k E J Ew Et U :
  0 < U -> U <= 2 * mw -> U <= 2 * mt -> U <= 2 * m ->
  0 <= n -> 0 < d -> 0 < E -> 0 < J -> 0 < Ew -> 0 < Et -> 0 <= k ->
  (2 * mw - 1) * 5 <= n * Ew <= (2 * mw + 1) * 5 ->
  (2 * mt - 1) * 60000 <= d * Et <= (2 * mt + 1) * 60000 ->
  (2 * m - 1) * (mt * J) <= 2 * (mw * U) <= (2 * m + 1) * (mt * J) ->
  E * (2 * k - 1) <= 2 * m < E * (2 * k + 1) ->
  E * J * Et = Ew * U ->
  (2 * k - 1) * d * ((U - 1) * (U - 1)) <= 24000 * n * (U * (U + 1)) ∧
  24000 * n * (U - 1) <= (2 * k + 1) * d * (U + 1).
Proof.
  intros HU Hmw Hmt Hm Hn Hd HE HJ HEw HEt Hk [HW1 HW2] [HT1 HT2] [HQ1 HQ2]
    [HR1 HR2] HX.
  split.
  - destruct (Z.eq_dec k 0) as [->|Hk0].
    { transitivity 0; [|nonneg].
      replace ((2 * 0 - 1) * d * ((U - 1) * (U - 1)))
        with (- (d * ((U - 1) * (U - 1)))) by ring.
      apply Z.opp_nonpos_nonneg. nonneg. }
    assert (0 < 2 * k - 1) as Hk1 by lia.
    apply (Z.mul_le_mono_pos_r _ _ (Ew * U * U));
      [repeat apply Z.mul_pos_pos; lia|].
    (* 2m (U-1) <= (2m-1) U, and the like for mw, mt *)
    assert (2 * m * (U - 1) <= (2 * m - 1) * U) as Hm' by lia.
    assert (2 * mw * (U - 1) <= (2 * mw - 1) * U) as Hmw' by lia.
    assert ((2 * mt + 1) * U <= 2 * mt * (U + 1)) as Hmt' by lia.
    (* chain *)
    assert (E * (2 * k - 1) * (U - 1) * (mt * J) <= 2 * (mw * U) * U) as C1.
    { transitivity ((2 * m - 1) * U * (mt * J)).
      - transitivity (2 * m * (U - 1) * (mt * J)).
        + apply Z.mul_le_mono_nonneg_r; [nonneg|].
          apply Z.mul_le_mono_nonneg_r; [lia|done].
        + apply Z.mul_le_mono_nonneg_r; [nonneg|done].
      - replace ((2 * m - 1) * U * (mt * J)) with ((2 * m - 1) * (mt * J) * U)
          by ring.
        apply Z.mul_le_mono_nonneg_r; [lia|done]. }
    assert (5 * (2 * mw * (U - 1)) <= n * Ew * U) as C2.
    { transitivity (5 * ((2 * mw - 1) * U)); [lia|].
      replace (5 * ((2 * mw - 1) * U)) with ((2 * mw - 1) * 5 * U) by ring.
      apply Z.mul_le_mono_nonneg_r; [lia|done]. }
    assert (d * Et * U <= 60000 * (2 * mt * (U + 1))) as C3.
    { transitivity ((2 * mt + 1) * 60000 * U).
      - apply Z.mul_le_mono_nonneg_r; [lia|done].
      - lia. }
    (* combine *)
    set (K := 2 * k - 1) in *.
    assert (K * d * ((U - 1) * (U - 1)) * (Ew * U * U) =
            K * (U - 1) * (U - 1) * U * (d * (E * J * Et))) as ->.
    { rewrite HX. ring. }
    transitivity
      (K * (U - 1) * (U - 1) * (E * J) * (60000 * (2 * mt * (U + 1)))).
    { replace (K * (U - 1) * (U - 1) * U * (d * (E * J * Et)))
        with (K * (U - 1) * (U - 1) * (E * J) * (d * Et * U)) by ring.
      apply Z.mul_le_mono_nonneg_l; [|done].
      nonneg. }
    transitivity (120000 * (U - 1) * (U + 1) * (2 * (mw * U) * U)).
    { replace (K * (U - 1) * (U - 1) * (E * J) * (60000 * (2 * mt * (U + 1))))
        with (120000 * (U - 1) * (U + 1) * (E * K * (U - 1) * (mt * J)))
        by ring.
      apply Z.mul_le_mono_nonneg_l; [|done].
      nonneg. }
    transitivity (24000 * (U + 1) * U * U * (n * Ew * U)).
    { replace (120000 * (U - 1) * (U + 1) * (2 * (mw * U) * U))
        with (24000 * (U + 1) * U * U * (5 * (2 * mw * (U - 1)))) by ring.
      apply Z.mul_le_mono_nonneg_l; [|done].
      nonneg. }
    apply Z.eq_le_incl. ring.
  - apply (Z.mul_le_mono_pos_r _ _ (Ew * U * U));
      [repeat apply Z.mul_pos_pos; lia|].
    assert ((2 * mw + 1) * U <= 2 * mw * (U + 1)) as Hmw' by lia.
    assert (2 * mt * (U - 1) <= (2 * mt - 1) * U) as Hmt' by lia.
    assert (2 * m + 1 <= E * (2 * k + 1)) as HR2' by lia.
    set (K := 2 * k + 1) in *.
    transitivity (24000 * U * (U - 1) * ((2 * mw + 1) * 5 * U)).
    { replace (24000 * n * (U - 1) * (Ew * U * U))
        with (24000 * U * (U - 1) * (n * Ew * U)) by ring.
      apply Z.mul_le_mono_nonneg_l; [nonneg|].
      apply Z.mul_le_mono_nonneg_r; [lia|done]. }
    transitivity (120000 * (U - 1) * (U + 1) * (2 * (mw * U))).
    { replace (24000 * U * (U - 1) * ((2 * mw + 1) * 5 * U))
        with (120000 * (U - 1) * U * ((2 * mw + 1) * U)) by ring.
      replace (120000 * (U - 1) * (U + 1) * (2 * (mw * U)))
        with (120000 * (U - 1) * U * (2 * mw * (U + 1))) by ring.
      apply Z.mul_le_mono_nonneg_l; [nonneg|done]. }
    transitivity (120000 * (U - 1) * (U + 1) * ((2 * m + 1) * (mt * J))).
    { apply Z.mul_le_mono_nonneg_l; [nonneg|done]. }
    transitivity (120000 * (U - 1) * (U + 1) * (E * K * (mt * J))).
    { apply Z.mul_le_mono_nonneg_l; [nonneg|].
      apply Z.mul_le_mono_nonneg_r; [nonneg|done]. }
    transitivity ((U + 1) * K * (E * J) * (d * Et * U)).
    { replace (120000 * (U - 1) * (U + 1) * (E * K * (mt * J)))
        with ((U + 1) * K * (E * J) * (60000 * (2 * mt * (U - 1)))) by ring.
      apply Z.mul_le_mono_nonneg_l; [nonneg|].
      transitivity (60000 * ((2 * mt - 1) * U)); [lia|].
      replace (60000 * ((2 * mt - 1) * U)) with ((2 * mt - 1) * 60000 * U)
        by ring.
      apply Z.mul_le_mono_nonneg_r; [lia|done]. }
    apply Z.eq_le_incl.
    replace ((U + 1) * K * (E * J) * (d * Et * U))
      with ((U + 1) * K * d * U * (E * J * Et)) by ring.
    rewrite HX. ring.
Qed.

(** The words per minute of [n] entries over [d] milliseconds: the
    double rounding lands on an integer nearest to the exact value
    [12000 * n / d]. *)
Lemma wpm_nearest n d :
  0 < n < 2 ^ 32 -> 0 < d < 2 ^ 53 ->
  ∃ k,
    to_int (Math_round (num_div (num_div (of_int n) (of_int 5))
                                (num_div (of_int d) (of_int 60000)))) =
      Some k ∧
    0 <= k ∧ (2 * k - 1) * d <= 24000 * n <= (2 * k + 1) * d.
Proof.
  intros Hn Hd.
  destruct (num_div_of_int n 5 ltac:(lia) ltac:(lia) ltac:(lia))
    as (mw & ew & -> & Hmw & Hew & HW).
  destruct (num_div_of_int d 60000 ltac:(lia) ltac:(lia) ltac:(lia))
    as (mt & et & -> & Hmt & Het & HT).
  replace (n <? 0) with false by (symmetry; apply Z.ltb_ge; lia).
  replace (d <? 0) with false by (symmetry; apply Z.ltb_ge; lia).
  rewrite (Z.abs_eq n) in HW by lia. rewrite (Z.abs_eq d) in HT by lia.
  destruct (num_div_normal false mw ew false mt et Hmw Hmt ltac:(lia))
    as (m & e & -> & Hm & Hj & HQ).
  cbn [xorb].
  set (j := e - (ew - et - 53)) in *.
  set (Ew := 2 ^ (1 - ew)) in *. set (Et := 2 ^ (1 - et)) in *.
  assert (0 < Ew) as HEw by (apply Z.pow_pos_nonneg; lia).
  assert (0 < Et) as HEt by (apply Z.pow_pos_nonneg; lia).
  assert (e < 0) as He.
  { destruct (Z.lt_ge_cases e 0) as [|He]; [done|exfalso].
    assert (Et = Ew * 2 ^ (ew - et)) as HEE.
    { unfold Et, Ew. rewrite <- Z.pow_add_r by lia. f_equal. lia. }
    assert (2 ^ 51 <= 2 ^ (ew - et)) as Hp
      by (apply Z.pow_le_mono_r; lia).
    assert (Ew * 2 ^ 51 <= Et) as HEE' by nia.
    assert (Et <= d * Et) as Hd1 by nia.
    assert (n * Ew <= (2 ^ 32 - 1) * Ew) as Hn1 by nia.
    lia. }
  destruct (Math_round_pos_spec m e Hm) as (k & Hk & Hk0 & Hkr & _).
  specialize (Hkr He).
  exists k. split; [done|]. split; [done|].
  set (E := 2 ^ (- e)) in *. set (J := 2 ^ j) in *.
  assert (0 < E) as HE by (apply Z.pow_pos_nonneg; lia).
  assert (0 < J) as HJ by (apply Z.pow_pos_nonneg; lia).
  assert (E * J * Et = Ew * 2 ^ 53) as HX.
  { unfold E, J, Et, Ew. rewrite <- !Z.pow_add_r by lia. f_equal.
    unfold j. lia. }
  destruct (wpm_core n d (Zpos mw) (Zpos mt) (Zpos m) k E J Ew Et (2 ^ 53))
    as [Hlo Hhi]; try done; lia.
Qed.

(** The same bound on the exact rational. *)
Lemma exact_wpm_nearest n d k :
  0 < d -> (2 * k - 1) * d <= 24000 * n <= (2 * k + 1) * d ->
  (inject_Z k - (1 # 2) <= exact_wpm n d <= inject_Z k + (1 # 2))%Q.
Proof.
  intros Hd [Hlo Hhi]. destruct d as [|pd|pd]; try lia.
  unfold exact_wpm, Qle, Qminus, Qplus, Qopp, Qdiv, Qmult, Qinv, inject_Z.
  simpl. lia.
Qed.

Lemma round_half_up_exact_wpm n d :
  0 < d -> round_half_up (exact_wpm n d) = (24000 * n + d) / (2 * d).
Proof.
  intros Hd. destruct d as [|pd|pd]; try lia.
  unfold round_half_up.
  rewrite (Qfloor_comp _ ((24000 * n + Zpos pd) # (2 * pd))).
  - done.
  - unfold exact_wpm, Qeq, Qplus, Qdiv, Qmult, Qinv, inject_Z. simpl. lia.
Qed.

(** An integer nearest to the exact quotient is that quotient rounded
    half up, or one less when the quotient lies half way. *)
Lemma nearest_round_half_up n d k :
  0 < d -> (2 * k - 1) * d <= 24000 * n <= (2 * k + 1) * d ->
  k = round_half_up (exact_wpm n d) ∨
  (k = round_half_up (exact_wpm n d) - 1 ∧
   (exact_wpm n d == inject_Z k + (1 # 2))%Q).
Proof.
  intros Hd [Hlo Hhi]. rewrite round_half_up_exact_wpm by done.
  destruct (Z.eq_dec (24000 * n) ((2 * k + 1) * d)) as [Heq|Hne].
  - right. split.
    + replace (24000 * n + d) with ((k + 1) * (2 * d)) by lia.
      rewrite Z.div_mul by lia. lia.
    + destruct d as [|pd|pd]; try lia.
      unfold exact_wpm, Qeq, Qplus, Qdiv, Qmult, Qinv, inject_Z. simpl. lia.
  - left. apply (Z.div_unique _ _ _ (24000 * n + d - 2 * d * k)); lia.
Qed.

(** ** Words per minute *)

Lemma calculateWPM_unfold es oldest newest :
  es !! 0%nat = Some oldest -> last es = Some newest ->
  calculateWPM es =
  let timeInMinutes :=
    num_div (num_sub (of_int (timestamp newest)) (of_int (timestamp oldest)))
            (of_int 60000) in
  if num_le timeInMinutes zero then zero
  else Math_round
         (num_div (num_div (of_int (Z.of_nat (length es))) (of_int 5))
                  timeInMinutes).
Proof.
  intros Hfirst Hlast. unfold calculateWPM.
  rewrite last_lookup in Hlast.
  replace (length es - 1)%nat with (pred (length es)) by lia.
  rewrite Hlast, Hfirst.
  destruct es; [done|]. done.
Qed.

(** C5, as stated, fails in its formula.  A log of 3 entries spanning
    24000 ms and a log of 5 entries spanning 40000 ms have the same exact
    quotient [(n / 5) / m = 3 / 2]; the code returns 1 for the first and 2
    for the second, so that no rounding of the exact quotient gives both,
    and the first is not [3 / 2] rounded half up. *)
Lemma wpm_not_a_rounding_of_exact_quotient :
  let log3 := entries (run (mount 1000)
    [KeyDown (press "a" "KeyA") 1000 []; KeyDown (press "b" "KeyB") 13000 [];
     KeyDown (press "c" "KeyC") 25000 []]) in
  let log5 := entries (run (mount 1000)
    [KeyDown (press "a" "KeyA") 1000 []; KeyDown (press "b" "KeyB") 11000 [];
     KeyDown (press "c" "KeyC") 21000 []; KeyDown (press "d" "KeyD") 31000 [];
     KeyDown (press "e" "KeyE") 41000 []]) in
  (exact_wpm 3 24000 == 3 # 2)%Q ∧ (exact_wpm 5 40000 == 3 # 2)%Q ∧
  to_int (calculateWPM log3) = Some 1 ∧
  to_int (calculateWPM log5) = Some 2 ∧
  round_half_up (exact_wpm 3 24000) = 2 ∧
  ¬ (∃ rnd : Q -> Z,
       (∀ x y, (x == y)%Q -> rnd x = rnd y) ∧
       to_int (calculateWPM log3) = Some (rnd (exact_wpm 3 24000)) ∧
       to_int (calculateWPM log5) = Some (rnd (exact_wpm 5 40000))).
Proof.
  intros log3 log5.
  assert (to_int (calculateWPM log3) = Some 1) as H3 by (vm_compute; done).
  assert (to_int (calculateWPM log5) = Some 2) as H5 by (vm_compute; done).
  split; [reflexivity|]. split; [reflexivity|].
  split; [exact H3|]. split; [exact H5|]. split; [reflexivity|].
  intros (rnd & Hrnd & Ha & Hb). rewrite H3 in Ha. rewrite H5 in Hb.
  rewrite (Hrnd (exact_wpm 3 24000) (exact_wpm 5 40000)) in Ha by done.
  congruence.
Qed.

(** C5, amended.  [calculateWPM] returns 0 for an empty log and for a
    log whose newest time stamp minus its oldest one is zero or negative.
    Otherwise the elapsed minutes [m] are a positive finite number, the
    only division by [m] is made in this case, and the result is
    [Math.round ((n / 5) / m)] with each of the three quotients rounded to
    the nearest binary64 number.  That result is a non-negative integer
    nearest to the exact quotient: it is the exact quotient rounded half
    up, or one less than that when the exact quotient lies half way
    between two integers.  (The time stamps and their difference are
    below [2 ^ 53] in magnitude and the log has fewer than [2 ^ 32]
    entries.) *)
Theorem calculateWPM_guarded :
  calculateWPM [] = zero ∧
  ∀ es oldest newest,
    es !! 0%nat = Some oldest -> last es = Some newest ->
    Z.abs (timestamp oldest) < 2 ^ 53 ->
    Z.abs (timestamp newest) < 2 ^ 53 ->
    Z.abs (timestamp newest - timestamp oldest) < 2 ^ 53 ->
    Z.of_nat (length es) < 2 ^ 32 ->
    let n := Z.of_nat (length es) in
    let d := timestamp newest - timestamp oldest in
    let timeInMinutes :=
      num_div (num_sub (of_int (timestamp newest))
                       (of_int (timestamp oldest)))
              (of_int 60000) in
    (d <= 0 -> calculateWPM es = zero) ∧
    (0 < d ->
     (∃ m e, timeInMinutes = S754_finite false m e) ∧
     num_le timeInMinutes zero = false ∧
     calculateWPM es =
       Math_round (num_div (num_div (of_int n) (of_int 5)) timeInMinutes) ∧
     ∃ k, to_int (calculateWPM es) = Some k ∧ 0 <= k ∧
          (inject_Z k - (1 # 2) <= exact_wpm n d <= inject_Z k + (1 # 2))%Q ∧
          (k = round_half_up (exact_wpm n d) ∨
           (k = round_half_up (exact_wpm n d) - 1 ∧
            (exact_wpm n d == inject_Z k + (1 # 2))%Q))).
Proof.
  split; [done|].
  intros es oldest newest Hfirst Hlast Hold Hnew Hd Hn n d timeInMinutes.
  pose proof (calculateWPM_unfold es oldest newest Hfirst Hlast) as Hwpm.
  cbv zeta in Hwpm. fold timeInMinutes n in Hwpm.
  assert (timeInMinutes = num_div (of_int d) (of_int 60000)) as Htime
    by (unfold timeInMinutes; by rewrite num_sub_of_int).
  pose proof (num_le_div_zero d 60000 Hd ltac:(lia)) as Hle.
  rewrite <- Htime in Hle.
  split.
  - intros Hneg. rewrite Hwpm, Hle.
    by destruct (Z.leb_spec d 0); [|lia].
  - intros Hpos.
    assert (num_le timeInMinutes zero = false) as Hle'.
    { rewrite Hle. by destruct (Z.leb_spec d 0); [lia|]. }
    rewrite Hle' in Hwpm.
    destruct (num_div_of_int d 60000 ltac:(lia) Hd ltac:(lia))
      as (mt & et & Ht & _).
    rewrite <- Htime in Ht.
    replace (d <? 0) with false in Ht by (symmetry; apply Z.ltb_ge; lia).
    split; [by exists mt, et|]. split; [done|]. split; [done|].
    assert (0 < n) as Hn0 by (unfold n; destruct es; [done|simpl; lia]).
    destruct (wpm_nearest n d ltac:(lia) ltac:(lia)) as (k & Hk & Hk0 & Hnear).
    exists k. rewrite Hwpm, Htime. split; [done|]. split; [done|].
    split; [by apply exact_wpm_nearest|by apply nearest_round_half_up].
Qed.

Lemma calculateWPM_guarded_witness :
  let paused := log_at [5000; 5000] in
  let typed := log_at [1000; 13000; 25000] in
  calculateWPM paused = zero ∧
  to_int (calculateWPM typed) = Some 1 ∧
  calculateWPM typed =
    Math_round
      (num_div (num_div (of_int 3) (of_int 5))
               (num_div (num_sub (of_int 25000) (of_int 1000))
                        (of_int 60000))).
Proof.
  intros paused typed.
  pose proof (proj2 calculateWPM_guarded) as H.
  split; [|split].
  - apply (H paused (entry_at 5000) (entry_at 5000)); try done; simpl; lia.
  - by vm_compute.
  - apply (H typed (entry_at 1000) (entry_at 25000)); try done; simpl; lia.
Defined.

(** ** Average interval *)

Lemma interval_sum_cons e es :
  interval_sum (e :: es) = interval e + interval_sum es.
Proof. done. Qed.

(** The [reduce]: as long as the running sums stay small, the
    accumulator holds their exact value. *)
Lemma reduce_of_int a es :
  Z.abs a < 2 ^ 52 ->
  (∀ k, Z.abs (a + interval_sum (take k es)) < 2 ^ 52) ->
  foldl (λ acc curr, num_add acc (of_int (interval curr))) (of_int a) es =
  of_int (a + interval_sum es).
Proof.
  revert a. induction es as [|e es IH]; intros a Ha Hsums.
  - simpl. by rewrite Z.add_0_r.
  - assert (Z.abs (a + interval e) < 2 ^ 52) as H1.
    { specialize (Hsums 1%nat). simpl in Hsums.
      by rewrite Z.add_0_r in Hsums. }
    cbn [foldl]. rewrite num_add_of_int by lia.
    rewrite IH.
    + f_equal. rewrite interval_sum_cons. lia.
    + lia.
    + intros k. specialize (Hsums (S k)). cbn [take] in Hsums.
      rewrite interval_sum_cons in Hsums. by rewrite <- Z.add_assoc.
Qed.

Lemma avgInterval_exact es :
  es ≠ [] ->
  (∀ k, Z.abs (interval_sum (take k es)) < 2 ^ 52) ->
  Z.of_nat (length es) < 2 ^ 53 ->
  to_int (avgInterval es) = Some (round_half_up (mean_interval es)).
Proof.
  intros Hes Hsums Hlen.
  assert (0 < Z.of_nat (length es)) as Hpos by (destruct es; [done|simpl; lia]).
  unfold avgInterval, mean_interval.
  destruct (Nat.ltb_spec 0 (length es)) as [_|]; [|lia].
  change zero with (of_int 0).
  rewrite reduce_of_int, Z.add_0_l by (try lia; done).
  pose proof (Hsums (length es)) as Htotal. rewrite firstn_all in Htotal.
  rewrite Math_round_div by lia.
  by rewrite round_half_up_div.
Qed.

(** The intervals of a log add up to the time from its base to its
    newest entry. *)
Lemma intervals_from_sum base es :
  intervals_from base es ->
  interval_sum es = default base (timestamp <$> last es) - base.
Proof.
  revert base. induction es as [|e es IH]; intros base Hes.
  - simpl. lia.
  - destruct Hes as [He Hes].
    rewrite interval_sum_cons, (IH _ Hes), He, last_cons.
    destruct (last es); simpl; lia.
Qed.

Lemma intervals_from_take base es k :
  intervals_from base es -> intervals_from base (take k es).
Proof.
  revert base k. induction es as [|e es IH]; intros base [|k] Hes; try done.
  destruct Hes as [He Hes]. split; [done|]. by apply IH.
Qed.

(** While the clock reads between 0 and [2 ^ 52], the running sums of
    the intervals of the log stay below [2 ^ 52]. *)
Lemma run_sums_bounded t0 evs k :
  0 <= t0 < 2 ^ 52 ->
  Forall (λ t, 0 <= t < 2 ^ 52) (clock_readings evs) ->
  Z.abs (interval_sum (take k (entries (run (mount t0) evs)))) < 2 ^ 52.
Proof.
  intros Ht0 Hclock.
  destruct (run_tracker_bounded 0 (2 ^ 52) t0 evs Ht0 Hclock)
    as (_ & _ & _ & _ & Hts).
  destruct (run_intervals_from 0 (2 ^ 52) t0 evs) as [(base & Hbase & Hint) _];
    [unfold window; lia|done..|].
  rewrite (intervals_from_sum base _ (intervals_from_take base _ k Hint)).
  destruct (last (take k (entries (run (mount t0) evs)))) as [e|] eqn:Hlast;
    simpl; [|lia].
  assert (e ∈ entries (run (mount t0) evs)) as He.
  { apply last_Some in Hlast as [l' Hl'].
    rewrite <- (take_drop k (entries (run (mount t0) evs))), Hl',
      !elem_of_app, list_elem_of_singleton.
    by left; right. }
  rewrite Forall_forall in Hts. specialize (Hts e He). lia.
Qed.

(** C9, as stated, fails: the quotient is the one of binary64, and a
    quotient of [2 ^ 51] or more has no bit left for a fraction finer
    than a half.  Mounted at 0, three keys at the reading
    6755399441055745, a valid date, are stored with the intervals
    6755399441055745, 0 and 0; their mean, 2251799813685248 and a third,
    rounds to 2251799813685248, and [avgInterval] is
    2251799813685249. *)
Lemma avgInterval_off_the_rounded_mean :
  let log := entries (run (mount 0)
    [KeyDown (press "a" "KeyA") 6755399441055745 [];
     KeyDown (press "b" "KeyB") 6755399441055745 [];
     KeyDown (press "c" "KeyC") 6755399441055745 []]) in
  interval <$> log = [6755399441055745; 0; 0] ∧
  toISOString 6755399441055745 =
    Some (js "+216040-02-01T12:44:15.745Z") ∧
  to_int (avgInterval log) = Some 2251799813685249 ∧
  round_half_up (mean_interval log) = 2251799813685248 ∧
  ¬ (to_int (avgInterval log) = Some (round_half_up (mean_interval log))).
Proof. repeat split; by vm_compute. Qed.

(** C9, amended.  [avgInterval] is 0 for an empty log.  For a non-empty
    log it is the arithmetic mean of the stored intervals, rounded to
    the nearest integer, the larger one of two equally near, whenever
    the running sums of the intervals stay below [2 ^ 52] in magnitude
    (and the log has fewer than [2 ^ 53] entries).  That is the case of
    every log that the pipeline produces while the clock reads between 0
    and [2 ^ 52] ms. *)
Theorem avgInterval_rounded_mean :
  avgInterval [] = zero ∧
  (∀ es,
     es ≠ [] ->
     (∀ k, Z.abs (interval_sum (take k es)) < 2 ^ 52) ->
     Z.of_nat (length es) < 2 ^ 53 ->
     to_int (avgInterval es) = Some (round_half_up (mean_interval es))) ∧
  (∀ t0 evs,
     let log := entries (run (mount t0) evs) in
     0 <= t0 < 2 ^ 52 ->
     Forall (λ t, 0 <= t < 2 ^ 52) (clock_readings evs) ->
     log ≠ [] ->
     Z.of_nat (length log) < 2 ^ 53 ->
     to_int (avgInterval log) = Some (round_half_up (mean_interval log))).
Proof.
  split; [done|]. split; [exact avgInterval_exact|].
  intros t0 evs log Ht0 Hclock Hlog Hlen.
  apply avgInterval_exact; [done| |done].
  intros k. by apply run_sums_bounded.
Qed.

Lemma avgInterval_rounded_mean_witness :
  let evs :=
    [KeyDown (press "a" "KeyA") 1000 []; KeyDown (press "b" "KeyB") 1300 [];
     KeyDown (press "c" "KeyC") 1900 []] in
  let log := entries (run (mount 1000) evs) in
  interval <$> log = [0; 300; 600] ∧
  totalKeys log = 3%nat ∧
  (mean_interval log == 300)%Q ∧
  to_int (avgInterval log) = Some 300.
Proof.
  intros evs log. split; [done|]. split; [done|]. split; [done|].
  change (Some 300) with (Some (round_half_up (mean_interval log))).
  apply (proj2 (proj2 avgInterval_rounded_mean) 1000 evs); try done.
  simpl. repeat constructor; lia.
Defined.

(** ** Clearing the log *)

(** C8.  After [clearLogs], whatever the state before: the log is empty,
    so that the key count, the average interval and the words per minute
    are 0, and no analysis result is held.  Nothing of the discarded log
    or result remains: two states that differ only in them are equal
    after the clear. *)
Theorem clearLogs_resets :
  (∀ s, let s' := clearLogs s in
        entries s' = [] ∧ totalKeys (entries s') = 0%nat ∧
        avgInterval (entries s') = zero ∧
        calculateWPM (entries s') = zero ∧
        analysis s' = None) ∧
  (∀ s1 s2,
     isRecording s1 = isRecording s2 -> isAnalyzing s1 = isAnalyzing s2 ->
     lastKeyTime s1 = lastKeyTime s2 -> clearLogs s1 = clearLogs s2).
Proof.
  split; [done|]. intros s1 s2 Hr Ha Hl.
  unfold clearLogs. by rewrite Hr, Ha, Hl.
Qed.

Lemma clearLogs_resets_witness :
  let s1 := run (mount 1000)
    [KeyDown (press "a" "KeyA") 1100 []; KeyDown (press "b" "KeyB") 1300 []] in
  let s2 := run (mount 1000)
    [KeyDown (press "x" "KeyX") 1200 []; ToggleRecording; ToggleRecording;
     AnalysisSettled (Rejected []); KeyDown (press "b" "KeyB") 1300 []] in
  entries s1 ≠ entries s2 ∧ analysis s1 ≠ analysis s2 ∧
  clearLogs s1 = clearLogs s2.
Proof.
  intros s1 s2. split; [done|]. split; [done|].
  by apply (proj2 clearLogs_resets s1 s2).
Defined.

(** ** Failure of the analysis call *)

Lemma step_same_session s1 s2 ev :
  same_session s1 s2 -> same_session (fst (step s1 ev)) (fst (step s2 ev)).
Proof.
  intros H. pose proof H as (He & Hr & Hl).
  destruct ev as [e now rnd| | | |o]; cbn [step fst].
  - unfold handleKeyDown. rewrite <- Hr.
    destruct (isRecording s1) eqn:Hrec; simpl; [|done].
    unfold same_session. simpl. by rewrite He, Hl.
  - unfold same_session. simpl. by rewrite Hr.
  - done.
  - unfold runAnalysis. rewrite <- He.
    by destruct (length (entries s1) <? 5)%nat.
  - done.
Qed.

Lemma run_same_session s1 s2 evs :
  same_session s1 s2 -> same_session (run s1 evs) (run s2 evs).
Proof.
  revert s1 s2. induction evs as [|ev evs IH]; intros s1 s2 H; [done|].
  apply IH. by apply step_same_session.
Qed.

(** After a click on which the constructor threw, nothing on the page
    takes the component out of the in-flight state: the button is
    disabled and no request is outstanding that could settle. *)
Lemma ui_trace_stuck s evs :
  isAnalyzing s = true -> ui_trace 0 s evs ->
  isAnalyzing (run s evs) = true ∧ requests s evs = [] ∧
  (analysis (run s evs) = analysis s ∨ analysis (run s evs) = None).
Proof.
  revert s. induction evs as [|ev evs IH]; intros s Hbusy Htrace.
  { split; [done|]. split; [done|]. by left. }
  destruct Htrace as [Hev Htrace].
  change (run s (ev :: evs)) with (run (fst (step s ev)) evs).
  cbn [requests].
  destruct ev as [e now rnd| | |c|o].
  - cbn [step fst snd in_flight length app] in *.
    assert (handleKeyDown e now rnd s = s ∨
            (isAnalyzing (handleKeyDown e now rnd s) = true ∧
             analysis (handleKeyDown e now rnd s) = analysis s)) as Hk.
    { unfold handleKeyDown. destruct (isRecording s); simpl; auto. }
    destruct (IH (handleKeyDown e now rnd s)) as (H1 & H2 & H3);
      [destruct Hk as [Hk|[Hk _]]; by rewrite Hk|done|].
    split; [done|]. split; [done|].
    destruct Hk as [Hk|[_ Hk]].
    + rewrite Hk in H3 |- *. exact H3.
    + rewrite <- Hk. exact H3.
  - cbn [step fst snd in_flight length app] in *.
    by destruct (IH (toggleRecording s)) as (H1 & H2 & H3).
  - cbn [step fst snd in_flight length app] in *.
    destruct (IH (clearLogs s)) as (H1 & H2 & H3); [done..|].
    split; [done|]. split; [done|]. right. by destruct H3 as [->| ->].
  - unfold analysis_disabled in Hev. rewrite Hbusy, orb_true_r in Hev. done.
  - lia.
Qed.

(** C7.  When the request is rejected, whatever the error value,
    [analyzeKeystrokes] returns the one fixed message; [runAnalysis]
    stores it as the analysis result and clears the in-flight flag.  The
    log, the tracker and the recording flag are untouched, so the
    statistics are the same as before, and the session goes on as if the
    call had not been made: after any further events the log is the same
    as without the failure.

    The failure of the constructor of the client is not contained.  It
    is called before the [try]: when it throws, the promise of
    [analyzeKeystrokes] is rejected and no string is returned;
    [runAnalysis], which has set the in-flight flag, stores no result
    and never clears the flag.  The log is untouched, but on the page
    the analysis stays in progress whatever happens next: the button is
    disabled, no request is made and the panel keeps decoding.  So it is
    after five keys and a click. *)
Theorem analysis_failure_handling :
  (∀ generateContent es err,
     generateContent (extract es) = Rejected err ->
     analyzeKeystrokes (Some generateContent) es = Some failed_message) ∧
  (∀ err s, let s' := runAnalysis_resume (Rejected err) s in
     analysis s' = Some failed_message ∧ isAnalyzing s' = false ∧
     entries s' = entries s ∧ lastKeyTime s' = lastKeyTime s ∧
     isRecording s' = isRecording s ∧
     totalKeys (entries s') = totalKeys (entries s) ∧
     calculateWPM (entries s') = calculateWPM (entries s) ∧
     avgInterval (entries s') = avgInterval (entries s) ∧
     ∀ evs, entries (run s' evs) = entries (run s evs) ∧
            lastKeyTime (run s' evs) = lastKeyTime (run s evs)) ∧
  failed_message = js "Analysis failed due to an API error." ∧
  (∀ es, analyzeKeystrokes None es = None) ∧
  (∀ s, analysis_disabled s = false ->
     let s' := fst (runAnalysis false s) in
     snd (runAnalysis false s) = [] ∧
     isAnalyzing s' = true ∧ analysis s' = analysis s ∧
     same_session s s' ∧
     ∀ evs, ui_trace 0 s' evs ->
       isAnalyzing (run s' evs) = true ∧
       analysis_disabled (run s' evs) = true ∧
       panel (run s' evs) = Decoding ∧
       requests s' evs = [] ∧
       (analysis (run s' evs) = analysis s ∨
        analysis (run s' evs) = None)) ∧
  (let s := run (mount 0)
     (keydowns (replicate 5 (press "a" "KeyA", 7%Z, [])) ++
      [RunAnalysis false]) in
   length (entries s) = 5%nat ∧ analysis s = None ∧
   isAnalyzing s = true ∧ panel s = Decoding ∧
   analysis_disabled s = true ∧
   requests (mount 0)
     (keydowns (replicate 5 (press "a" "KeyA", 7%Z, [])) ++
      [RunAnalysis false]) = []).
Proof.
  split; [|split; [|split; [done|split; [done|split; [|done]]]]].
  - intros generateContent es err H. unfold analyzeKeystrokes. simpl.
    by rewrite H.
  - intros err s s'. repeat split.
    + by destruct (run_same_session s' s evs) as (H & _).
    + by destruct (run_same_session s' s evs) as (_ & _ & H).
  - intros s Hen s'. unfold analysis_disabled in Hen.
    apply orb_false_iff in Hen as [Hlen Hidle].
    assert (s' = {| entries := entries s; isRecording := isRecording s;
                    analysis := analysis s; isAnalyzing := true;
                    lastKeyTime := lastKeyTime s |}) as Hs'
      by (unfold s', runAnalysis; by rewrite Hlen).
    split; [unfold runAnalysis; by rewrite Hlen|].
    split; [by rewrite Hs'|]. split; [by rewrite Hs'|].
    split; [by rewrite Hs'|].
    intros evs Htrace.
    destruct (ui_trace_stuck s' evs) as (Hbusy & Hreq & Hres);
      [by rewrite Hs'|done|].
    split; [done|].
    split; [unfold analysis_disabled; by rewrite Hbusy, orb_true_r|].
    split; [unfold panel; by rewrite Hbusy|].
    split; [done|].
    assert (analysis s' = analysis s) as Ha by (by rewrite Hs').
    rewrite Ha in Hres. exact Hres.
Qed.

(** ** The log along a run *)

Lemma run_cons s ev evs :
  run s (ev :: evs) = run (fst (step s ev)) evs.
Proof. done. Qed.

Lemma run_keydowns_paused s ks :
  isRecording s = false -> run s (keydowns ks) = s.
Proof.
  intros Hrec. induction ks as [|k ks IH]; [done|].
  unfold keydowns. rewrite fmap_cons, run_cons. cbn [step fst].
  by rewrite handleKeyDown_paused.
Qed.

Lemma toggleRecording_involutive s :
  toggleRecording (toggleRecording s) = s.
Proof. destruct s as [es r a b t]. unfold toggleRecording. simpl.
  by rewrite negb_involutive. Qed.

(** X1.  Keys pressed while capture is paused leave no trace: a pause,
    any number of key events and a resume bring the component back to
    the state it was in.  Neither the log nor the tracker moves, so the
    entry of the next key has its interval counted from the last key
    recorded before the pause. *)
Theorem pause_resume_invisible s ks :
  isRecording s = true ->
  run s (ToggleRecording :: keydowns ks ++ [ToggleRecording]) = s ∧
  ∀ e now rnd,
    run s (ToggleRecording :: keydowns ks ++
             [ToggleRecording; KeyDown e now rnd]) =
      handleKeyDown e now rnd s ∧
    last (entries (run s (ToggleRecording :: keydowns ks ++
                            [ToggleRecording; KeyDown e now rnd]))) =
      Some {| id := rnd; key := KeyboardEvent.key e;
              code := KeyboardEvent.code e; timestamp := now;
              interval := minus now (lastKeyTime s);
              type := classify (KeyboardEvent.key e) |}.
Proof.
  intros Hrec.
  assert (run s (ToggleRecording :: keydowns ks ++ [ToggleRecording]) = s)
    as Hback.
  { rewrite run_cons. cbn [step fst]. rewrite run_app.
    rewrite run_keydowns_paused by (simpl; by rewrite Hrec).
    apply toggleRecording_involutive. }
  split; [done|]. intros e now rnd.
  replace (ToggleRecording :: keydowns ks ++
             [ToggleRecording; KeyDown e now rnd])
    with ((ToggleRecording :: keydowns ks ++ [ToggleRecording]) ++
          [KeyDown e now rnd])
    by (by rewrite <- app_comm_cons, <- app_assoc).
  rewrite run_snoc, Hback. cbn [step fst]. split; [done|].
  destruct (handleKeyDown_recording e now rnd s Hrec) as (-> & _).
  by rewrite last_snoc.
Qed.

Lemma pause_resume_invisible_witness :
  run (mount 1000)
    (ToggleRecording ::
       keydowns [(press "a" "KeyA", 1200, []); (press "b" "KeyB", 1500, [])]
       ++ [ToggleRecording]) = mount 1000.
Proof.
  apply (pause_resume_invisible (mount 1000)
           [(press "a" "KeyA", 1200, []); (press "b" "KeyB", 1500, [])]).
  reflexivity.
Defined.

Lemma step_entries s ev :
  ev ≠ ClearLogs ->
  entries (fst (step s ev)) =
  entries s ++
    match ev with
    | KeyDown e now rnd =>
        if isRecording s
        then [ {| id := rnd; key := KeyboardEvent.key e;
                  code := KeyboardEvent.code e; timestamp := now;
                  interval := minus now (lastKeyTime s);
                  type := classify (KeyboardEvent.key e) |} ]
        else []
    | _ => []
    end.
Proof.
  intros Hev. destruct ev as [e now rnd| | |c|o]; cbn [step fst];
    try done; try (by rewrite app_nil_r).
  - unfold handleKeyDown. destruct (isRecording s); simpl;
      [done|by rewrite app_nil_r].
  - unfold runAnalysis. rewrite app_nil_r.
    by destruct (length (entries s) <? 5)%nat.
Qed.

Lemma step_isRecording s ev :
  isRecording (fst (step s ev)) =
  match ev with
  | ToggleRecording => negb (isRecording s)
  | _ => isRecording s
  end.
Proof.
  destruct ev as [e now rnd| | |c|o]; cbn [step fst]; try done.
  - unfold handleKeyDown. by destruct (isRecording s) eqn:Hrec.
  - unfold runAnalysis. by destruct (length (entries s) <? 5)%nat.
Qed.

(** X2.  Between two clears the log only grows, at its end: along a
    trace without a clear, the log at the start is a prefix of the log
    at the end, and the time stamps appended are the clock readings of
    the key events that arrived while capture was on, in their order. *)
Theorem log_append_only s evs :
  ClearLogs ∉ evs ->
  entries s `prefix_of` entries (run s evs) ∧
  timestamp <$> entries (run s evs) =
    (timestamp <$> entries s) ++ recorded (isRecording s) evs.
Proof.
  revert s. induction evs as [|ev evs IH]; intros s Hevs.
  - simpl. split; [done|]. by rewrite app_nil_r.
  - apply not_elem_of_cons in Hevs as [Hev Hevs].
    rewrite run_cons. destruct (IH (fst (step s ev)) Hevs) as [Hpre Hts].
    assert (ev ≠ ClearLogs) as Hev' by congruence.
    split.
    + etrans; [|exact Hpre]. rewrite step_entries by done.
      by apply prefix_app_r.
    + rewrite Hts, step_entries, step_isRecording by done.
      rewrite fmap_app, <- app_assoc. f_equal.
      destruct ev as [e now rnd| | |c|o]; cbn [recorded]; try done.
      by destruct (isRecording s).
Qed.

Lemma log_append_only_witness :
  entries (mount 0) `prefix_of`
    entries (run (mount 0) [KeyDown (press "a" "KeyA") 5 []; RunAnalysis true]) ∧
  timestamp <$>
    entries (run (mount 0) [KeyDown (press "a" "KeyA") 5 []; RunAnalysis true]) =
  (timestamp <$> entries (mount 0)) ++
    recorded (isRecording (mount 0))
      [KeyDown (press "a" "KeyA") 5 []; RunAnalysis true].
Proof.
  apply (log_append_only (mount 0)
           [KeyDown (press "a" "KeyA") 5 []; RunAnalysis true]).
  intros H. by repeat (apply elem_of_cons in H as [H|H]; [done|]);
    apply elem_of_nil in H.
Defined.

(** X3.  Every entry of the log carries the category that the classifier
    gives to its key: no handler stores an entry built otherwise, and
    none rewrites one. *)
Theorem entries_are_classified t0 evs :
  Forall (λ e, type e = classify (key e))
         (entries (run (mount t0) evs)).
Proof.
  induction evs as [|ev evs IH] using rev_ind; [by constructor|].
  rewrite run_snoc. destruct ev as [e now rnd| | |c|o]; cbn [step fst].
  - destruct (isRecording (run (mount t0) evs)) eqn:Hrec.
    + destruct (handleKeyDown_recording e now rnd _ Hrec) as (-> & _).
      apply Forall_app. split; [done|]. by apply Forall_singleton.
    + by rewrite handleKeyDown_paused.
  - done.
  - by constructor.
  - unfold runAnalysis.
    by destruct (length (entries (run (mount t0) evs)) <? 5)%nat.
  - done.
Qed.

(** ** Time stamps under a clock that never runs backwards *)

Lemma monotonic_from_snoc t ts x :
  monotonic_from t ts -> default t (last ts) <= x ->
  monotonic_from t (ts ++ [x]).
Proof.
  revert t. induction ts as [|t1 ts IH]; intros t Hts Hx.
  - simpl in *. done.
  - destruct Hts as [H1 Hts]. split; [done|]. apply IH; [done|].
    rewrite last_cons in Hx. by destruct (last ts).
Qed.

Lemma monotonic_from_ends t ts x y :
  monotonic_from t ts -> head ts = Some x -> last ts = Some y ->
  t <= x <= y.
Proof.
  revert t x. induction ts as [|t1 ts IH]; intros t x Hts Hx Hy; [done|].
  destruct Hts as [H1 Hts]. injection Hx as <-.
  rewrite last_cons in Hy. destruct (last ts) as [z|] eqn:Hz.
  - injection Hy as <-. destruct ts as [|t2 ts]; [done|].
    specialize (IH t1 t2 Hts eq_refl eq_refl).
    destruct Hts as [H2 _]. lia.
  - injection Hy as <-. lia.
Qed.

Lemma run_timestamps_monotonic t0 s t evs :
  monotonic_from t0 (timestamp <$> entries s) ->
  default t0 (last (timestamp <$> entries s)) <= t ->
  monotonic_from t (clock_readings evs) ->
  monotonic_from t0 (timestamp <$> entries (run s evs)).
Proof.
  revert s t. induction evs as [|ev evs IH]; intros s t Hs Hlast Hmono;
    [done|].
  rewrite run_cons.
  destruct ev as [e now rnd| | |c|o]; cbn [step fst].
  - destruct Hmono as [Hnow Hmono].
    destruct (isRecording s) eqn:Hrec.
    + apply (IH _ now); [| |done];
        destruct (handleKeyDown_recording e now rnd s Hrec) as (-> & _);
        rewrite fmap_app, list_fmap_singleton; cbn [timestamp].
      * apply monotonic_from_snoc; [done|]. lia.
      * by rewrite last_snoc.
    + rewrite handleKeyDown_paused by done.
      apply (IH _ now); [done|lia|done].
  - by apply (IH _ t).
  - apply (IH _ t); [done| |done]. simpl.
    destruct (last (timestamp <$> entries s)) as [x|] eqn:Hx;
      simpl in Hlast; [|done].
    destruct (entries s) as [|e1 es] eqn:Hes; [done|].
    pose proof (monotonic_from_ends _ _ _ _ Hs eq_refl Hx). lia.
  - apply (IH _ t); unfold runAnalysis;
      by destruct (length (entries s) <? 5)%nat.
  - by apply (IH _ t).
Qed.

(** X4.  While the clock never runs backwards, the log is in
    chronological order: its time stamps never decrease from one entry
    to the next and none precedes the mount.  The duration that the wpm
    computation takes between the oldest and the newest entry is then
    never negative. *)
Theorem timestamps_chronological t0 evs :
  monotonic_from t0 (clock_readings evs) ->
  monotonic_from t0 (timestamp <$> entries (run (mount t0) evs)) ∧
  ∀ oldest newest,
    head (entries (run (mount t0) evs)) = Some oldest ->
    last (entries (run (mount t0) evs)) = Some newest ->
    t0 <= timestamp oldest ∧ 0 <= timestamp newest - timestamp oldest.
Proof.
  intros Hclock.
  assert (monotonic_from t0 (timestamp <$> entries (run (mount t0) evs)))
    as Hmono.
  { apply (run_timestamps_monotonic t0 (mount t0) t0); [done|simpl; lia|done]. }
  split; [done|]. intros oldest newest Hhead Hlast.
  pose proof (monotonic_from_ends t0 _ (timestamp oldest) (timestamp newest)
                Hmono) as Hends.
  rewrite fmap_last, Hlast in Hends.
  destruct (entries (run (mount t0) evs)) as [|e1 es]; [done|].
  injection Hhead as ->. specialize (Hends eq_refl eq_refl). lia.
Qed.

Lemma timestamps_chronological_witness :
  monotonic_from 0
    (timestamp <$>
       entries (run (mount 0)
                  [KeyDown (press "a" "KeyA") 5 []; ClearLogs;
                   KeyDown (press "b" "KeyB") 5 [];
                   KeyDown (press "c" "KeyC") 9 []])).
Proof.
  apply (timestamps_chronological 0
           [KeyDown (press "a" "KeyA") 5 []; ClearLogs;
            KeyDown (press "b" "KeyB") 5 [];
            KeyDown (press "c" "KeyC") 9 []]).
  simpl. lia.
Defined.

(** X5.  As long as the log is not cleared and the clock readings are
    time values less than [2 ^ 53] ms apart, so that every subtraction
    of the handler is exact, the intervals of the log add up to the time
    elapsed from the mount to the newest recorded key, which is the
    value of the tracker: the total depends on the first and the last
    instant only, pauses included. *)
Theorem interval_sum_telescopes lo hi t0 evs :
  window lo hi -> lo <= t0 < hi ->
  Forall (λ t, lo <= t < hi) (clock_readings evs) ->
  ClearLogs ∉ evs ->
  interval_sum (entries (run (mount t0) evs)) =
    lastKeyTime (run (mount t0) evs) - t0.
Proof.
  intros Hw Ht0 Hclock Hevs.
  destruct (run_tracker_ok t0 (mount t0) evs Hevs (mount_tracker_ok t0))
    as [_ Hlast].
  destruct (run_intervals_from lo hi t0 evs Hw Ht0 Hclock) as [_ Hint].
  by rewrite (intervals_from_sum t0), Hlast; [|apply Hint].
Qed.

Lemma interval_sum_telescopes_witness :
  interval_sum
    (entries (run (mount 100)
                [KeyDown (press "a" "KeyA") 130 []; ToggleRecording;
                 KeyDown (press "b" "KeyB") 150 []; ToggleRecording;
                 KeyDown (press "c" "KeyC") 190 []])) =
  lastKeyTime
    (run (mount 100)
       [KeyDown (press "a" "KeyA") 130 []; ToggleRecording;
        KeyDown (press "b" "KeyB") 150 []; ToggleRecording;
        KeyDown (press "c" "KeyC") 190 []]) - 100.
Proof.
  apply (interval_sum_telescopes 0 (2 ^ 53) 100
           [KeyDown (press "a" "KeyA") 130 []; ToggleRecording;
            KeyDown (press "b" "KeyB") 150 []; ToggleRecording;
            KeyDown (press "c" "KeyC") 190 []]).
  - unfold window. lia.
  - lia.
  - simpl. repeat constructor; lia.
  - intros H. by repeat (apply elem_of_cons in H as [H|H]; [done|]);
      apply elem_of_nil in H.
Defined.

(** ** The analysis service and its panel *)

Lemma settle_nonempty o : settle o ≠ [].
Proof. by destruct o as [[[|c t]|]|err]. Qed.

(** X6.  [analyzeKeystrokes] never yields the empty string.  With a
    client at hand it returns the text of the response whenever the
    request is fulfilled with a non-empty text, and one of its two fixed
    messages in every other case: the first when the text is missing or
    empty, the second when the request is rejected. *)
Theorem analyzeKeystrokes_result generateContent es :
  (∀ GoogleGenAI, analyzeKeystrokes GoogleGenAI es ≠ Some []) ∧
  (∀ c text, generateContent (extract es) = Fulfilled (Some (c :: text)) ->
     analyzeKeystrokes (Some generateContent) es = Some (c :: text)) ∧
  (generateContent (extract es) = Fulfilled None ∨
   generateContent (extract es) = Fulfilled (Some []) ->
     analyzeKeystrokes (Some generateContent) es = Some unable_message) ∧
  (∀ err, generateContent (extract es) = Rejected err ->
     analyzeKeystrokes (Some generateContent) es = Some failed_message).
Proof.
  unfold analyzeKeystrokes. split.
  - intros [g|]; simpl; [|done]. intros H. apply (inj Some) in H.
    by apply settle_nonempty in H.
  - simpl. split; [by intros c text ->|].
    split; [by intros [-> | ->]|by intros err ->].
Qed.

(** X7.  Once a request has settled the panel shows a report, whatever
    the outcome: the response text, or one of the two fixed messages.
    The invitation to capture five keys is shown again only after a
    clear. *)
Theorem panel_after_settlement o s :
  panel (runAnalysis_resume o s) = Report (settle o) ∧
  (∀ evs, ClearLogs ∉ evs ->
     panel (run (runAnalysis_resume o s) evs) ≠ Placeholder).
Proof.
  assert (∀ s', isAnalyzing s' = true ∨ (∃ c t, analysis s' = Some (c :: t)) ->
            panel s' ≠ Placeholder) as Hshow.
  { intros s' [H|(c & t & H)]; unfold panel.
    - by rewrite H.
    - rewrite H. by destruct (isAnalyzing s'). }
  split.
  - unfold panel. cbn [runAnalysis_resume isAnalyzing analysis].
    pose proof (settle_nonempty o). by destruct (settle o).
  - intros evs Hevs. apply Hshow.
    induction evs as [|ev evs IH] using rev_ind.
    + right. cbn [run foldl runAnalysis_resume analysis].
      pose proof (settle_nonempty o). destruct (settle o) as [|c t]; [done|].
      by exists c, t.
    + apply not_elem_of_app in Hevs as [Hevs Hev].
      rewrite list_elem_of_singleton in Hev.
      specialize (IH Hevs). rewrite run_snoc.
      destruct ev as [e now rnd| | |c|o']; cbn [step fst].
      * unfold handleKeyDown.
        by destruct (isRecording (run (runAnalysis_resume o s) evs)).
      * done.
      * done.
      * unfold runAnalysis.
        destruct (length _ <? 5)%nat; [done|]. by left.
      * right. cbn [runAnalysis_resume analysis].
        pose proof (settle_nonempty o'). destruct (settle o') as [|c t]; [done|].
        by exists c, t.
Qed.

(** ** Requests in flight *)

(** X8.  On the page at most one request is in flight.  Along every
    trace in which the analysis handler runs only when its button is
    enabled, the number of requests sent and not yet settled is at most
    1, and it is 0 whenever [isAnalyzing] is clear; in particular no
    request is sent while another one is outstanding.  It is exactly 1
    while [isAnalyzing] is set as long as the constructor of the client
    never threw; after a click on which it threw, the flag is set and
    no request is in flight. *)
Theorem one_request_in_flight t0 evs :
  ui_trace 0 (mount t0) evs ->
  (in_flight 0 (mount t0) evs <=
     (if isAnalyzing (run (mount t0) evs) then 1 else 0))%nat ∧
  (RunAnalysis false ∉ evs ->
   in_flight 0 (mount t0) evs =
     (if isAnalyzing (run (mount t0) evs) then 1 else 0)%nat).
Proof.
  assert (∀ s p, (p <= (if isAnalyzing s then 1 else 0))%nat ->
            ui_trace p s evs ->
            (in_flight p s evs <=
               (if isAnalyzing (run s evs) then 1 else 0))%nat) as Hle.
  { induction evs as [|ev evs IH]; intros s p Hp Htrace; [done|].
    destruct Htrace as [Hev Htrace]. rewrite run_cons.
    cbn [in_flight] in *. apply IH; [|done].
    destruct ev as [e now rnd| | |c|o]; cbn [step fst snd length].
    - rewrite Nat.add_0_r. unfold handleKeyDown.
      by destruct (isRecording s).
    - by rewrite Nat.add_0_r.
    - by rewrite Nat.add_0_r.
    - unfold analysis_disabled in Hev.
      apply orb_false_iff in Hev as [Hlen Hbusy].
      rewrite Hbusy in Hp.
      unfold runAnalysis. rewrite Hlen. destruct c; simpl; lia.
    - simpl. destruct (isAnalyzing s); lia. }
  assert (∀ s p, p = (if isAnalyzing s then 1 else 0)%nat ->
            RunAnalysis false ∉ evs -> ui_trace p s evs ->
            in_flight p s evs =
              (if isAnalyzing (run s evs) then 1 else 0)%nat) as Heq.
  { clear Hle. induction evs as [|ev evs IH]; intros s p Hp Hthrow Htrace;
      [done|].
    apply not_elem_of_cons in Hthrow as [Hev' Hthrow].
    destruct Htrace as [Hev Htrace]. rewrite run_cons.
    cbn [in_flight] in *. apply IH; [|done..].
    destruct ev as [e now rnd| | |c|o]; cbn [step fst snd length].
    - rewrite Nat.add_0_r, Hp. unfold handleKeyDown.
      by destruct (isRecording s).
    - by rewrite Nat.add_0_r, Hp.
    - by rewrite Nat.add_0_r, Hp.
    - unfold analysis_disabled in Hev.
      apply orb_false_iff in Hev as [Hlen Hbusy].
      destruct c; [|done].
      unfold runAnalysis. rewrite Hlen, Hp, Hbusy. done.
    - destruct (isAnalyzing s); [by rewrite Hp|lia]. }
  intros Htrace. split.
  - apply Hle; [simpl; lia|done].
  - intros Hthrow. by apply Heq.
Qed.

Lemma one_request_in_flight_witness :
  (in_flight 0 (mount 0)
     (keydowns (replicate 5 (press "a" "KeyA", 7%Z, [])) ++
      [RunAnalysis false; ClearLogs]) <=
   (if isAnalyzing
         (run (mount 0)
            (keydowns (replicate 5 (press "a" "KeyA", 7%Z, [])) ++
             [RunAnalysis false; ClearLogs]))
    then 1 else 0))%nat ∧
  in_flight 0 (mount 0)
    (keydowns (replicate 5 (press "a" "KeyA", 7%Z, [])) ++
     [RunAnalysis true; ClearLogs; AnalysisSettled (Fulfilled None)]) =
  (if isAnalyzing
        (run (mount 0)
           (keydowns (replicate 5 (press "a" "KeyA", 7%Z, [])) ++
            [RunAnalysis true; ClearLogs; AnalysisSettled (Fulfilled None)]))
   then 1 else 0)%nat.
Proof.
  split.
  - apply (one_request_in_flight 0
             (keydowns (replicate 5 (press "a" "KeyA", 7%Z, [])) ++
              [RunAnalysis false; ClearLogs])).
    simpl. repeat split; lia.
  - apply (one_request_in_flight 0
             (keydowns (replicate 5 (press "a" "KeyA", 7%Z, [])) ++
              [RunAnalysis true; ClearLogs; AnalysisSettled (Fulfilled None)])).
    + simpl. repeat split; lia.
    + intros H. simpl in H.
      by repeat (apply elem_of_cons in H as [H|H]; [done|]);
        apply elem_of_nil in H.
Defined.

(** X9.  A clear does not cancel an outstanding request.  When the log
    is cleared between the click and the settlement, the request that
    was sent still describes the discarded log, the button stays
    disabled until it settles, and its report is then shown over the
    empty log. *)
Theorem clear_keeps_outstanding_request s o :
  analysis_disabled s = false ->
  requests s [RunAnalysis true; ClearLogs; AnalysisSettled o] =
    [extract (entries s)] ∧
  analysis_disabled (run s [RunAnalysis true; ClearLogs]) = true ∧
  panel (run s [RunAnalysis true; ClearLogs]) = Decoding ∧
  entries (run s [RunAnalysis true; ClearLogs; AnalysisSettled o]) = [] ∧
  panel (run s [RunAnalysis true; ClearLogs; AnalysisSettled o]) =
    Report (settle o).
Proof.
  intros Hen. unfold analysis_disabled in Hen.
  apply orb_false_iff in Hen as [Hlen Hbusy].
  unfold run, panel, analysis_disabled.
  cbn [requests foldl step fst snd]. unfold runAnalysis. rewrite Hlen.
  cbn [fst snd clearLogs runAnalysis_resume entries isAnalyzing analysis
       app length].
  split; [done|]. split; [done|]. split; [done|]. split; [done|].
  pose proof (settle_nonempty o). by destruct (settle o).
Qed.

Lemma clear_keeps_outstanding_request_witness :
  entries
    (run (run (mount 0) (keydowns (replicate 5 (press "a" "KeyA", 7%Z, []))))
       [RunAnalysis true; ClearLogs; AnalysisSettled (Rejected [])]) = [].
Proof.
  apply (clear_keeps_outstanding_request
           (run (mount 0) (keydowns (replicate 5 (press "a" "KeyA", 7%Z, []))))
           (Rejected [])).
  reflexivity.
Defined.

(** ** The payload of later requests *)

(** X10.  Only the oldest fifty intervals are ever sent.  Once the log
    holds fifty entries, every request made before the next clear carries
    the same timings, those of the first fifty entries, however many keys
    are recorded afterwards. *)
Theorem timings_frozen_after_fifty s evs :
  (50 <= length (entries s))%nat -> ClearLogs ∉ evs ->
  Forall (λ p, timings p = take 50 (interval <$> entries s))
         (requests s evs).
Proof.
  intros Hlen Hevs.
  assert (∀ s', entries s `prefix_of` entries s' ->
            timings (extract (entries s')) =
            take 50 (interval <$> entries s)) as Hsame.
  { intros s' [k ->]. cbn [extract timings].
    rewrite fmap_app, take_app_le by (rewrite length_fmap; lia). done. }
  assert (∀ s', entries s `prefix_of` entries s' ->
            Forall (λ p, timings p = take 50 (interval <$> entries s))
                   (requests s' evs)) as Hgen.
  { induction evs as [|ev evs IH]; intros s' Hpre; [by constructor|].
    apply not_elem_of_cons in Hevs as [Hev Hevs].
    cbn [requests]. apply Forall_app. split.
    - destruct ev as [e now rnd| | |c|o]; cbn [step snd];
        try by constructor.
      unfold runAnalysis. destruct (length (entries s') <? 5)%nat;
        [by constructor|].
      destruct c; [|by constructor].
      apply Forall_singleton. by apply Hsame.
    - apply IH; [done|]. etrans; [exact Hpre|].
      rewrite step_entries by congruence. by apply prefix_app_r. }
  by apply Hgen.
Qed.

Lemma timings_frozen_after_fifty_witness :
  Forall (λ p, timings p =
               take 50 (interval <$>
                        entries (run (mount 0)
                                   (keydowns (replicate 50
                                      (press "a" "KeyA", 7%Z, []))))))
    (requests (run (mount 0)
                 (keydowns (replicate 50 (press "a" "KeyA", 7%Z, []))))
       [KeyDown (press "b" "KeyB") 99 []; RunAnalysis true]).
Proof.
  apply (timings_frozen_after_fifty
           (run (mount 0) (keydowns (replicate 50 (press "a" "KeyA", 7%Z, []))))
           [KeyDown (press "b" "KeyB") 99 []; RunAnalysis true]).
  - vm_compute. lia.
  - intros H. by repeat (apply elem_of_cons in H as [H|H]; [done|]);
      apply elem_of_nil in H.
Defined.

(** ** What the statistics read *)

(** X11.  The wpm figure reads the log through its length and the time
    stamps of its first and last entries only: two logs that agree on
    these three have the same figure, whatever keys they hold and
    however the other entries are spread in time. *)
Theorem calculateWPM_reads_ends es es' :
  length es = length es' ->
  timestamp <$> head es = timestamp <$> head es' ->
  timestamp <$> last es = timestamp <$> last es' ->
  calculateWPM es = calculateWPM es'.
Proof.
  intros Hlen Hhead Hlast.
  destruct es as [|e1 es]; destruct es' as [|e1' es']; try done.
  destruct (last (e1 :: es)) as [n|] eqn:Hn;
    [|by rewrite last_cons in Hn; destruct (last es)].
  destruct (last (e1' :: es')) as [n'|] eqn:Hn';
    [|by rewrite last_cons in Hn'; destruct (last es')].
  rewrite (calculateWPM_unfold (e1 :: es) e1 n) by done.
  rewrite (calculateWPM_unfold (e1' :: es') e1' n') by done.
  simpl in Hhead, Hlast. injection Hhead as ->. injection Hlast as ->.
  by rewrite Hlen.
Qed.

Lemma calculateWPM_reads_ends_witness :
  calculateWPM (log_at [0; 10; 20; 60000]) =
  calculateWPM [entry_of "x" 0 0; entry_of "Enter" 59000 5;
                entry_of "1" 100 (-3); entry_of "y" 60000 0].
Proof.
  apply (calculateWPM_reads_ends (log_at [0; 10; 20; 60000])
           [entry_of "x" 0 0; entry_of "Enter" 59000 5;
            entry_of "1" 100 (-3); entry_of "y" 60000 0]);
    reflexivity.
Defined.

(** X12.  The interval that the handler stores is the one that the
    subtraction of the two clock readings gives in binary64: for
    readings that are integers below [2 ^ 53] in magnitude, as every
    time value is, the number [now - lastKeyTime.current] is the integer
    stored.  For readings less than [2 ^ 53] apart, as those in the
    range of [Date.now()] are, it is the integer difference, computed
    without rounding. *)
Theorem interval_is_number_difference e now rnd s :
  isRecording s = true ->
  Z.abs now < 2 ^ 53 -> Z.abs (lastKeyTime s) < 2 ^ 53 ->
  ∃ newEntry,
    last (entries (handleKeyDown e now rnd s)) = Some newEntry ∧
    to_int (num_sub (of_int now) (of_int (lastKeyTime s))) =
      Some (interval newEntry) ∧
    (Z.abs (now - lastKeyTime s) < 2 ^ 53 ->
     interval newEntry = now - lastKeyTime s ∧
     of_int (interval newEntry) =
       num_sub (of_int now) (of_int (lastKeyTime s))).
Proof.
  intros Hrec Hnow Hlast.
  destruct (handleKeyDown_recording e now rnd s Hrec) as (-> & _).
  eexists. rewrite last_snoc. split; [done|]. cbn [interval].
  split; [by apply minus_num_sub|].
  intros Hd. rewrite minus_exact by done. split; [done|].
  by rewrite num_sub_of_int.
Qed.

Lemma interval_is_number_difference_witness :
  ∃ newEntry,
    last (entries (handleKeyDown (press "a" "KeyA") 1700000000123 []
                     (mount 1700000000000))) = Some newEntry ∧
    to_int (num_sub (of_int 1700000000123)
                    (of_int (lastKeyTime (mount 1700000000000)))) =
      Some (interval newEntry) ∧
    (Z.abs (1700000000123 - lastKeyTime (mount 1700000000000)) < 2 ^ 53 ->
     interval newEntry = 1700000000123 - lastKeyTime (mount 1700000000000) ∧
     of_int (interval newEntry) =
       num_sub (of_int 1700000000123)
               (of_int (lastKeyTime (mount 1700000000000)))).
Proof.
  apply (interval_is_number_difference (press "a" "KeyA") 1700000000123 []
           (mount 1700000000000)); [reflexivity|simpl; lia..].
Defined.

(** ** Dates: proofs *)

Lemma DayFromYear_succ y : DayFromYear (y + 1) = DayFromYear y + DaysInYear y.
Proof.
  unfold DayFromYear, DaysInYear.
  destruct (Z.eqb_spec (y mod 4) 0), (Z.eqb_spec (y mod 100) 0),
    (Z.eqb_spec (y mod 400) 0); cbn [negb]; Z.div_mod_to_equations; lia.
Qed.

Lemma DaysInYear_cases y : DaysInYear y = 365 ∨ DaysInYear y = 366.
Proof.
  unfold DaysInYear.
  destruct (y mod 4 =? 0), (y mod 100 =? 0), (y mod 400 =? 0); cbn [negb];
    auto.
Qed.

Lemma DayFromYear_mono y y' : y <= y' -> DayFromYear y <= DayFromYear y'.
Proof. unfold DayFromYear. Z.div_mod_to_equations. lia. Qed.

Lemma DayFromYear_lt y y' : y < y' -> DayFromYear y < DayFromYear y'.
Proof. unfold DayFromYear. Z.div_mod_to_equations. lia. Qed.

(** The defining property of [YearFromTime]: the year starts at or
    before [t] and the next one after it. *)
Lemma YearFromTime_spec t :
  DayFromYear (YearFromTime t) <= Day t < DayFromYear (YearFromTime t + 1).
Proof.
  unfold YearFromTime. set (d := Day t).
  set (y := 1970 + d * 400 / 146097).
  assert (DayFromYear (y - 1) <= d < DayFromYear (y + 2)) as Hest.
  { unfold DayFromYear. subst y. Z.div_mod_to_equations. lia. }
  destruct (Z.leb_spec (DayFromYear (y + 1)) d) as [H1|H1].
  { replace (y + 1 + 1) with (y + 2) by lia. lia. }
  destruct (Z.leb_spec (DayFromYear y) d) as [H0|H0]; [lia|].
  replace (y - 1 + 1) with y by lia. lia.
Qed.

Lemma DayWithinYear_range t :
  0 <= DayWithinYear t < DaysInYear (YearFromTime t).
Proof.
  unfold DayWithinYear. pose proof (YearFromTime_spec t) as H.
  rewrite DayFromYear_succ in H. lia.
Qed.

Lemma InLeapYear_cases t :
  (InLeapYear t = 0 ∧ DaysInYear (YearFromTime t) = 365) ∨
  (InLeapYear t = 1 ∧ DaysInYear (YearFromTime t) = 366).
Proof.
  unfold InLeapYear.
  destruct (DaysInYear_cases (YearFromTime t)) as [-> | ->]; auto.
Qed.

(** The year in terms of the day. *)
Lemma YearFromTime_le t y : y <= YearFromTime t ↔ DayFromYear y <= Day t.
Proof.
  pose proof (YearFromTime_spec t) as [Hlo Hhi]. split.
  - intros H. pose proof (DayFromYear_mono _ _ H). lia.
  - intros H. destruct (Z.le_gt_cases y (YearFromTime t)) as [|Hgt]; [done|].
    pose proof (DayFromYear_mono (YearFromTime t + 1) y ltac:(lia)). lia.
Qed.

Lemma YearFromTime_unique t y :
  DayFromYear y <= Day t < DayFromYear (y + 1) -> YearFromTime t = y.
Proof.
  intros [Hlo Hhi]. apply Z.le_antisymm.
  - destruct (Z.le_gt_cases (YearFromTime t) y) as [|Hgt]; [done|].
    assert (y + 1 <= YearFromTime t) as H by lia.
    apply YearFromTime_le in H. lia.
  - by apply YearFromTime_le.
Qed.

Lemma YearFromTime_bounds tv :
  Z.abs tv <= 8640000000000000 -> -271821 <= YearFromTime tv <= 275760.
Proof.
  intros Htv.
  assert (-100000000 <= Day tv <= 100000000) as Hday.
  { unfold Day, msPerDay. Z.div_mod_to_equations. lia. }
  pose proof (YearFromTime_spec tv) as [Hlo Hhi]. split.
  - apply YearFromTime_le.
    assert (DayFromYear (-271821) <= -100000000) by (by vm_compute). lia.
  - destruct (Z.le_gt_cases (YearFromTime tv) 275760) as [|Hgt]; [done|].
    assert (275761 <= YearFromTime tv) as H by lia.
    apply YearFromTime_le in H.
    assert (100000000 < DayFromYear 275761) by (by vm_compute). lia.
Qed.

Lemma YearFromTime_four_digits tv :
  0 <= YearFromTime tv <= 9999 ↔
  -62167219200000 <= tv < 253402300800000.
Proof.
  assert (DayFromYear 0 = -719528) as H0 by (by vm_compute).
  assert (DayFromYear 10000 = 2932897) as H1 by (by vm_compute).
  pose proof (YearFromTime_le tv 0) as Hlo.
  pose proof (YearFromTime_le tv 10000) as Hhi.
  rewrite H0 in Hlo. rewrite H1 in Hhi.
  unfold Day, msPerDay in *.
  split; intros H; split.
  - assert (-719528 <= tv / 86400000) as Hd by (apply Hlo; lia).
    revert Hd. Z.div_mod_to_equations. lia.
  - destruct (Z.lt_ge_cases tv 253402300800000) as [|Hge]; [done|].
    assert (2932897 <= tv / 86400000) as Hd
      by (Z.div_mod_to_equations; lia).
    apply Hhi in Hd. lia.
  - apply Hlo. Z.div_mod_to_equations. lia.
  - destruct (Z.le_gt_cases (YearFromTime tv) 9999) as [|Hgt]; [done|].
    assert (10000 <= YearFromTime tv) as Hy by lia.
    apply Hhi in Hy. revert Hy. Z.div_mod_to_equations. lia.
Qed.

Lemma MonthFromTime_range t : 0 <= MonthFromTime t <= 11.
Proof.
  unfold MonthFromTime.
  repeat match goal with |- context [?a <? ?b] => destruct (a <? b) end;
    lia.
Qed.

Lemma DateFromTime_range t : 1 <= DateFromTime t <= 31.
Proof.
  pose proof (DayWithinYear_range t) as Hd.
  unfold DateFromTime, MonthFromTime.
  destruct (InLeapYear_cases t) as [[-> Hy]|[-> Hy]]; rewrite Hy in Hd;
    repeat match goal with
           | |- context [?a <? ?b] => destruct (Z.ltb_spec a b)
           end; lia.
Qed.

(** The day within the year can be read back from the month, the date
    and the kind of year. *)
Lemma DayWithinYear_inj t t' :
  InLeapYear t = InLeapYear t' ->
  MonthFromTime t = MonthFromTime t' ->
  DateFromTime t = DateFromTime t' ->
  DayWithinYear t = DayWithinYear t'.
Proof.
  intros Hleap Hm Hd. unfold DateFromTime in Hd. rewrite Hm, Hleap in Hd.
  pose proof (MonthFromTime_range t') as Hr.
  cbv zeta in Hd.
  destruct (MonthFromTime t') as [|p|p]; [lia| |lia].
  do 4 (try (destruct p as [p|p|]; cbv beta iota in Hd; try lia)).
Qed.

(** A time value is made of its day and of the four fields of the time
    within the day. *)
Lemma time_of_fields t :
  t = msPerDay * Day t + 3600000 * HourFromTime t + 60000 * MinFromTime t +
      1000 * SecFromTime t + msFromTime t.
Proof.
  unfold Day, msPerDay, HourFromTime, MinFromTime, SecFromTime, msFromTime.
  pose proof (Z.div_mod t (3600000 * 24) ltac:(lia)) as H.
  pose proof (Z.rem_mul_r t 3600000 24 ltac:(lia) ltac:(lia)) as Hh.
  pose proof (Z.rem_mul_r t 60000 60 ltac:(lia) ltac:(lia)) as Hm.
  pose proof (Z.rem_mul_r t 1000 60 ltac:(lia) ltac:(lia)) as Hs.
  change (3600000 * 24) with 86400000 in *.
  change (60000 * 60) with 3600000 in *.
  change (1000 * 60) with 60000 in *.
  lia.
Qed.

Lemma time_fields_range t :
  0 <= HourFromTime t < 24 ∧ 0 <= MinFromTime t < 60 ∧
  0 <= SecFromTime t < 60 ∧ 0 <= msFromTime t < 1000.
Proof.
  unfold HourFromTime, MinFromTime, SecFromTime, msFromTime.
  Z.div_mod_to_equations. lia.
Qed.

(** *** Digits *)

Lemma length_digits w n : length (digits w n) = w.
Proof.
  revert n. induction w as [|w IH]; intros n; [done|].
  cbn [digits]. rewrite length_app, IH. simpl. lia.
Qed.

Lemma digit_inj a b : 0 <= a -> 0 <= b -> digit a = digit b -> a = b.
Proof. unfold digit. lia. Qed.

Lemma digits_inj w a b :
  0 <= a < 10 ^ Z.of_nat w -> 0 <= b < 10 ^ Z.of_nat w ->
  digits w a = digits w b -> a = b.
Proof.
  revert a b. induction w as [|w IH]; intros a b Ha Hb H.
  - simpl in *. lia.
  - cbn [digits] in H. apply app_inj_2 in H as [Hhi Hlo]; [|done].
    injection Hlo as Hlo.
    rewrite Nat2Z.inj_succ, Z.pow_succ_r in Ha, Hb by lia.
    apply digit_inj in Hlo; [|Z.div_mod_to_equations; lia..].
    apply IH in Hhi; [|Z.div_mod_to_equations; lia..].
    revert Hhi Hlo. Z.div_mod_to_equations. lia.
Qed.

(** A digit field holds digits only. *)
Lemma digits_class w n c : c ∈ digits w n -> (48 <= c <= 57)%N.
Proof.
  revert n. induction w as [|w IH]; intros n Hc; [by apply elem_of_nil in Hc|].
  cbn [digits] in Hc. apply elem_of_app in Hc as [Hc|Hc]; [by apply (IH _ Hc)|].
  apply list_elem_of_singleton in Hc as ->. unfold digit.
  assert (0 <= n mod 10 < 10) by (Z.div_mod_to_equations; lia). lia.
Qed.

(** *** The ISO rendering *)

Lemma iso_year_cases y :
  (0 <= y <= 9999 ∧ iso_year y = digits 4 y) ∨
  (y < 0 ∧ iso_year y = js "-" ++ digits 6 (Z.abs y)) ∨
  (9999 < y ∧ iso_year y = js "+" ++ digits 6 (Z.abs y)).
Proof.
  unfold iso_year.
  destruct (Z.leb_spec 0 y), (Z.leb_spec y 9999), (Z.ltb_spec y 0);
    cbn [andb]; try lia; auto.
Qed.

Lemma length_iso_year y :
  length (iso_year y) = if (0 <=? y) && (y <=? 9999) then 4%nat else 7%nat.
Proof.
  destruct (iso_year_cases y) as [[Hy ->]|[[Hy ->]|[Hy ->]]];
    rewrite ?length_app, length_digits;
    destruct (Z.leb_spec 0 y), (Z.leb_spec y 9999); cbn [andb]; try lia;
    done.
Qed.

Lemma iso_year_inj y y' :
  Z.abs y < 10 ^ 6 -> Z.abs y' < 10 ^ 6 ->
  iso_year y = iso_year y' -> y = y'.
Proof.
  intros Hy Hy' H. pose proof (f_equal length H) as Hlen.
  destruct (iso_year_cases y) as [[Hc Hr]|[[Hc Hr]|[Hc Hr]]];
    destruct (iso_year_cases y') as [[Hc' Hr']|[[Hc' Hr']|[Hc' Hr']]];
    rewrite Hr, Hr' in H, Hlen;
    rewrite ?length_app, ?length_digits in Hlen; try done.
  - apply (digits_inj 4); [lia..|done].
  - apply app_inv_head in H. apply (digits_inj 6) in H; lia.
  - apply app_inv_head in H. apply (digits_inj 6) in H; lia.
Qed.

Lemma elem_of_sub (l marks : jsstring) c :
  c ∈ l -> bool_decide (l ⊆ marks) = true -> c ∈ marks.
Proof. intros Hc Hsub%bool_decide_eq_true. by apply Hsub. Qed.

Lemma toISOString_Some tv :
  Z.abs tv <= 8640000000000000 ->
  toISOString tv =
    Some (iso_year (YearFromTime tv) ++
          js "-" ++ digits 2 (MonthFromTime tv + 1) ++
          js "-" ++ digits 2 (DateFromTime tv) ++
          js "T" ++ digits 2 (HourFromTime tv) ++
          js ":" ++ digits 2 (MinFromTime tv) ++
          js ":" ++ digits 2 (SecFromTime tv) ++
          js "." ++ digits 3 (msFromTime tv) ++ js "Z").
Proof.
  intros H. unfold toISOString.
  destruct (Z.ltb_spec 8640000000000000 (Z.abs tv)); [lia|done].
Qed.

Lemma toISOString_is_Some tv :
  is_Some (toISOString tv) ↔ Z.abs tv <= 8640000000000000.
Proof.
  unfold toISOString.
  destruct (Z.ltb_spec 8640000000000000 (Z.abs tv)); split; intros H';
    try done; try lia.
Qed.

Lemma toISOString_inj t1 t2 iso :
  toISOString t1 = Some iso -> toISOString t2 = Some iso -> t1 = t2.
Proof.
  intros H1 H2.
  assert (Z.abs t1 <= 8640000000000000) as Ht1
    by (apply toISOString_is_Some; by rewrite H1).
  assert (Z.abs t2 <= 8640000000000000) as Ht2
    by (apply toISOString_is_Some; by rewrite H2).
  rewrite toISOString_Some in H1, H2 by done.
  rewrite <- H2 in H1. apply (inj Some) in H1 as H. clear H1 H2 iso.
  apply app_inj_2 in H as [Hy H];
    [|by rewrite !length_app, !length_digits].
  apply app_inj_1 in H as [_ H]; [|done].
  apply app_inj_1 in H as [HM H]; [|by rewrite !length_digits].
  apply app_inj_1 in H as [_ H]; [|done].
  apply app_inj_1 in H as [HD H]; [|by rewrite !length_digits].
  apply app_inj_1 in H as [_ H]; [|done].
  apply app_inj_1 in H as [Hh H]; [|by rewrite !length_digits].
  apply app_inj_1 in H as [_ H]; [|done].
  apply app_inj_1 in H as [Hm H]; [|by rewrite !length_digits].
  apply app_inj_1 in H as [_ H]; [|done].
  apply app_inj_1 in H as [Hs H]; [|by rewrite !length_digits].
  apply app_inj_1 in H as [_ H]; [|done].
  apply app_inj_1 in H as [Hms _]; [|by rewrite !length_digits].
  pose proof (YearFromTime_bounds t1 Ht1). pose proof (YearFromTime_bounds t2 Ht2).
  pose proof (MonthFromTime_range t1). pose proof (MonthFromTime_range t2).
  pose proof (DateFromTime_range t1). pose proof (DateFromTime_range t2).
  pose proof (time_fields_range t1) as (? & ? & ? & ?).
  pose proof (time_fields_range t2) as (? & ? & ? & ?).
  apply iso_year_inj in Hy; [|lia..].
  apply (digits_inj 2) in HM, HD, Hh, Hm, Hs; [|lia..].
  apply (digits_inj 3) in Hms; [|lia..].
  assert (DayWithinYear t1 = DayWithinYear t2) as Hd.
  { apply DayWithinYear_inj; [|lia|done]. unfold InLeapYear. by rewrite Hy. }
  assert (Day t1 = Day t2) as Hday.
  { unfold DayWithinYear in Hd. rewrite Hy in Hd. lia. }
  rewrite (time_of_fields t1), (time_of_fields t2). lia.
Qed.

Lemma length_toISOString tv iso :
  toISOString tv = Some iso ->
  length iso =
    if (-62167219200000 <=? tv) && (tv <? 253402300800000)
    then 24%nat else 27%nat.
Proof.
  intros H.
  assert (Z.abs tv <= 8640000000000000) as Htv
    by (apply toISOString_is_Some; by rewrite H).
  rewrite toISOString_Some in H by done. apply (inj Some) in H as <-.
  rewrite !length_app, !length_digits, length_iso_year.
  pose proof (YearFromTime_four_digits tv) as Hy.
  destruct (Z.leb_spec 0 (YearFromTime tv)),
    (Z.leb_spec (YearFromTime tv) 9999),
    (Z.leb_spec (-62167219200000) tv), (Z.ltb_spec tv 253402300800000);
    cbn [andb]; try done; lia.
Qed.

(** The units of a rendered date: digits, signs and the four marks. *)
Lemma toISOString_class tv iso c :
  toISOString tv = Some iso -> c ∈ iso ->
  (48 <= c <= 57)%N ∨ c ∈ js "+-T:.Z".
Proof.
  intros H Hc.
  assert (Z.abs tv <= 8640000000000000) as Htv
    by (apply toISOString_is_Some; by rewrite H).
  rewrite toISOString_Some in H by done. apply (inj Some) in H as <-.
  assert (∀ l : jsstring,
            c ∈ l -> bool_decide (l ⊆ js "+-T:.Z") = true ->
            (48 <= c <= 57)%N ∨ c ∈ js "+-T:.Z") as Hmark.
  { intros l Hl Hsub. right. by apply (elem_of_sub l). }
  rewrite !elem_of_app in Hc.
  destruct Hc as [Hy|[Hc|[Hc|[Hc|[Hc|[Hc|[Hc|[Hc|[Hc|[Hc|[Hc|[Hc|[Hc|Hc]]]]]]]]]]]]];
    try match goal with
        | Hc : _ ∈ digits _ _ |- _ => left; by apply digits_class in Hc
        | Hc : _ ∈ js _ |- _ => by apply (Hmark _ Hc)
        end.
  destruct (iso_year_cases (YearFromTime tv)) as [[_ Hr]|[[_ Hr]|[_ Hr]]];
    rewrite Hr in Hy; rewrite ?elem_of_app in Hy.
  - left. by apply digits_class in Hy.
  - destruct Hy as [Hy|Hy]; [by apply (Hmark _ Hy)|].
    left. by apply digits_class in Hy.
  - destruct Hy as [Hy|Hy]; [by apply (Hmark _ Hy)|].
    left. by apply digits_class in Hy.
Qed.

(** ** Strings: proofs *)

Lemma js_inj s1 s2 : js s1 = js s2 -> s1 = s2.
Proof.
  unfold js. intros H.
  rewrite <- (string_of_list_ascii_of_string s1),
          <- (string_of_list_ascii_of_string s2).
  f_equal. revert H.
  generalize (list_ascii_of_string s1) (list_ascii_of_string s2).
  induction l as [|a l IH]; intros [|b k] H; try done.
  rewrite !fmap_cons in H. injection H as Hab Hlk.
  f_equal; [|by apply IH].
  by rewrite <- (ascii_N_embedding a), <- (ascii_N_embedding b), Hab.
Qed.

Lemma to_int_nonnil z :
  Z.to_int z ≠ Decimal.Pos Decimal.Nil ∧ Z.to_int z ≠ Decimal.Neg Decimal.Nil.
Proof.
  destruct z as [|p|p]; simpl; split; try done;
    intros [= H]; by apply (Unsigned.to_uint_nonnil p).
Qed.

Lemma number_to_string_inj a b :
  number_to_string a = number_to_string b -> a = b.
Proof.
  unfold number_to_string. intros H%js_inj.
  destruct (to_int_nonnil a) as [Ha1 Ha2].
  destruct (to_int_nonnil b) as [Hb1 Hb2].
  pose proof (NilZero.isi _ Ha1 Ha2) as Ha.
  pose proof (NilZero.isi _ Hb1 Hb2) as Hb.
  rewrite H, Hb in Ha. injection Ha as Ha.
  by rewrite <- (DecimalZ.of_to a), <- (DecimalZ.of_to b), Ha.
Qed.

Lemma string_of_uint_class d c :
  c ∈ js (NilEmpty.string_of_uint d) -> (48 <= c <= 57)%N.
Proof.
  unfold js. induction d as [|d IH|d IH|d IH|d IH|d IH|d IH|d IH|d IH|d IH|d IH];
    cbn [NilEmpty.string_of_uint list_ascii_of_string];
    rewrite ?fmap_cons; intros Hc;
    [by apply elem_of_nil in Hc|..];
    (apply elem_of_cons in Hc as [->|Hc]; [by vm_compute|by apply IH]).
Qed.

(** The numeral of an integer: digits, after a minus sign when it is
    negative; never empty. *)
Lemma number_to_string_class z c :
  c ∈ number_to_string z -> (48 <= c <= 57)%N ∨ c = 45%N.
Proof.
  assert (∀ d, c ∈ js (NilZero.string_of_uint d) -> (48 <= c <= 57)%N)
    as Hu.
  { intros d Hc. destruct d; try by apply (string_of_uint_class _ _ Hc).
    apply list_elem_of_singleton in Hc as ->. by vm_compute. }
  unfold number_to_string.
  destruct (Z.to_int z) as [d|d]; cbn [NilZero.string_of_int]; intros Hc.
  - left. by apply (Hu d).
  - unfold js in Hc. cbn [list_ascii_of_string] in Hc.
    rewrite fmap_cons in Hc.
    apply elem_of_cons in Hc as [->|Hc]; [by right|].
    left. by apply (Hu d).
Qed.

Lemma number_to_string_nonempty z : number_to_string z ≠ [].
Proof.
  unfold number_to_string.
  destruct z as [|p|p]; cbn [Z.to_int NilZero.string_of_int]; try done.
  pose proof (Unsigned.to_uint_nonnil p) as Hp.
  by destruct (Pos.to_uint p).
Qed.

Lemma length_padEnd n s : length (padEnd n s) = (n `max` length s)%nat.
Proof. unfold padEnd. rewrite length_app, length_replicate. lia. Qed.

Lemma padEnd_long n s : (n <= length s)%nat -> padEnd n s = s.
Proof.
  intros H. unfold padEnd.
  replace (n - length s)%nat with 0%nat by lia. apply app_nil_r.
Qed.

Lemma padEnd_trailing_spaces n s j :
  (length s + j <= n)%nat -> padEnd n (s ++ replicate j SP) = padEnd n s.
Proof.
  intros H. unfold padEnd.
  rewrite length_app, length_replicate, <- app_assoc, <- replicate_add.
  do 2 f_equal. lia.
Qed.

Lemma elem_of_padEnd n s c : c ∈ padEnd n s -> c ∈ s ∨ c = SP.
Proof.
  unfold padEnd. intros [H|H]%elem_of_app; [by left|].
  apply elem_of_replicate in H as [-> _]. by right.
Qed.

(** ** The export: proofs *)

Lemma export_line_Some e :
  Z.abs (timestamp e) <= 8640000000000000 ->
  ∃ iso, toISOString (timestamp e) = Some iso ∧
    export_line e =
      Some (js "[" ++ iso ++ js "] KEY: " ++ padEnd 10 (key e) ++
            js " CODE: " ++ padEnd 10 (code e) ++
            js " DELTA: " ++ number_to_string (interval e) ++ js "ms").
Proof.
  intros H. apply toISOString_is_Some in H as [iso Hiso].
  exists iso. split; [done|]. unfold export_line. by rewrite Hiso.
Qed.

Lemma export_line_is_Some e :
  is_Some (export_line e) ↔ Z.abs (timestamp e) <= 8640000000000000.
Proof.
  rewrite <- toISOString_is_Some. unfold export_line.
  destruct (toISOString (timestamp e)); simpl; split; intros [x Hx]; try done;
    by eexists.
Qed.

Lemma export_line_inv e line :
  export_line e = Some line ->
  ∃ iso, toISOString (timestamp e) = Some iso ∧
    line = js "[" ++ iso ++ js "] KEY: " ++ padEnd 10 (key e) ++
           js " CODE: " ++ padEnd 10 (code e) ++
           js " DELTA: " ++ number_to_string (interval e) ++ js "ms".
Proof.
  unfold export_line. destruct (toISOString (timestamp e)) as [iso|];
    [|done].
  simpl. intros H. apply (inj Some) in H as <-. by exists iso.
Qed.

Lemma downloadLogs_inv now s d :
  downloadLogs now s = Some d ->
  ∃ lines, mapM export_line (entries s) = Some lines ∧
    content d = join [LF] lines ∧
    download d = js "KRONOS_LOG_" ++ number_to_string now ++ js ".txt".
Proof.
  unfold downloadLogs. destruct (mapM export_line (entries s)) as [lines|];
    [|done].
  simpl. intros H. apply (inj Some) in H as <-. by exists lines.
Qed.

(** X13.  The ISO rendering of a time stamp exists exactly for the time
    values of a valid date, those within 8.64e15 ms of the epoch, and it
    loses nothing: two time values with the same rendering are equal, so
    that the exported date gives back the entry's time stamp to the
    millisecond. *)
Theorem toISOString_faithful :
  (∀ tv, is_Some (toISOString tv) ↔ Z.abs tv <= 8640000000000000) ∧
  (∀ t1 t2 iso,
     toISOString t1 = Some iso -> toISOString t2 = Some iso -> t1 = t2) ∧
  (∀ tv iso, toISOString tv = Some iso ->
     length iso =
       if (-62167219200000 <=? tv) && (tv <? 253402300800000)
       then 24%nat else 27%nat).
Proof.
  split; [apply toISOString_is_Some|].
  split; [apply toISOString_inj|apply length_toISOString].
Qed.

(** X14.  The export fails exactly when the log holds an entry whose
    time stamp is no valid date: the rendering of that date throws, and
    no file is offered.  It never fails on a log recorded while the
    clock reads within the range of dates. *)
Theorem downloadLogs_defined :
  (∀ now s,
     is_Some (downloadLogs now s) ↔
     Forall (λ e, Z.abs (timestamp e) <= 8640000000000000) (entries s)) ∧
  (∀ t0 evs now,
     Z.abs t0 <= 8640000000000000 ->
     Forall (λ t, Z.abs t <= 8640000000000000) (clock_readings evs) ->
     is_Some (downloadLogs now (run (mount t0) evs))).
Proof.
  assert (∀ now s,
     is_Some (downloadLogs now s) ↔
     Forall (λ e, Z.abs (timestamp e) <= 8640000000000000) (entries s))
    as Hdef.
  { intros now s. unfold downloadLogs.
    transitivity (is_Some (mapM export_line (entries s))).
    - destruct (mapM export_line (entries s)); simpl; split; intros [x Hx];
        try done; by eexists.
    - rewrite mapM_is_Some. apply Forall_proper; [|done].
      intros e. apply export_line_is_Some. }
  split; [done|]. intros t0 evs now Ht0 Hclock. apply Hdef.
  destruct (run_tracker_bounded (-8640000000000000) 8640000000000001 t0 evs)
    as (base & _ & _ & _ & Hts); [lia| |].
  - eapply Forall_impl; [exact Hclock|]. intros t Ht. simpl in Ht. lia.
  - eapply Forall_impl; [exact Hts|]. intros e He. simpl in He. lia.
Qed.

(** *** Lines *)

Lemma line_feeds_app l k : line_feeds (l ++ k) = (line_feeds l + line_feeds k)%nat.
Proof. unfold line_feeds. by rewrite filter_app, length_app. Qed.

Lemma line_feeds_none (l : list code_unit) : LF ∉ l -> line_feeds l = 0%nat.
Proof.
  unfold line_feeds. induction l as [|c l IH]; [done|]. intros H.
  apply not_elem_of_cons in H as [Hc Hl].
  rewrite filter_cons_False by done. by apply IH.
Qed.

Lemma line_feeds_join (lines : list jsstring) :
  Forall (λ l, LF ∉ l) lines ->
  line_feeds (join [LF] lines) = pred (length lines).
Proof.
  induction 1 as [|l lines Hl Hlines IH]; [done|].
  destruct lines as [|l' lines]; [by apply line_feeds_none|].
  change (join [LF] (l :: l' :: lines))
    with (l ++ [LF] ++ join [LF] (l' :: lines)).
  rewrite !line_feeds_app, IH, line_feeds_none by done. done.
Qed.

Lemma not_elem_of_decide (c : code_unit) (l : list code_unit) :
  bool_decide (c ∈ l) = false -> c ∉ l.
Proof. intros H. by apply bool_decide_eq_false in H. Qed.

Lemma export_line_no_LF e line :
  export_line e = Some line -> LF ∉ key e -> LF ∉ code e -> LF ∉ line.
Proof.
  intros (iso & Hiso & ->)%export_line_inv Hk Hc.
  rewrite !not_elem_of_app. repeat split; try by apply not_elem_of_decide.
  - intros H. destruct (toISOString_class _ _ _ Hiso H) as [H'|H'].
    + unfold LF in H'. lia.
    + revert H'. by apply not_elem_of_decide.
  - intros [H|H]%elem_of_padEnd; done.
  - intros [H|H]%elem_of_padEnd; done.
  - intros H. destruct (number_to_string_class _ _ H) as [H'|H'];
      unfold LF in H'; lia.
Qed.

(** X15.  The export holds one line per entry, in the order of the log:
    when no key and no code contains a line feed, which is the case of
    every value a keyboard event carries, the text has one line feed
    less than the log has entries. *)
Theorem export_one_line_per_entry now s d :
  downloadLogs now s = Some d ->
  Forall (λ e, (LF ∉ key e) ∧ (LF ∉ code e)) (entries s) ->
  ∃ lines,
    Forall2 (λ e line, export_line e = Some line) (entries s) lines ∧
    content d = join [LF] lines ∧
    line_feeds (content d) = pred (length (entries s)).
Proof.
  intros (lines & Hlines & Hcontent & _)%downloadLogs_inv Hkeys.
  apply mapM_Some_1 in Hlines. exists lines.
  split; [done|]. split; [done|].
  rewrite Hcontent, (Forall2_length _ _ _ Hlines). apply line_feeds_join.
  clear Hcontent. induction Hlines as [|e line es lines He _ IH];
    [by constructor|].
  apply Forall_cons in Hkeys as [[Hk Hc] Hkeys].
  constructor; [by apply (export_line_no_LF e)|by apply IH].
Qed.

Lemma export_one_line_per_entry_witness :
  ∃ lines,
    Forall2 (λ e line, export_line e = Some line)
      (entries (run (mount 0)
                  (keydowns [(press "a" "KeyA", 1700000000000, []);
                             (press "Enter" "Enter", 1700000000250, [])])))
      lines ∧
    content
      {| content :=
           js "[2023-11-14T22:13:20.000Z] KEY: a          CODE: KeyA       DELTA: 1700000000000ms" ++
           [LF] ++
           js "[2023-11-14T22:13:20.250Z] KEY: Enter      CODE: Enter      DELTA: 250ms";
         download := js "KRONOS_LOG_1700000000999.txt" |} =
      join [LF] lines ∧
    line_feeds
      (content
         {| content :=
              js "[2023-11-14T22:13:20.000Z] KEY: a          CODE: KeyA       DELTA: 1700000000000ms" ++
              [LF] ++
              js "[2023-11-14T22:13:20.250Z] KEY: Enter      CODE: Enter      DELTA: 250ms";
            download := js "KRONOS_LOG_1700000000999.txt" |}) =
    pred (length
            (entries (run (mount 0)
               (keydowns [(press "a" "KeyA", 1700000000000, []);
                          (press "Enter" "Enter", 1700000000250, [])])))).
Proof.
  apply (export_one_line_per_entry 1700000000999
           (run (mount 0)
              (keydowns [(press "a" "KeyA", 1700000000000, []);
                         (press "Enter" "Enter", 1700000000250, [])]))).
  - vm_compute. reflexivity.
  - repeat constructor; apply (bool_decide_unpack _); vm_compute; exact I.
Defined.

(** X16.  The columns of the export line up.  For an entry whose key and
    code have at most ten units and whose date lies in the years 0 to
    9999, the date takes 24 units, the key field starts at unit 32, the
    code field at unit 49, each ten units wide, and the interval at
    unit 67, followed by the unit name. *)
Theorem export_columns_aligned e :
  (length (key e) <= 10)%nat -> (length (code e) <= 10)%nat ->
  -62167219200000 <= timestamp e < 253402300800000 ->
  ∃ iso line,
    toISOString (timestamp e) = Some iso ∧ length iso = 24%nat ∧
    export_line e = Some line ∧
    take 32 line = js "[" ++ iso ++ js "] KEY: " ∧
    take 10 (drop 32 line) = padEnd 10 (key e) ∧
    take 7 (drop 42 line) = js " CODE: " ∧
    take 10 (drop 49 line) = padEnd 10 (code e) ∧
    drop 59 line = js " DELTA: " ++ number_to_string (interval e) ++ js "ms".
Proof.
  intros Hk Hc Ht.
  destruct (export_line_Some e) as (iso & Hiso & Hline); [lia|].
  pose proof (length_toISOString _ _ Hiso) as Hlen.
  destruct (Z.leb_spec (-62167219200000) (timestamp e)); [|lia].
  destruct (Z.ltb_spec (timestamp e) 253402300800000); [|lia].
  cbn [andb] in Hlen.
  exists iso. eexists. split; [done|]. split; [done|]. split; [exact Hline|].
  assert (length (padEnd 10 (key e)) = 10%nat) as Hkf
    by (rewrite length_padEnd; lia).
  assert (length (padEnd 10 (code e)) = 10%nat) as Hcf
    by (rewrite length_padEnd; lia).
  set (kf := padEnd 10 (key e)) in *. set (cf := padEnd 10 (code e)) in *.
  set (tail := js " DELTA: " ++ number_to_string (interval e) ++ js "ms").
  assert (∀ (a b : jsstring) n, length a = n -> take n (a ++ b) = a)
    as Htake by (intros a b n <-; apply take_app_length).
  assert (∀ (a b : jsstring) n, length a = n -> drop n (a ++ b) = b)
    as Hdrop by (intros a b n <-; apply drop_app_length).
  replace (js "[" ++ iso ++ js "] KEY: " ++ kf ++ js " CODE: " ++ cf ++ tail)
    with ((js "[" ++ iso ++ js "] KEY: ") ++ kf ++ js " CODE: " ++ cf ++ tail)
    by (by rewrite <- !app_assoc).
  assert (length (js "[" ++ iso ++ js "] KEY: ") = 32%nat) as H32
    by (rewrite !length_app, Hlen; done).
  set (head := js "[" ++ iso ++ js "] KEY: ") in *.
  split; [by apply Htake|].
  split; [by rewrite (Hdrop head), (Htake kf)|].
  replace (head ++ kf ++ js " CODE: " ++ cf ++ tail)
    with ((head ++ kf) ++ js " CODE: " ++ cf ++ tail)
    by (by rewrite <- !app_assoc).
  assert (length (head ++ kf) = 42%nat) as H42
    by (rewrite length_app, H32, Hkf; done).
  split; [by rewrite (Hdrop (head ++ kf)), (Htake (js " CODE: "))|].
  replace ((head ++ kf) ++ js " CODE: " ++ cf ++ tail)
    with (((head ++ kf) ++ js " CODE: ") ++ cf ++ tail)
    by (by rewrite <- !app_assoc).
  assert (length ((head ++ kf) ++ js " CODE: ") = 49%nat) as H49
    by (rewrite length_app, H42; done).
  split; [by rewrite (Hdrop ((head ++ kf) ++ js " CODE: ")), (Htake cf)|].
  replace (((head ++ kf) ++ js " CODE: ") ++ cf ++ tail)
    with ((((head ++ kf) ++ js " CODE: ") ++ cf) ++ tail)
    by (by rewrite <- !app_assoc).
  apply Hdrop. rewrite length_app, H49, Hcf. done.
Qed.

Lemma export_columns_aligned_witness :
  ∃ iso line,
    toISOString (timestamp (entry_of "Enter" 1700000000250 250)) = Some iso ∧
    length iso = 24%nat ∧
    export_line (entry_of "Enter" 1700000000250 250) = Some line ∧
    take 32 line = js "[" ++ iso ++ js "] KEY: " ∧
    take 10 (drop 32 line) =
      padEnd 10 (key (entry_of "Enter" 1700000000250 250)) ∧
    take 7 (drop 42 line) = js " CODE: " ∧
    take 10 (drop 49 line) =
      padEnd 10 (code (entry_of "Enter" 1700000000250 250)) ∧
    drop 59 line =
      js " DELTA: " ++
      number_to_string (interval (entry_of "Enter" 1700000000250 250)) ++
      js "ms".
Proof.
  apply (export_columns_aligned (entry_of "Enter" 1700000000250 250));
    simpl; lia.
Defined.

(** X17.  The export pads and never truncates, and it cannot tell
    trailing spaces from padding: an entry whose key ends in spaces is
    exported as the entry without them, as long as the key fits the
    column.  The space key is thus exported as ten spaces, as an empty
    key would be.  A key longer than the column is written in full. *)
Theorem export_pads_with_spaces e j :
  (length (key e) + j <= 10)%nat ->
  export_line {| id := id e; key := key e ++ replicate j SP; code := code e;
                 timestamp := timestamp e; interval := interval e;
                 type := type e |} = export_line e ∧
  ∀ k, (10 <= length k)%nat -> padEnd 10 k = k.
Proof.
  intros H. split; [|by apply padEnd_long].
  unfold export_line. cbn [timestamp key code interval].
  by rewrite padEnd_trailing_spaces.
Qed.

Lemma export_pads_with_spaces_witness :
  export_line {| id := id (entry_of "" 5 1);
                 key := key (entry_of "" 5 1) ++ replicate 1 SP;
                 code := code (entry_of "" 5 1);
                 timestamp := timestamp (entry_of "" 5 1);
                 interval := interval (entry_of "" 5 1);
                 type := type (entry_of "" 5 1) |} =
    export_line (entry_of "" 5 1).
Proof.
  apply (export_pads_with_spaces (entry_of "" 5 1) 1). simpl. lia.
Defined.

Lemma join_nonempty sep (l : jsstring) lines :
  l ≠ [] -> join sep (l :: lines) ≠ [].
Proof.
  intros Hl. destruct lines as [|l' lines]; [done|].
  change (join sep (l :: l' :: lines))
    with (l ++ sep ++ join sep (l' :: lines)).
  by destruct l.
Qed.

(** X18.  The name of the exported file is made from the clock reading
    alone and the text from the log alone: two exports of the same log
    have the same text, and their names differ exactly when they are
    made at different milliseconds. *)
Theorem download_name_from_clock now now' s d d' :
  downloadLogs now s = Some d -> downloadLogs now' s = Some d' ->
  content d = content d' ∧ (download d = download d' ↔ now = now').
Proof.
  intros (lines & Hl & Hc & Hn)%downloadLogs_inv
         (lines' & Hl' & Hc' & Hn')%downloadLogs_inv.
  rewrite Hl in Hl'. apply (inj Some) in Hl' as <-.
  split; [by rewrite Hc, Hc'|].
  rewrite Hn, Hn'. split; [|by intros ->].
  intros H%app_inv_head%app_inv_tail. by apply number_to_string_inj.
Qed.

Lemma download_name_from_clock_witness :
  content {| content := []; download := js "KRONOS_LOG_17.txt" |} =
  content {| content := []; download := js "KRONOS_LOG_18.txt" |} ∧
  (download {| content := []; download := js "KRONOS_LOG_17.txt" |} =
   download {| content := []; download := js "KRONOS_LOG_18.txt" |} ↔
   17 = 18).
Proof.
  apply (download_name_from_clock 17 18 (mount 0)); reflexivity.
Defined.

(** X19.  The export button is enabled exactly when there is something
    to export: the text of the file is empty if and only if the log is,
    in which case the button is disabled. *)
Theorem export_enabled_iff_content now s d :
  downloadLogs now s = Some d ->
  (content d = [] ↔ export_disabled s = true) ∧
  (export_disabled s = true ↔ entries s = []).
Proof.
  intros (lines & Hl & Hc & _)%downloadLogs_inv.
  assert (export_disabled s = true ↔ entries s = []) as Hdis.
  { unfold export_disabled. rewrite Nat.eqb_eq. by destruct (entries s). }
  split; [|done]. rewrite Hdis, Hc.
  apply mapM_Some_1 in Hl.
  destruct Hl as [|e line es lines He Hes]; [done|].
  split; [|done]. intros H. exfalso. revert H. apply join_nonempty.
  apply export_line_inv in He as (iso & _ & ->). done.
Qed.

Lemma export_enabled_iff_content_witness :
  (content {| content := []; download := js "KRONOS_LOG_17.txt" |} = [] ↔
   export_disabled (mount 0) = true) ∧
  (export_disabled (mount 0) = true ↔ entries (mount 0) = []).
Proof.
  apply (export_enabled_iff_content 17 (mount 0)). reflexivity.
Defined.

(** ** The prompt: proofs *)

(** A string is cut in one way only at the first occurrence of a unit,
    and in one way only at the last. *)
Lemma split_first (c : code_unit) (x y a b : jsstring) :
  c ∉ x -> c ∉ y -> x ++ c :: a = y ++ c :: b -> x = y ∧ a = b.
Proof.
  revert y. induction x as [|u x IH]; intros [|v y] Hx Hy H.
  - by injection H.
  - injection H as <- _. by apply not_elem_of_cons in Hy as [Hy _].
  - injection H as -> _. by apply not_elem_of_cons in Hx as [Hx _].
  - injection H as <- H.
    apply not_elem_of_cons in Hx as [_ Hx].
    apply not_elem_of_cons in Hy as [_ Hy].
    destruct (IH y Hx Hy H) as [-> ->]. done.
Qed.

Lemma split_last (c : code_unit) (a b x y : jsstring) :
  c ∉ x -> c ∉ y -> a ++ c :: x = b ++ c :: y -> a = b ∧ x = y.
Proof.
  intros Hx Hy H. apply (f_equal reverse) in H.
  rewrite !reverse_app, !reverse_cons, <- !app_assoc in H.
  apply split_first in H as [H1 H2]; [|by rewrite elem_of_reverse..].
  apply (inj reverse) in H1, H2. done.
Qed.

Lemma elem_of_join c sep (l : list jsstring) :
  c ∈ join sep l -> c ∈ sep ∨ ∃ x, x ∈ l ∧ c ∈ x.
Proof.
  induction l as [|x l IH]; [by intros H%elem_of_nil|].
  destruct l as [|x' l].
  - intros H. right. exists x. split; [apply list_elem_of_here|done].
  - change (join sep (x :: x' :: l)) with (x ++ sep ++ join sep (x' :: l)).
    rewrite !elem_of_app. intros [H|[H|H]].
    + right. exists x. split; [apply list_elem_of_here|done].
    + by left.
    + destruct (IH H) as [?|(z & Hz & Hc)]; [by left|].
      right. exists z. split; [by apply list_elem_of_further|done].
Qed.

(** Joining strings that are not empty and that do not hold the first
    unit of the separator loses nothing. *)
Lemma join_inj (c : code_unit) (sep : jsstring) (l l' : list jsstring) :
  Forall (λ x, x ≠ [] ∧ c ∉ x) l -> Forall (λ x, x ≠ [] ∧ c ∉ x) l' ->
  join (c :: sep) l = join (c :: sep) l' -> l = l'.
Proof.
  intros Hl. revert l'.
  induction Hl as [|x l [Hx Hcx] Hl IH]; intros l' Hl' H.
  - destruct Hl' as [|y l' [Hy _] _]; [done|].
    symmetry in H. by apply join_nonempty in H.
  - destruct Hl' as [|y l' [Hy Hcy] Hl']; [by apply join_nonempty in H|].
    destruct l as [|x2 l], l' as [|y2 l'].
    + change (x = y) in H. by rewrite H.
    + exfalso. apply Hcx.
      change (x = y ++ (c :: sep) ++ join (c :: sep) (y2 :: l')) in H.
      rewrite H, !elem_of_app. right. left. apply list_elem_of_here.
    + exfalso. apply Hcy.
      change (x ++ (c :: sep) ++ join (c :: sep) (x2 :: l) = y) in H.
      rewrite <- H, !elem_of_app. right. left. apply list_elem_of_here.
    + change (x ++ c :: (sep ++ join (c :: sep) (x2 :: l)) =
              y ++ c :: (sep ++ join (c :: sep) (y2 :: l'))) in H.
      apply split_first in H as [-> H]; [|done..].
      apply app_inv_head in H. by rewrite (IH _ Hl' H).
Qed.

Lemma join_empty_separator (l : list jsstring) : join [] l = concat l.
Proof.
  induction l as [|x l IH]; [done|]. destruct l as [|x' l].
  - simpl. by rewrite app_nil_r.
  - change (join [] (x :: x' :: l)) with (x ++ join [] (x' :: l)).
    by rewrite IH.
Qed.

Lemma prompt_shape p :
  prompt p =
    ([LF] ++
     js "    Analyze the following keyboard activity captured by the KRONOS system." ++
     [LF] ++ js "    " ++ [LF] ++ js "    Sequence: " ++ [QUOTE]) ++
    sequence p ++
    ([QUOTE] ++ [LF] ++ js "    Timings (ms between keys): ") ++
    91%N :: join (js ", ") (number_to_string <$> timings p) ++
    js "]" ++ [LF] ++
    join [LF]
      [ js "    ";
        js "    Tasks:";
        js "    1. Identify any typing patterns or habits.";
        js "    2. Detect if the sequence looks like natural language, code, or random input.";
        js "    3. Provide a brief summary of the user's focus.";
        js "    ";
        js "    Note: This is a diagnostic keyboard capture.";
        js "  " ].
Proof.
  unfold prompt. cbn [join].
  change (js "    Timings (ms between keys): [")
    with (js "    Timings (ms between keys): " ++ [91%N]).
  rewrite <- !app_assoc. reflexivity.
Qed.

(** X20.  The prompt is a faithful rendering of the payload: the
    sequence stands between the quotes as it is, the timings as decimal
    numerals separated by a comma and a space, and two payloads with the
    same prompt are equal.  The two values are the ones the service
    computes from the log: the keys joined without separator and the
    intervals of the first fifty entries. *)
Theorem prompt_determines_payload :
  (∀ p q, prompt p = prompt q -> p = q) ∧
  (∀ es, sequence (extract es) = join [] (key <$> es) ∧
         timings (extract es) = take 50 (interval <$> es)).
Proof.
  split; [|intros es; by rewrite join_empty_separator].
  intros [sp tp] [sq tq] H. rewrite !prompt_shape in H.
  cbn [sequence timings] in H.
  apply app_inv_head in H.
  set (tail := js "]" ++ [LF] ++ join [LF] _) in H.
  set (mid := [QUOTE] ++ [LF] ++ js "    Timings (ms between keys): ") in H.
  assert (∀ s (t : list Z),
            s ++ mid ++ 91%N :: join (js ", ") (number_to_string <$> t) ++ tail =
            ((s ++ mid) ++ 91%N :: join (js ", ") (number_to_string <$> t)) ++
              tail) as Hassoc.
  { intros s t. by rewrite <- !app_assoc. }
  rewrite !Hassoc in H. apply app_inv_tail in H.
  assert (∀ t : list Z, 91%N ∉ join (js ", ") (number_to_string <$> t))
    as Hfree.
  { intros t [Hc|(x & Hx & Hc)]%elem_of_join.
    - revert Hc. by apply not_elem_of_decide.
    - apply list_elem_of_fmap in Hx as (z & -> & _).
      apply number_to_string_class in Hc as [Hc| Hc]; lia. }
  apply split_last in H as [Hs Ht]; [|done..].
  apply app_inv_tail in Hs as ->.
  assert (∀ t : list Z,
            Forall (λ x : jsstring, x ≠ [] ∧ 44%N ∉ x) (number_to_string <$> t))
    as Hnum.
  { intros t. apply Forall_fmap, Forall_forall. intros z _. split.
    - apply number_to_string_nonempty.
    - intros [Hc|Hc]%number_to_string_class; lia. }
  change (js ", ") with (44%N :: js " ") in Ht.
  apply join_inj in Ht; [|done..].
  assert (Inj (=) (=) number_to_string) as Hinj
    by (intros a b; apply number_to_string_inj).
  by apply (inj (fmap number_to_string)) in Ht as ->.
Qed.

(** X21.  On a log that was never cleared, the average interval shown is
    the time elapsed from the mount to the newest recorded key, divided
    by the number of entries and rounded to the nearest integer: the
    time before the first key and the pauses are part of it. *)
Theorem avgInterval_elapsed_per_key t0 evs :
  ClearLogs ∉ evs ->
  0 <= t0 < 2 ^ 52 ->
  Forall (λ t, 0 <= t < 2 ^ 52) (clock_readings evs) ->
  entries (run (mount t0) evs) ≠ [] ->
  Z.of_nat (length (entries (run (mount t0) evs))) < 2 ^ 53 ->
  to_int (avgInterval (entries (run (mount t0) evs))) =
    Some (round_half_up
            (inject_Z (lastKeyTime (run (mount t0) evs) - t0) /
             inject_Z (Z.of_nat (length (entries (run (mount t0) evs)))))).
Proof.
  intros Hevs Ht0 Hclock Hlog Hlen.
  rewrite avgInterval_exact; [|done| |done].
  - unfold mean_interval.
    destruct (run_tracker_ok t0 (mount t0) evs Hevs (mount_tracker_ok t0))
      as [_ Hlast].
    assert (window 0 (2 ^ 52)) as Hw by (unfold window; lia).
    destruct (run_intervals_from 0 (2 ^ 52) t0 evs Hw Ht0 Hclock)
      as [_ Hint].
    by rewrite (intervals_from_sum t0), Hlast; [|apply Hint].
  - intros k. by apply run_sums_bounded.
Qed.

Lemma avgInterval_elapsed_per_key_witness :
  to_int
    (avgInterval
       (entries (run (mount 1000)
                   [KeyDown (press "a" "KeyA") 1300 []; ToggleRecording;
                    ToggleRecording; KeyDown (press "b" "KeyB") 2001 []]))) =
  Some (round_half_up
          (inject_Z
             (lastKeyTime
                (run (mount 1000)
                   [KeyDown (press "a" "KeyA") 1300 []; ToggleRecording;
                    ToggleRecording; KeyDown (press "b" "KeyB") 2001 []]) -
              1000) /
           inject_Z
             (Z.of_nat
                (length
                   (entries
                      (run (mount 1000)
                         [KeyDown (press "a" "KeyA") 1300 []; ToggleRecording;
                          ToggleRecording;
                          KeyDown (press "b" "KeyB") 2001 []])))))).
Proof.
  apply (avgInterval_elapsed_per_key 1000
           [KeyDown (press "a" "KeyA") 1300 []; ToggleRecording;
            ToggleRecording; KeyDown (press "b" "KeyB") 2001 []]).
  - intros H. by repeat (apply elem_of_cons in H as [H|H]; [done|]);
      apply elem_of_nil in H.
  - lia.
  - simpl. repeat constructor; lia.
  - done.
  - simpl. lia.
Defined.

(** X22.  An exported line can be read back.  Two entries whose keys and
    codes fit their columns and whose lines are the same have the same
    time stamp and the same interval, and their keys and codes agree up
    to trailing spaces. *)
Theorem export_line_reads_back e e' line :
  (length (key e) <= 10)%nat -> (length (code e) <= 10)%nat ->
  (length (key e') <= 10)%nat -> (length (code e') <= 10)%nat ->
  export_line e = Some line -> export_line e' = Some line ->
  timestamp e = timestamp e' ∧ interval e = interval e' ∧
  padEnd 10 (key e) = padEnd 10 (key e') ∧
  padEnd 10 (code e) = padEnd 10 (code e').
Proof.
  intros Hk Hc Hk' Hc' (iso & Hiso & ->)%export_line_inv
         (iso' & Hiso' & H)%export_line_inv.
  apply app_inv_head in H.
  change (js "] KEY: ") with (93%N :: js " KEY: ") in H.
  assert (∀ t i, toISOString t = Some i -> 93%N ∉ i) as Hfree.
  { intros t i Hi Hin.
    destruct (toISOString_class _ _ _ Hi Hin) as [H'|H']; [lia|].
    revert H'. by apply not_elem_of_decide. }
  apply split_first in H as [<- H]; [|by eapply Hfree..].
  apply app_inv_head in H.
  apply app_inj_1 in H as [Hkey H]; [|rewrite !length_padEnd; lia].
  apply app_inv_head in H.
  apply app_inj_1 in H as [Hcode H]; [|rewrite !length_padEnd; lia].
  apply app_inv_head, app_inv_tail, number_to_string_inj in H.
  split; [by apply (toISOString_inj _ _ iso)|done].
Qed.

Lemma export_line_reads_back_witness :
  timestamp (entry_of "a" 1700000000000 120) =
    timestamp (entry_of "a " 1700000000000 120) ∧
  interval (entry_of "a" 1700000000000 120) =
    interval (entry_of "a " 1700000000000 120) ∧
  padEnd 10 (key (entry_of "a" 1700000000000 120)) =
    padEnd 10 (key (entry_of "a " 1700000000000 120)) ∧
  padEnd 10 (code (entry_of "a" 1700000000000 120)) =
    padEnd 10 (code (entry_of "a " 1700000000000 120)).
Proof.
  apply (export_line_reads_back (entry_of "a" 1700000000000 120)
           (entry_of "a " 1700000000000 120)
           (js "[2023-11-14T22:13:20.000Z] KEY: a          CODE:            DELTA: 120ms"));
    try (simpl; lia); vm_compute; reflexivity.
Defined.
